(** * SvgPathTurtle: front-end tables, expression combinators, runtime stacks
      and execution engine.

    A shallow embedding of the C++ sources

      - parser_starter_kit/TokenInterface.h   (OpInfo)
      - parser_starter_kit/LexicalContext.h   (LexicalContextStack)
      - svg_path_turtle/FrameStack.h          (FrameStack)
      - svg_path_turtle/EngineStack.h         (EngineStack)
      - svg_path_turtle/ASTNode.h, ASTNode.cpp (ASTNode and the combinators)
      - svg_path_turtle/Engine.h, Engine.cpp  (ExecutionEngine)

    Conventions.
      - [double] is the kernel's binary64 type; C++ operators on doubles are
        the IEEE-754 primitives of [PrimFloat].
      - [int] values are integers in [Z].  Unsigned [size_t] arithmetic wraps
        modulo 2^64 ([wrap_size_t]).  A narrowing conversion whose value does
        not fit the target type, and a signed overflow, end the modelled
        execution with [Fail NarrowingOverflow].
      - [assert] is modelled as checked: a failing assertion ends the
        execution with [Fail AssertFailed].
      - A [std::function] closure is a constructor holding its captures;
        calling it is [eval] (expressions) or [run_statement] (statements).
      - The engine is modelled without a debug sink ([m_debugger == nullptr]). *)

From Stdlib Require Import ZArith Lia Bool List.
From Stdlib Require Import Uint63 Floats.PrimFloat Floats.FloatOps Floats.SpecFloat.
From Stdlib Require Import Ascii.
From stdpp Require Import base option list gmap strings.

Local Open Scope Z_scope.

(** ** Outcomes of fallible code *)

Inductive failure : Type :=
| AssertFailed                 (* a failing [assert]                        *)
| InfiniteRecursionException   (* ExecutionEngine::InfiniteRecursionException *)
| TurtleException              (* SvgPathTurtle::TurtleExceptionBase        *)
| BadFunctionCall              (* calling an empty std::function            *)
| NarrowingOverflow            (* value-changing narrowing, signed overflow *)
| OutOfFuel.                   (* the interpreter's step budget ran out     *)

Inductive outcome (A : Type) : Type :=
| Ok (a : A)
| Fail (f : failure).

Arguments Ok {A} a.
Arguments Fail {A} f.

#[global] Instance outcome_ret : MRet outcome := fun A a => Ok a.
#[global] Instance outcome_bind : MBind outcome :=
  fun A B k m => match m with Ok a => k a | Fail f => Fail f end.

Definition assert (b : bool) : outcome unit :=
  if b then Ok tt else Fail AssertFailed.

(** ** Machine integers *)

Definition INT_MIN : Z := - 2 ^ 31.
Definition INT_MAX : Z := 2 ^ 31 - 1.

Definition fits_int (z : Z) : bool := (INT_MIN <=? z) && (z <=? INT_MAX).

(** [static_cast<int>] of an integral value, and the result of signed [int]
    arithmetic. *)
Definition to_int (z : Z) : outcome Z :=
  if fits_int z then Ok z else Fail NarrowingOverflow.

(** Arithmetic in [size_t]. *)
Definition wrap_size_t (z : Z) : Z := z mod 2 ^ 64.

(** ** Doubles *)

Definition double : Set := float.

(** Contextual conversion of a double to [bool]: everything but a zero is
    true (a NaN included). *)
Definition truthy (d : double) : bool := negb (PrimFloat.eqb d 0%float).

(** [static_cast<double>(int)] is exact. *)
Definition double_of_int (z : Z) : double :=
  if z <? 0 then PrimFloat.opp (PrimFloat.of_uint63 (Uint63.of_Z (- z)))
  else PrimFloat.of_uint63 (Uint63.of_Z z).

(** The integral value of [d] truncated toward zero, when [d] is finite. *)
Definition trunc_double (d : double) : option Z :=
  match Prim2SF d with
  | S754_zero _ => Some 0
  | S754_finite s m e =>
      let a := if 0 <=? e then Z.pos m * 2 ^ e else Z.pos m / 2 ^ (- e) in
      Some (if s then - a else a)
  | S754_infinity _ | S754_nan => None
  end.

(** [static_cast<int>(double)]. *)
Definition int_of_double (d : double) : outcome Z :=
  match trunc_double d with
  | Some z => to_int z
  | None => Fail NarrowingOverflow
  end.

(** [static_cast<size_t>(double)]. *)
Definition size_t_of_double (d : double) : outcome Z :=
  match trunc_double d with
  | Some z => if (0 <=? z) && (z <? 2 ^ 64) then Ok z else Fail NarrowingOverflow
  | None => Fail NarrowingOverflow
  end.

(** ** Token codes (BasicTokens.h, Tokens.h) *)

Module Tokens.
Definition tk_NONE : Z := 0.
Definition tk_bang : Z := 33.      (* '!' *)
Definition tk_star : Z := 42.      (* '*' *)
Definition tk_plus : Z := 43.      (* '+' *)
Definition tk_minus : Z := 45.     (* '-' *)
Definition tk_slash : Z := 47.     (* '/' *)
Definition tk_lt : Z := 60.        (* '<' *)
Definition tk_gt : Z := 62.        (* '>' *)
Definition tk_question : Z := 63.  (* '?' *)
Definition tk_next_token : Z := 1000.
Definition tk_import : Z := tk_next_token.
Definition tk_def : Z := 1001.
Definition tk_for : Z := 1002.
Definition tk_if : Z := 1003.
Definition tk_else : Z := 1004.
Definition tk_eq_arrow : Z := 1005.
Definition tk_turtle : Z := 1006.
Definition tk_unique : Z := 1007.
Definition tk_breakpoint : Z := 1008.
Definition tk_equality : Z := 1009.
Definition tk_inequality : Z := 1010.
Definition tk_or : Z := 1011.
Definition tk_and : Z := 1012.
Definition tk_pow : Z := 1013.
Definition tk_ge : Z := 1014.
Definition tk_le : Z := 1015.
End Tokens.

(** ** OpInfo (TokenInterface.h) *)

Module OpInfo.

Definition weakest_precedence : Z := INT_MAX.

Record t : Type := mk {
  op : Z;
  precedence : Z;
  left_to_right : bool
}.

(** [OpInfo{}]: the default member initialisers. *)
Definition default : t :=
  {| op := Tokens.tk_NONE; precedence := 0; left_to_right := false |}.

(** [explicit operator bool]. *)
Definition to_bool (i : t) : bool := negb (precedence i =? 0).

Definition postfix_binds_more_tightly (i : t) (outer_precedence : Z) : bool :=
  if (precedence i =? 0) || (precedence i >? outer_precedence) then false
  else if (precedence i =? outer_precedence) && left_to_right i then false
  else true.

End OpInfo.

(** The operator table registered by Tokenizer.cpp ([add_operator]): the
    postfix position of each operator token. *)
Definition postfix_op_table : list OpInfo.t :=
  [ OpInfo.mk Tokens.tk_pow 2 false;
    OpInfo.mk Tokens.tk_star 5 true;
    OpInfo.mk Tokens.tk_slash 5 true;
    OpInfo.mk Tokens.tk_plus 6 true;
    OpInfo.mk Tokens.tk_minus 6 true;
    OpInfo.mk Tokens.tk_gt 9 true;
    OpInfo.mk Tokens.tk_lt 9 true;
    OpInfo.mk Tokens.tk_ge 9 true;
    OpInfo.mk Tokens.tk_le 9 true;
    OpInfo.mk Tokens.tk_equality 10 true;
    OpInfo.mk Tokens.tk_inequality 10 true;
    OpInfo.mk Tokens.tk_and 14 true;
    OpInfo.mk Tokens.tk_or 15 true;
    OpInfo.mk Tokens.tk_question 16 false ].

(** ** std::vector helpers *)

Definition vsize {T : Type} (v : list T) : Z := Z.of_nat (length v).

(** [v.resize(n)]: truncates, or pads with value-initialised elements. *)
Definition resize {T : Type} (T0 : T) (n : Z) (v : list T) : list T :=
  take (Z.to_nat n) v ++ replicate (Z.to_nat n - length v) T0.

(** ** FrameStack (FrameStack.h) *)

Module FrameStack.
Section FrameStack.
Context {T : Type}.
(** The value-initialised [T()]. *)
Variable T0 : T.

Record t : Type := mk {
  m_stack : list T;          (* std::vector<T>, back of the vector last *)
  m_frame_start : Z;         (* size_t *)
  m_frames : list Z          (* std::vector<size_t>, back last *)
}.

Definition reset (fs : t) : t :=
  {| m_stack := []; m_frame_start := 0; m_frames := [] |}.

Definition get_frame_size (fs : t) : outcome Z :=
  to_int (wrap_size_t (vsize (m_stack fs) - m_frame_start fs)).

Definition get_frame_start (fs : t) : outcome Z :=
  to_int (m_frame_start fs).

Definition get_stack_size (fs : t) : outcome Z :=
  to_int (vsize (m_stack fs)).

Definition get_num_frames (fs : t) : outcome Z :=
  to_int (wrap_size_t (vsize (m_frames fs) + 1)).

(** [operator[]]: indexing relative to the current frame start. *)
Definition at_offset (fs : t) (stack_offset : Z) : outcome T :=
  let i := wrap_size_t (m_frame_start fs + stack_offset) in
  assert (0 <=? i);;
  assert (i <? vsize (m_stack fs));;
  match m_stack fs !! Z.to_nat i with
  | Some v => Ok v
  | None => Fail AssertFailed
  end.

Definition read_global (fs : t) (stack_offset : Z) : outcome T :=
  assert ((0 <=? stack_offset) && (stack_offset <? vsize (m_stack fs)));;
  match m_stack fs !! Z.to_nat stack_offset with
  | Some v => Ok v
  | None => Fail AssertFailed
  end.

Definition push (val : T) (fs : t) : t :=
  {| m_stack := m_stack fs ++ [val];
     m_frame_start := m_frame_start fs;
     m_frames := m_frames fs |}.

Definition pop (size : Z) (fs : t) : outcome t :=
  assert (0 <=? size);;
  assert (wrap_size_t (m_frame_start fs + size) <=? vsize (m_stack fs));;
  Ok {| m_stack := resize T0 (wrap_size_t (vsize (m_stack fs) - size)) (m_stack fs);
        m_frame_start := m_frame_start fs;
        m_frames := m_frames fs |}.

Definition push_frame (fs : t) : outcome t :=
  assert (m_frame_start fs <=? vsize (m_stack fs));;
  Ok {| m_stack := m_stack fs;
        m_frame_start := vsize (m_stack fs);
        m_frames := m_frames fs ++ [m_frame_start fs] |}.

(** [push_frame(args_size, params_size)]. *)
Definition push_frame_args (args_size params_size : Z) (fs : t) : outcome t :=
  assert (0 <=? args_size);;
  assert (0 <=? params_size);;
  assert (params_size <=? args_size);;
  assert (m_frame_start fs <=? wrap_size_t (vsize (m_stack fs) - args_size));;
  let frame_start := wrap_size_t (vsize (m_stack fs) - args_size) in
  Ok {| m_stack :=
          if params_size <? args_size
          then resize T0 (wrap_size_t (frame_start + params_size)) (m_stack fs)
          else m_stack fs;
        m_frame_start := frame_start;
        m_frames := m_frames fs ++ [m_frame_start fs] |}.

Definition pop_frame (fs : t) : outcome (Z * t) :=
  assert (negb (bool_decide (m_frames fs = [])));;
  size ← get_frame_size fs;
  match last (m_frames fs) with
  | None => Fail AssertFailed
  | Some back =>
      fs' ← pop size {| m_stack := m_stack fs;
                        m_frame_start := back;
                        m_frames := removelast (m_frames fs) |};
      Ok (size, fs')
  end.

End FrameStack.
Arguments t : clear implicits.
End FrameStack.

(** ** LexicalContextStack (LexicalContext.h) *)

Module LexicalContextStack.
Section LexicalContextStack.
(** [DEF_TYPE] with its value-initialised element, and the source
    [Location] with its default. *)
Context {NamedefType Location : Type}.
Variable Namedef0 : NamedefType.
Variable Location0 : Location.

Record ContextEntry : Type := mkEntry {
  start : Location;
  context : gmap string NamedefType       (* ContextType = std::map *)
}.

(** [std::list<ContextEntry> m_stack]; the front of the list is the head. *)
Definition t : Type := list ContextEntry.

(** A [NamedefType *] into a context of the stack: the context (counted
    from the innermost) and the key of the map entry. *)
Record NamedefPtr : Type := mkPtr {
  ptr_context : nat;
  ptr_name : string
}.

Definition deref (st : t) (p : NamedefPtr) : option NamedefType :=
  e ← st !! ptr_context p; context e !! ptr_name p.

Definition push_context (st : t) : t :=
  {| start := Location0; context := ∅ |} :: st.

Definition pop_context (st : t) : t := tail st.

(** [define_name(name, accept_dup)].  [try_emplace] inserts a
    value-initialised definition when the key is absent, and reports in
    [res.second] whether it did. *)
Definition define_name (name : string) (accept_dup : bool) (st : t)
  : outcome (option NamedefPtr * t) :=
  assert (negb (bool_decide (st = [])));;
  match st with
  | [] => Fail AssertFailed
  | front :: rest =>
      match context front !! name with
      | None =>
          Ok (Some {| ptr_context := 0; ptr_name := name |},
              {| start := start front;
                 context := <[name := Namedef0]> (context front) |} :: rest)
      | Some _ => Ok (None, st)
      end
  end.

Fixpoint lookup_from (depth : nat) (name : string) (st : t) : option NamedefPtr :=
  match st with
  | [] => None
  | entry :: rest =>
      match context entry !! name with
      | Some _ => Some {| ptr_context := depth; ptr_name := name |}
      | None => lookup_from (S depth) name rest
      end
  end.

Definition lookup_name (name : string) (st : t) : option NamedefPtr :=
  lookup_from 0 name st.

Definition lookup_global_name (name : string) (st : t) : option NamedefPtr :=
  match last st with
  | Some entry =>
      match context entry !! name with
      | Some _ => Some {| ptr_context := length st - 1; ptr_name := name |}
      | None => None
      end
  | None => None
  end.

End LexicalContextStack.
End LexicalContextStack.

(** ** External collaborators

    What the engine consumes but this repository part does not define: the
    C library's [std::pow], the turtle ([SvgPathTurtle], reached through
    member-function pointers), the constant [EngineLocation::no_chunk], and
    the order in which the compiler evaluates the two operand calls of
    [binary_op<op>(lhs(), rhs())], which C++ leaves unspecified. *)

Class External : Type := {
  std_pow : double -> double -> double;
  Turtle : Type;
  TurtleFn : Type;                       (* pointer to a turtle member function *)
  turtle_call : TurtleFn -> list double -> Turtle -> option Turtle;
                                         (* [None]: the call threw *)
  get_x : Turtle -> double;
  get_y : Turtle -> double;
  get_dir : Turtle -> double;
  get_pen_height : Turtle -> Z;
  finish : Turtle -> Turtle;
  no_chunk : nat;
  args_right_to_left : bool
}.

(** ** Operators (ASTNode.cpp) *)

(** The operator codes for which [prefix_op<op>] is specialised. *)
Inductive PrefixOp : Type := Pminus | Pbang.

(** The operator codes for which [binary_op<op>] is specialised. *)
Inductive BinaryOp : Type :=
| Bplus | Bminus | Bstar | Bslash | Bpow
| Bequality | Binequality | Blt | Bgt | Ble | Bge
| Bor | Band.

Definition prefix_op (op : PrefixOp) (rhs : double) : double :=
  match op with
  | Pminus => PrimFloat.opp rhs
  | Pbang => if truthy rhs then 0%float else 1%float
  end.

Definition binary_op `{External} (op : BinaryOp) (lhs rhs : double) : double :=
  match op with
  | Bplus => PrimFloat.add lhs rhs
  | Bminus => PrimFloat.sub lhs rhs
  | Bstar => PrimFloat.mul lhs rhs
  | Bslash => PrimFloat.div lhs rhs
  | Bpow => std_pow lhs rhs
  | Bequality => if PrimFloat.eqb lhs rhs then 1%float else 0%float
  | Binequality => if negb (PrimFloat.eqb lhs rhs) then 1%float else 0%float
  | Blt => if PrimFloat.ltb lhs rhs then 1%float else 0%float
  | Bgt => if PrimFloat.ltb rhs lhs then 1%float else 0%float
  | Ble => if PrimFloat.leb lhs rhs then 1%float else 0%float
  | Bge => if PrimFloat.leb rhs lhs then 1%float else 0%float
  | Bor => if truthy lhs then lhs else if truthy rhs then rhs else 0%float
  | Band => if truthy lhs && truthy rhs then rhs else 0%float
  end.

(** [get_prefix_operator_factory]: the static map, with its [assert]. *)
Definition get_prefix_operator_factory (op : Z) : outcome PrefixOp :=
  if op =? Tokens.tk_minus then Ok Pminus
  else if op =? Tokens.tk_bang then Ok Pbang
  else Fail AssertFailed.

(** [get_binary_operator_factory]. *)
Definition get_binary_operator_factory (op : Z) : outcome BinaryOp :=
  if op =? Tokens.tk_plus then Ok Bplus
  else if op =? Tokens.tk_minus then Ok Bminus
  else if op =? Tokens.tk_star then Ok Bstar
  else if op =? Tokens.tk_slash then Ok Bslash
  else if op =? Tokens.tk_pow then Ok Bpow
  else if op =? Tokens.tk_equality then Ok Bequality
  else if op =? Tokens.tk_inequality then Ok Binequality
  else if op =? Tokens.tk_or then Ok Bor
  else if op =? Tokens.tk_and then Ok Band
  else if op =? Tokens.tk_lt then Ok Blt
  else if op =? Tokens.tk_gt then Ok Bgt
  else if op =? Tokens.tk_le then Ok Ble
  else if op =? Tokens.tk_ge then Ok Bge
  else Fail AssertFailed.

(** ** Expressions: the closures of type [Expr = std::function<double()>] *)

Inductive ValueDomain : Type := Global | Capture | Local.

Inductive Expr : Type :=
| empty_expr                                   (* a default-constructed Expr *)
| access_constant (val : double)               (* [val]{ return val; } *)
| access_value (source : ValueDomain) (offset : Z)
| turtle_x_expr
| turtle_y_expr
| turtle_dir_expr
| unique_val_expr
| prefix_closure (op : PrefixOp) (rhs : Expr)
| binary_closure_ee (op : BinaryOp) (lhs rhs : Expr)
| binary_closure_ce (op : BinaryOp) (lhs : double) (rhs : Expr)
| binary_closure_ec (op : BinaryOp) (lhs : Expr) (rhs : double)
| conditional_closure (l r t : Operand)        (* create_conditional<L,R,T> *)
with Operand : Type :=
| Cnst (c : double)
| Deferred (e : Expr).

(** ** ASTNode (ASTNode.h) *)

Inductive ASTNode : Type :=
| Invalid
| Expression (e : Expr)
| Constant (v : double).

Definition is_constexpr (n : ASTNode) : bool :=
  match n with Constant _ => true | _ => false end.

Definition is_expression (n : ASTNode) : bool :=
  match n with Expression _ => true | _ => false end.

Definition get_expression (n : ASTNode) : outcome Expr :=
  assert (negb (is_constexpr n));;
  Ok (match n with Expression e => e | _ => empty_expr end).

Definition get_constant (n : ASTNode) : outcome double :=
  assert (is_constexpr n);;
  Ok (match n with Constant v => v | _ => 0%float end).

(** [MakePrefixOp<op>::create], both overloads. *)
Definition MakePrefixOp_create_e (op : PrefixOp) (rhs : Expr) : ASTNode :=
  Expression (prefix_closure op rhs).
Definition MakePrefixOp_create_c (op : PrefixOp) (rhs : double) : ASTNode :=
  Constant (prefix_op op rhs).

Definition create_prefix_op_expr (op : Z) (rhs : ASTNode) : outcome ASTNode :=
  factory ← get_prefix_operator_factory op;
  if is_constexpr rhs
  then c ← get_constant rhs; Ok (MakePrefixOp_create_c factory c)
  else e ← get_expression rhs; Ok (MakePrefixOp_create_e factory e).

(** [MakeBinaryOp<op>::create], the four overloads. *)
Definition MakeBinaryOp_create_ee (op : BinaryOp) (lhs rhs : Expr) : ASTNode :=
  Expression (binary_closure_ee op lhs rhs).
Definition MakeBinaryOp_create_ce (op : BinaryOp) (lhs : double) (rhs : Expr) : ASTNode :=
  Expression (binary_closure_ce op lhs rhs).
Definition MakeBinaryOp_create_ec (op : BinaryOp) (lhs : Expr) (rhs : double) : ASTNode :=
  Expression (binary_closure_ec op lhs rhs).
Definition MakeBinaryOp_create_cc `{External} (op : BinaryOp) (lhs rhs : double) : ASTNode :=
  Constant (binary_op op lhs rhs).

Definition create_binary_op_expr `{External} (op : Z) (lhs rhs : ASTNode)
  : outcome ASTNode :=
  factory ← get_binary_operator_factory op;
  if is_constexpr lhs then
    if is_constexpr rhs
    then l ← get_constant lhs; r ← get_constant rhs;
         Ok (MakeBinaryOp_create_cc factory l r)
    else l ← get_constant lhs; r ← get_expression rhs;
         Ok (MakeBinaryOp_create_ce factory l r)
  else
    if is_constexpr rhs
    then l ← get_expression lhs; r ← get_constant rhs;
         Ok (MakeBinaryOp_create_ec factory l r)
    else l ← get_expression lhs; r ← get_expression rhs;
         Ok (MakeBinaryOp_create_ee factory l r).

(** [create_conditional<L, R, T>(l, r, t)]: always a deferred node. *)
Definition create_conditional (l r t : Operand) : ASTNode :=
  Expression (conditional_closure l r t).

Definition create_conditional_expr (lhs rhs third : ASTNode) : outcome ASTNode :=
  if is_constexpr lhs then
    if is_constexpr rhs then
      if is_constexpr third
      then l ← get_constant lhs; r ← get_constant rhs; t ← get_constant third;
           Ok (create_conditional (Cnst l) (Cnst r) (Cnst t))
      else l ← get_constant lhs; r ← get_constant rhs; t ← get_expression third;
           Ok (create_conditional (Cnst l) (Cnst r) (Deferred t))
    else
      if is_constexpr third
      then l ← get_constant lhs; r ← get_expression rhs; t ← get_constant third;
           Ok (create_conditional (Cnst l) (Deferred r) (Cnst t))
      else l ← get_constant lhs; r ← get_expression rhs; t ← get_expression third;
           Ok (create_conditional (Cnst l) (Deferred r) (Deferred t))
  else
    if is_constexpr rhs then
      if is_constexpr third
      then l ← get_expression lhs; r ← get_constant rhs; t ← get_constant third;
           Ok (create_conditional (Deferred l) (Cnst r) (Cnst t))
      else l ← get_expression lhs; r ← get_constant rhs; t ← get_expression third;
           Ok (create_conditional (Deferred l) (Cnst r) (Deferred t))
    else
      if is_constexpr third
      then l ← get_expression lhs; r ← get_expression rhs; t ← get_constant third;
           Ok (create_conditional (Deferred l) (Deferred r) (Cnst t))
      else l ← get_expression lhs; r ← get_expression rhs; t ← get_expression third;
           Ok (create_conditional (Deferred l) (Deferred r) (Deferred t)).

(** [get_ast_node_expression] (Parser.cpp). *)
Definition get_ast_node_expression (n : ASTNode) : Expr :=
  match n with
  | Expression e => e
  | Constant val => access_constant val
  | Invalid => empty_expr
  end.

(** ** Parse trees

    The expression grammar as the Pratt parser recognises it.  [build_ast]
    replays the AST actions of [Parser::parse_prefix_expression] and
    [Parser::parse_postfix_op_expression] over a parse tree; operators are
    the token codes the parser passes on. *)

Inductive ParseTree : Type :=
| PNumber (val : double)                          (* tk_number, tk_integer; a constexpr name *)
| PValue (source : ValueDomain) (offset : Z)      (* a name bound to a stack slot *)
| PTurtleX
| PTurtleY
| PTurtleDir
| PUnique
| PParen (e : ParseTree)
| PPlus (e : ParseTree)                           (* unary '+' *)
| PPrefix (op : Z) (rhs : ParseTree)              (* tk_minus, tk_bang *)
| PBinary (op : Z) (lhs rhs : ParseTree)
| PTernary (lhs rhs third : ParseTree).

Fixpoint build_ast `{External} (p : ParseTree) : outcome ASTNode :=
  match p with
  | PNumber val => Ok (Constant val)
  | PValue source offset => Ok (Expression (access_value source offset))
  | PTurtleX => Ok (Expression turtle_x_expr)
  | PTurtleY => Ok (Expression turtle_y_expr)
  | PTurtleDir => Ok (Expression turtle_dir_expr)
  | PUnique => Ok (Expression unique_val_expr)
  | PParen e => build_ast e
  | PPlus e => build_ast e
  | PPrefix op rhs =>
      r ← build_ast rhs; create_prefix_op_expr op r
  | PBinary op lhs rhs =>
      l ← build_ast lhs; r ← build_ast rhs; create_binary_op_expr op l r
  | PTernary lhs rhs third =>
      l ← build_ast lhs; r ← build_ast rhs; t ← build_ast third;
      create_conditional_expr l r t
  end.

(** ** EngineStack (EngineStack.h) *)

(** [std::fmod(d, 1.0) == 0.0]: [d] is finite and has no fractional part. *)
Definition fmod1_is_zero (d : double) : bool :=
  match Prim2SF d with
  | S754_zero _ => true
  | S754_finite _ m e => (0 <=? e) || (Z.pos m mod 2 ^ (- e) =? 0)
  | S754_infinity _ | S754_nan => false
  end.

Module EngineStack.

Record Size : Type := mkSize { locals : Z; captures : Z }.

Record t : Type := mk {
  m_locals : FrameStack.t double;
  m_captures : FrameStack.t double
}.

Definition reset (s : t) : t :=
  {| m_locals := FrameStack.reset (m_locals s);
     m_captures := FrameStack.reset (m_captures s) |}.

Definition get_frame_size (s : t) : outcome Size :=
  l ← FrameStack.get_frame_size (m_locals s);
  c ← FrameStack.get_frame_size (m_captures s);
  Ok {| locals := l; captures := c |}.

Definition get_stack_size (s : t) : outcome Size :=
  l ← FrameStack.get_stack_size (m_locals s);
  c ← FrameStack.get_stack_size (m_captures s);
  Ok {| locals := l; captures := c |}.

Definition check_stack_size (max_size : Z) (s : t) : outcome bool :=
  l ← FrameStack.get_stack_size (m_locals s);
  if l <? max_size
  then c ← FrameStack.get_stack_size (m_captures s); Ok (c <? max_size)
  else Ok false.

Definition get_capture_frame_start (s : t) : outcome Z :=
  FrameStack.get_frame_start (m_captures s).

(** [operator[]]: local values. *)
Definition at_offset (s : t) (stack_offset : Z) : outcome double :=
  FrameStack.at_offset (m_locals s) stack_offset.

Definition read_global (s : t) (stack_offset : Z) : outcome double :=
  FrameStack.read_global (m_locals s) stack_offset.

Definition get_closure_position (s : t) : outcome Z :=
  pos ← FrameStack.at_offset (m_locals s) (-1);
  assert (PrimFloat.leb 0%float pos);;
  assert (fmod1_is_zero pos);;
  int_of_double pos.

Definition read_capture (s : t) (capture_offset : Z) : outcome double :=
  closure_position ← get_closure_position s;
  position ← to_int (closure_position + capture_offset);
  FrameStack.read_global (m_captures s) position.

Definition push_frame (s : t) : outcome t :=
  l ← FrameStack.push_frame (m_locals s);
  c ← FrameStack.push_frame (m_captures s);
  Ok {| m_locals := l; m_captures := c |}.

Definition push_frame_args (args params : Size) (s : t) : outcome t :=
  l ← FrameStack.push_frame_args 0%float (locals args) (locals params) (m_locals s);
  c ← FrameStack.push_frame_args 0%float (captures args) (captures params) (m_captures s);
  Ok {| m_locals := l; m_captures := c |}.

Definition pop_frame (s : t) : outcome (Size * t) :=
  '(l, ls) ← FrameStack.pop_frame 0%float (m_locals s);
  '(c, cs) ← FrameStack.pop_frame 0%float (m_captures s);
  Ok ({| locals := l; captures := c |}, {| m_locals := ls; m_captures := cs |}).

Definition push (val : double) (s : t) : t :=
  {| m_locals := FrameStack.push val (m_locals s); m_captures := m_captures s |}.

Definition push_capture (val : double) (s : t) : t :=
  {| m_locals := m_locals s; m_captures := FrameStack.push val (m_captures s) |}.

Definition pop (size : Size) (s : t) : outcome t :=
  l ← FrameStack.pop 0%float (locals size) (m_locals s);
  c ← FrameStack.pop 0%float (captures size) (m_captures s);
  Ok {| m_locals := l; m_captures := c |}.

End EngineStack.

(** ** ExecutionEngine (Engine.h, Engine.cpp): the executor *)

Definition infinite_recursion_limit : Z := 1000000.

Inductive ChunkType : Type := builtin_function | function | local_block.

(** The closures of type [Statement = std::function<void()>], one
    constructor for each lambda that Engine.cpp passes to [add_statement]. *)
Inductive Statement `{External} : Type :=
| turtle_fn_stmt (fn : TurtleFn) (args : list Expr)         (* setup_turtle_fn *)
| push_value_stmt (dest : ValueDomain) (e : Expr)
| push_constant_stmt (dest : ValueDomain) (val : double)
| push_copy_stmt (dest source : ValueDomain) (offset size : Z)
| start_fn_call_stmt (dest : ValueDomain) (is_self_recursion is_lambda_call : bool)
                     (fn_index : nat)                        (* exec_start_fn_call<..> *)
| call_fn_stmt (fn_index : nat) (args_size : EngineStack.Size)
| start_lambda_call_stmt (source : ValueDomain) (offset : Z)
| call_lambda_fn_stmt (source : ValueDomain) (offset : Z) (args_size : EngineStack.Size)
| if_stmt (condition : Expr) (if_body else_body : nat)
| for_count_stmt (start : Expr) (block_index : nat) (has_named_loop_var : bool)
| for_range_stmt (start end_ : Expr) (block_index : nat) (has_named_loop_var : bool)
| for_step_stmt (start step end_ : Expr) (block_index : nat) (has_named_loop_var : bool)
| breakpoint_stmt.

(** [Chunk].  The union [info] of the two-int structs [FunctionInfo] and
    [LocalBlockInfo] is its two words; [f_*] and [b_*] are the two views. *)
Record Chunk `{External} : Type := mkChunk {
  type : ChunkType;
  info : Z * Z;
  statements : list Statement
}.

Section ChunkViews.
Context `{External}.

Definition f_params_size (c : Chunk) : Z := fst (info c).
Definition f_closure_offset (c : Chunk) : Z := snd (info c).
Definition f_is_closure (c : Chunk) : bool := 0 <=? f_closure_offset c.
Definition b_get_unwind_size (c : Chunk) : EngineStack.Size :=
  {| EngineStack.locals := fst (info c); EngineStack.captures := snd (info c) |}.

Definition is_call_frame (c : Chunk) : bool :=
  match type c with function | builtin_function => true | local_block => false end.
Definition is_local_block (c : Chunk) : bool :=
  match type c with local_block => true | _ => false end.
Definition is_closure (c : Chunk) : bool := is_call_frame c && f_is_closure c.
Definition is_builtin (c : Chunk) : bool :=
  match type c with builtin_function => true | _ => false end.
End ChunkViews.

(** The engine's execution state (the fields that only parsing uses, and
    the debug program counter, are left out). *)
Record Engine `{External} : Type := mkEngine {
  m_chunks : list Chunk;
  m_stack : EngineStack.t;
  m_is_executing : bool;
  m_pen_height_became_negative : bool;
  m_next_unique_num : Z;
  m_turtle : Turtle
}.

Section EngineState.
Context `{External}.

Definition set_stack (s : EngineStack.t) (en : Engine) : Engine :=
  {| m_chunks := m_chunks en; m_stack := s;
     m_is_executing := m_is_executing en;
     m_pen_height_became_negative := m_pen_height_became_negative en;
     m_next_unique_num := m_next_unique_num en;
     m_turtle := m_turtle en |}.

Definition set_next_unique_num (n : Z) (en : Engine) : Engine :=
  {| m_chunks := m_chunks en; m_stack := m_stack en;
     m_is_executing := m_is_executing en;
     m_pen_height_became_negative := m_pen_height_became_negative en;
     m_next_unique_num := n;
     m_turtle := m_turtle en |}.

Definition set_turtle (tu : Turtle) (en : Engine) : Engine :=
  {| m_chunks := m_chunks en; m_stack := m_stack en;
     m_is_executing := m_is_executing en;
     m_pen_height_became_negative := m_pen_height_became_negative en;
     m_next_unique_num := m_next_unique_num en;
     m_turtle := tu |}.

Definition set_pen_height_became_negative (b : bool) (en : Engine) : Engine :=
  {| m_chunks := m_chunks en; m_stack := m_stack en;
     m_is_executing := m_is_executing en;
     m_pen_height_became_negative := b;
     m_next_unique_num := m_next_unique_num en;
     m_turtle := m_turtle en |}.

Definition set_is_executing (b : bool) (en : Engine) : Engine :=
  {| m_chunks := m_chunks en; m_stack := m_stack en;
     m_is_executing := b;
     m_pen_height_became_negative := m_pen_height_became_negative en;
     m_next_unique_num := m_next_unique_num en;
     m_turtle := m_turtle en |}.

(** A freshly constructed engine holding the program [chunks]. *)
Definition new_engine (chunks : list Chunk) (tu : Turtle) : Engine :=
  {| m_chunks := chunks;
     m_stack := EngineStack.mk (FrameStack.mk [] 0 []) (FrameStack.mk [] 0 []);
     m_is_executing := false;
     m_pen_height_became_negative := false;
     m_next_unique_num := 1;
     m_turtle := tu |}.

Definition get_chunk (index : nat) (en : Engine) : outcome Chunk :=
  assert (Z.of_nat index <? vsize (m_chunks en));;
  match m_chunks en !! index with
  | Some c => Ok c
  | None => Fail AssertFailed
  end.

(** *** Calling an [Expr] *)

Fixpoint eval (e : Expr) (en : Engine) {struct e} : outcome (double * Engine) :=
  match e with
  | empty_expr => Fail BadFunctionCall
  | access_constant val => Ok (val, en)
  | access_value Local offset =>
      v ← EngineStack.at_offset (m_stack en) offset; Ok (v, en)
  | access_value Global offset =>
      v ← EngineStack.read_global (m_stack en) offset; Ok (v, en)
  | access_value Capture offset =>
      v ← EngineStack.read_capture (m_stack en) offset; Ok (v, en)
  | turtle_x_expr => Ok (get_x (m_turtle en), en)
  | turtle_y_expr => Ok (get_y (m_turtle en), en)
  | turtle_dir_expr => Ok (get_dir (m_turtle en), en)
  | unique_val_expr =>
      let n := m_next_unique_num en in
      n' ← to_int (n + 1);
      Ok (double_of_int n, set_next_unique_num n' en)
  | prefix_closure op rhs =>
      '(r, en1) ← eval rhs en; Ok (prefix_op op r, en1)
  | binary_closure_ee op lhs rhs =>
      if args_right_to_left
      then '(r, en1) ← eval rhs en; '(l, en2) ← eval lhs en1;
           Ok (binary_op op l r, en2)
      else '(l, en1) ← eval lhs en; '(r, en2) ← eval rhs en1;
           Ok (binary_op op l r, en2)
  | binary_closure_ce op lhs rhs =>
      '(r, en1) ← eval rhs en; Ok (binary_op op lhs r, en1)
  | binary_closure_ec op lhs rhs =>
      '(l, en1) ← eval lhs en; Ok (binary_op op l rhs, en1)
  | conditional_closure l r t =>
      (* condexp::f: [l ? r : t], only the selected branch is called *)
      '(c, en1) ← eval_operand l en;
      if truthy c then eval_operand r en1 else eval_operand t en1
  end
with eval_operand (o : Operand) (en : Engine) {struct o} : outcome (double * Engine) :=
  match o with
  | Cnst c => Ok (c, en)
  | Deferred e => eval e en
  end.

End EngineState.

Section Executor.
Context `{External}.

Definition double_of_size_t (n : nat) : double := double_of_int (Z.of_nat n).

(** [push<dest>(value)]. *)
Definition push_dest (dest : ValueDomain) (value : double) (en : Engine)
  : outcome Engine :=
  match dest with
  | Local => Ok (set_stack (EngineStack.push value (m_stack en)) en)
  | Capture => Ok (set_stack (EngineStack.push_capture value (m_stack en)) en)
  | Global => Fail AssertFailed
  end.

(** [read<source>(offset)]. *)
Definition read_source (source : ValueDomain) (offset : Z) (en : Engine)
  : outcome double :=
  match source with
  | Local => EngineStack.at_offset (m_stack en) offset
  | Capture => EngineStack.read_capture (m_stack en) offset
  | Global => EngineStack.read_global (m_stack en) offset
  end.

(** [copy_stack<source, dest>]: the loop from [i] for [n] more rounds. *)
Fixpoint copy_stack_loop (n : nat) (source dest : ValueDomain) (i : Z) (en : Engine)
  : outcome Engine :=
  match n with
  | O => Ok en
  | S n' =>
      v ← read_source source i en;
      en' ← push_dest dest v en;
      copy_stack_loop n' source dest (i + 1) en'
  end.

Definition copy_stack (source dest : ValueDomain) (source_offset size : Z) (en : Engine)
  : outcome Engine :=
  limit ← to_int (source_offset + size);
  copy_stack_loop (Z.to_nat (limit - source_offset)) source dest source_offset en.

Definition get_fn_call_closure_position (is_self_recursion : bool) (c : Chunk)
    (en : Engine) : outcome Z :=
  if is_self_recursion then EngineStack.get_closure_position (m_stack en)
  else
    frame_start ← EngineStack.get_capture_frame_start (m_stack en);
    closure_position ← to_int (frame_start + f_closure_offset c);
    assert (0 <=? closure_position);;
    Ok closure_position.

Definition exec_start_fn_call (dest : ValueDomain)
    (is_self_recursion is_lambda_call : bool) (chunk_index : nat) (en : Engine)
  : outcome Engine :=
  en1 ← (if is_lambda_call
         then push_dest dest (double_of_size_t chunk_index) en
         else Ok en);
  c ← get_chunk chunk_index en1;
  if is_closure c then
    closure_position ← get_fn_call_closure_position is_self_recursion c en1;
    push_dest dest (double_of_int closure_position) en1
  else if is_lambda_call then push_dest dest 0%float en1
  else Ok en1.

(** Calling the argument closures of one call expression. *)
Fixpoint eval_list (args : list Expr) (en : Engine) : outcome (list double * Engine) :=
  match args with
  | [] => Ok ([], en)
  | a :: rest =>
      '(v, en1) ← eval a en;
      '(vs, en2) ← eval_list rest en1;
      Ok (v :: vs, en2)
  end.

Definition eval_args (args : list Expr) (en : Engine) : outcome (list double * Engine) :=
  if args_right_to_left
  then '(vs, en1) ← eval_list (rev args) en; Ok (rev vs, en1)
  else eval_list args en.

Section Body.
(** [exec_statements] at the remaining recursion depth, and the number
    of rounds a loop statement may still make. *)
Variable exec_statements : list Statement -> Engine -> outcome Engine.
Variable rounds : nat.

Definition exec_fn_body (args_size : EngineStack.Size) (params_size : Z)
    (has_closure_position : bool) (stmts : list Statement) (en : Engine)
  : outcome Engine :=
  s1 ← EngineStack.push_frame_args
         (EngineStack.mkSize (EngineStack.locals args_size) 0)
         (EngineStack.mkSize params_size 0) (m_stack en);
  en2 ← exec_statements stmts (set_stack s1 en);
  '(_, s3) ← EngineStack.pop_frame (m_stack en2);
  s4 ← EngineStack.pop
         (EngineStack.mkSize (if has_closure_position then 1 else 0)
                             (EngineStack.captures args_size)) s3;
  Ok (set_stack s4 en2).

Definition exec_call_fn (fn_index : nat) (args_size : EngineStack.Size) (en : Engine)
  : outcome Engine :=
  c ← get_chunk fn_index en;
  assert (is_call_frame c);;
  exec_fn_body args_size (f_params_size c) (f_is_closure c) (statements c) en.

Definition exec_call_lambda (fn_index : nat) (args_size : EngineStack.Size)
    (en : Engine) : outcome Engine :=
  c ← get_chunk fn_index en;
  assert (is_call_frame c);;
  exec_fn_body args_size (f_params_size c) true (statements c) en.

Definition exec_call_local_block (block_index : nat) (en : Engine) : outcome Engine :=
  c ← get_chunk block_index en;
  assert (is_local_block c);;
  en1 ← exec_statements (statements c) en;
  s2 ← EngineStack.pop (b_get_unwind_size c) (m_stack en1);
  Ok (set_stack s2 en1).

(** One round of a loop body: push the named loop variable, run the block. *)
Definition loop_round (block_index : nat) (has_named_loop_var : bool)
    (v : double) (en : Engine) : outcome Engine :=
  exec_call_local_block block_index
    (if has_named_loop_var
     then set_stack (EngineStack.push v (m_stack en)) en
     else en).

(** [for(int i = 0; i < count; ++i)]. *)
Fixpoint for_count_loop (n : nat) (i count : Z) (block_index : nat)
    (has_named_loop_var : bool) (en : Engine) : outcome Engine :=
  if i <? count then
    match n with
    | O => Fail OutOfFuel
    | S n' =>
        en1 ← loop_round block_index has_named_loop_var (double_of_int i) en;
        for_count_loop n' (i + 1) count block_index has_named_loop_var en1
    end
  else Ok en.

(** [for(; s <= e; s += inc)]. *)
Fixpoint for_up_loop (n : nat) (s inc e : double) (block_index : nat)
    (has_named_loop_var : bool) (en : Engine) : outcome Engine :=
  if PrimFloat.leb s e then
    match n with
    | O => Fail OutOfFuel
    | S n' =>
        en1 ← loop_round block_index has_named_loop_var s en;
        for_up_loop n' (PrimFloat.add s inc) inc e block_index has_named_loop_var en1
    end
  else Ok en.

(** [for(; s >= e; s -= inc)]. *)
Fixpoint for_down_loop (n : nat) (s inc e : double) (block_index : nat)
    (has_named_loop_var : bool) (en : Engine) : outcome Engine :=
  if PrimFloat.leb e s then
    match n with
    | O => Fail OutOfFuel
    | S n' =>
        en1 ← loop_round block_index has_named_loop_var s en;
        for_down_loop n' (PrimFloat.sub s inc) inc e block_index has_named_loop_var en1
    end
  else Ok en.

(** Calling a [Statement]. *)
Definition run_statement (stmt : Statement) (en : Engine) : outcome Engine :=
  match stmt with
  | turtle_fn_stmt fn args =>
      '(vals, en1) ← eval_args args en;
      match turtle_call fn vals (m_turtle en1) with
      | Some tu => Ok (set_turtle tu en1)
      | None => Fail TurtleException
      end
  | push_value_stmt dest e =>
      '(val, en1) ← eval e en; push_dest dest val en1
  | push_constant_stmt dest val => push_dest dest val en
  | push_copy_stmt dest source offset size => copy_stack source dest offset size en
  | start_fn_call_stmt dest is_self_recursion is_lambda_call fn_index =>
      exec_start_fn_call dest is_self_recursion is_lambda_call fn_index en
  | call_fn_stmt fn_index args_size => exec_call_fn fn_index args_size en
  | start_lambda_call_stmt source offset =>
      o ← to_int (offset + 1);
      closure_position ←
        match source with
        | Local => EngineStack.at_offset (m_stack en) o
        | Capture => EngineStack.read_capture (m_stack en) o
        | Global => Fail AssertFailed
        end;
      Ok (set_stack (EngineStack.push closure_position (m_stack en)) en)
  | call_lambda_fn_stmt source offset args_size =>
      fn_index ←
        match source with
        | Local => EngineStack.at_offset (m_stack en) offset
        | Capture => EngineStack.read_capture (m_stack en) offset
        | Global => Fail AssertFailed
        end;
      assert (PrimFloat.leb 0%float fn_index);;
      assert (fmod1_is_zero fn_index);;
      i ← size_t_of_double fn_index;
      exec_call_lambda (Z.to_nat i) args_size en
  | if_stmt condition if_body else_body =>
      '(c, en1) ← eval condition en;
      if truthy c then exec_call_local_block if_body en1
      else if negb (Nat.eqb else_body 0) then exec_call_local_block else_body en1
      else Ok en1
  | for_count_stmt start block_index has_named_loop_var =>
      '(c, en1) ← eval start en;
      count ← int_of_double c;
      for_count_loop rounds 0 count block_index has_named_loop_var en1
  | for_range_stmt start end_ block_index has_named_loop_var =>
      '(s, en1) ← eval start en;
      '(e, en2) ← eval end_ en1;
      if PrimFloat.leb s e
      then for_up_loop rounds s 1%float e block_index has_named_loop_var en2
      else for_down_loop rounds s 1%float e block_index has_named_loop_var en2
  | for_step_stmt start step end_ block_index has_named_loop_var =>
      '(s, en1) ← eval start en;
      '(inc, en2) ← eval step en1;
      '(e, en3) ← eval end_ en2;
      if PrimFloat.leb s e
      then for_up_loop rounds s inc e block_index has_named_loop_var en3
      else
        let inc := if PrimFloat.ltb inc 0%float then PrimFloat.opp inc else inc in
        for_down_loop rounds s inc e block_index has_named_loop_var en3
  | breakpoint_stmt => Ok en           (* exec_breakpoint without a debugger *)
  end.

Definition exec_statement (stmt : Statement) (en : Engine) : outcome Engine :=
  en1 ← run_statement stmt en;
  Ok (if negb (m_pen_height_became_negative en1)
      then if get_pen_height (m_turtle en1) <? 0
           then set_pen_height_became_negative true en1
           else en1
      else en1).

(** [for(const auto &stmt : statements) exec_statement(stmt)]. *)
Fixpoint exec_each (stmts : list Statement) (en : Engine) : outcome Engine :=
  match stmts with
  | [] => Ok en
  | stmt :: rest => en1 ← exec_statement stmt en; exec_each rest en1
  end.

End Body.

(** [exec_statements]; [fuel] bounds the nesting of chunk executions and
    the rounds of each loop statement. *)
Fixpoint exec_statements (fuel : nat) (stmts : list Statement) (en : Engine)
  : outcome Engine :=
  match fuel with
  | O => Fail OutOfFuel
  | S fuel' =>
      ok ← EngineStack.check_stack_size infinite_recursion_limit (m_stack en);
      if negb ok then Fail InfiniteRecursionException
      else exec_each (exec_statements fuel') fuel' stmts en
  end.

Definition execute_main (fuel : nat) (chunk_index : nat) (en : Engine)
  : outcome Engine :=
  assert (negb (Nat.eqb chunk_index no_chunk));;
  let en1 := set_is_executing true (set_stack (EngineStack.reset (m_stack en)) en) in
  en2 ← exec_call_fn (exec_statements fuel) chunk_index (EngineStack.mkSize 0 0) en1;
  Ok (set_turtle (finish (m_turtle en2)) en2).

End Executor.

(** ** A recording turtle

    A concrete choice of the external collaborators on which the engine can
    be run: the turtle is the list of the calls it received, it sits at the
    origin with the pen down, and no call throws. *)

Definition recording_turtle : External := {|
  std_pow := fun x y => PrimFloat.mul x y;      (* stands in for the C library *)
  Turtle := list (string * list double);
  TurtleFn := string;
  turtle_call := fun fn args tu => Some (tu ++ [(fn, args)])%list;
  get_x := fun _ => 0%float;
  get_y := fun _ => 0%float;
  get_dir := fun _ => 0%float;
  get_pen_height := fun _ => 0;
  finish := fun tu => tu;
  no_chunk := 0%nat;
  args_right_to_left := false
|}.

(** The chunk of a builtin turtle command with [nparams] value parameters
    ([Parser::add_builtin_cmd]): one statement that passes the parameter
    slots to the turtle. *)
Definition builtin_chunk `{External} (fn : TurtleFn) (nparams : nat) : Chunk :=
  {| type := builtin_function;
     info := (Z.of_nat nparams, -1);
     statements :=
       [turtle_fn_stmt fn (map (fun i => access_value Local (Z.of_nat i)) (seq 0 nparams))] |}.

(** ** Reference semantics used by the statements below *)

Definition eval_node `{External} (n : ASTNode) (en : Engine) : outcome (double * Engine) :=
  eval (get_ast_node_expression n) en.

Section ReferenceSemantics.
Context `{External}.

(** The two operand evaluations of a binary operator, in the compiler's
    order. *)
Definition both_operands (op : BinaryOp)
    (L R : Engine -> outcome (double * Engine)) (en : Engine)
  : outcome (double * Engine) :=
  if args_right_to_left
  then '(r, en1) ← R en; '(l, en2) ← L en1; Ok (binary_op op l r, en2)
  else '(l, en1) ← L en; '(r, en2) ← R en1; Ok (binary_op op l r, en2).

(** The evaluation the compiled node of a parse tree performs, read off
    the tree: every operand of a prefix or binary operator is evaluated. *)
Fixpoint strict_eval (p : ParseTree) (en : Engine) : outcome (double * Engine) :=
  match p with
  | PNumber val => Ok (val, en)
  | PValue source offset => eval (access_value source offset) en
  | PTurtleX => eval turtle_x_expr en
  | PTurtleY => eval turtle_y_expr en
  | PTurtleDir => eval turtle_dir_expr en
  | PUnique => eval unique_val_expr en
  | PParen e => strict_eval e en
  | PPlus e => strict_eval e en
  | PPrefix op rhs =>
      f ← get_prefix_operator_factory op;
      '(r, en1) ← strict_eval rhs en; Ok (prefix_op f r, en1)
  | PBinary op lhs rhs =>
      f ← get_binary_operator_factory op;
      both_operands f (strict_eval lhs) (strict_eval rhs) en
  | PTernary lhs rhs third =>
      '(c, en1) ← strict_eval lhs en;
      if truthy c then strict_eval rhs en1 else strict_eval third en1
  end.

(** A short-circuiting evaluator, following the specification's words:
    [&&] yields the right operand if both are truthy, else 0, and does not
    evaluate the right operand when the left one is false; [||] yields the
    first truthy operand, else 0, and does not evaluate the right operand
    when the left one is true.  Everything else is as [strict_eval]. *)
Fixpoint short_circuit_eval (p : ParseTree) (en : Engine) : outcome (double * Engine) :=
  match p with
  | PNumber val => Ok (val, en)
  | PValue source offset => eval (access_value source offset) en
  | PTurtleX => eval turtle_x_expr en
  | PTurtleY => eval turtle_y_expr en
  | PTurtleDir => eval turtle_dir_expr en
  | PUnique => eval unique_val_expr en
  | PParen e => short_circuit_eval e en
  | PPlus e => short_circuit_eval e en
  | PPrefix op rhs =>
      f ← get_prefix_operator_factory op;
      '(r, en1) ← short_circuit_eval rhs en; Ok (prefix_op f r, en1)
  | PBinary op lhs rhs =>
      f ← get_binary_operator_factory op;
      match f with
      | Band =>
          '(l, en1) ← short_circuit_eval lhs en;
          if truthy l
          then '(r, en2) ← short_circuit_eval rhs en1;
               Ok (if truthy r then r else 0%float, en2)
          else Ok (0%float, en1)
      | Bor =>
          '(l, en1) ← short_circuit_eval lhs en;
          if truthy l then Ok (l, en1)
          else '(r, en2) ← short_circuit_eval rhs en1;
               Ok (if truthy r then r else 0%float, en2)
      | _ => both_operands f (short_circuit_eval lhs) (short_circuit_eval rhs) en
      end
  | PTernary lhs rhs third =>
      '(c, en1) ← short_circuit_eval lhs en;
      if truthy c then short_circuit_eval rhs en1 else short_circuit_eval third en1
  end.

(** The value of a constant-only expression with every operator applied
    eagerly; [None] when a leaf is not a constant or an operator code is
    not an operator. *)
Fixpoint eager_value (p : ParseTree) : option double :=
  match p with
  | PNumber val => Some val
  | PParen e => eager_value e
  | PPlus e => eager_value e
  | PPrefix op rhs =>
      match get_prefix_operator_factory op, eager_value rhs with
      | Ok f, Some r => Some (prefix_op f r)
      | _, _ => None
      end
  | PBinary op lhs rhs =>
      match get_binary_operator_factory op, eager_value lhs, eager_value rhs with
      | Ok f, Some l, Some r => Some (binary_op f l r)
      | _, _, _ => None
      end
  | PTernary lhs rhs third =>
      match eager_value lhs, eager_value rhs, eager_value third with
      | Some c, Some r, Some t => Some (if truthy c then r else t)
      | _, _, _ => None
      end
  | _ => None
  end.

(** No [?:] occurs in the tree. *)
Fixpoint ternary_free (p : ParseTree) : bool :=
  match p with
  | PParen e | PPlus e | PPrefix _ e => ternary_free e
  | PBinary _ l r => ternary_free l && ternary_free r
  | PTernary _ _ _ => false
  | _ => true
  end.

(** No [unique] occurs in the tree. *)
Fixpoint unique_free (p : ParseTree) : bool :=
  match p with
  | PUnique => false
  | PParen e | PPlus e | PPrefix _ e => unique_free e
  | PBinary _ l r => unique_free l && unique_free r
  | PTernary c r t => unique_free c && unique_free r && unique_free t
  | _ => true
  end.

(** The loop values of [for(; s <= e; s += inc)] and of
    [for(; s >= e; s -= inc)], at most [n] of them. *)
Fixpoint up_values (n : nat) (s inc e : double) : list double :=
  match n with
  | O => []
  | S n' => if PrimFloat.leb s e then s :: up_values n' (PrimFloat.add s inc) inc e else []
  end.

Fixpoint down_values (n : nat) (s inc e : double) : list double :=
  match n with
  | O => []
  | S n' => if PrimFloat.leb e s then s :: down_values n' (PrimFloat.sub s inc) inc e else []
  end.

(** The magnitude of the step, as the loop driver computes it. *)
Definition step_magnitude (inc : double) : double :=
  if PrimFloat.ltb inc 0%float then PrimFloat.opp inc else inc.


(** The frame bookkeeping of the two runtime stacks. *)
Definition frames_of (s : EngineStack.t)
  : (Z * list Z) * (Z * list Z) :=
  ((FrameStack.m_frame_start (EngineStack.m_locals s),
    FrameStack.m_frames (EngineStack.m_locals s)),
   (FrameStack.m_frame_start (EngineStack.m_captures s),
    FrameStack.m_frames (EngineStack.m_captures s))).

Definition locals_size (en : Engine) : Z :=
  vsize (FrameStack.m_stack (EngineStack.m_locals (m_stack en))).
Definition captures_size (en : Engine) : Z :=
  vsize (FrameStack.m_stack (EngineStack.m_captures (m_stack en))).

End ReferenceSemantics.

Scheme Expr_mutind := Induction for Expr Sort Prop
  with Operand_mutind := Induction for Operand Sort Prop.

(** ** Building loop and conditional statements *)

(** [!e] for an [Expr]: the closure is empty. *)
Definition is_empty_expr (e : Expr) : bool :=
  match e with empty_expr => true | _ => false end.


(** [compile_if_statement]: the statement it appends. *)
Definition compile_if_statement `{External} (condition : Expr) (if_body else_body : nat)
  : outcome Statement :=
  assert (negb (is_empty_expr condition));;
  Ok (if_stmt condition if_body else_body).

(** ** Programs that never call [unique] *)

Fixpoint expr_unique_free (e : Expr) : bool :=
  match e with
  | unique_val_expr => false
  | prefix_closure _ rhs => expr_unique_free rhs
  | binary_closure_ee _ lhs rhs => expr_unique_free lhs && expr_unique_free rhs
  | binary_closure_ce _ _ rhs => expr_unique_free rhs
  | binary_closure_ec _ lhs _ => expr_unique_free lhs
  | conditional_closure l r t =>
      operand_unique_free l && operand_unique_free r && operand_unique_free t
  | _ => true
  end
with operand_unique_free (o : Operand) : bool :=
  match o with
  | Cnst _ => true
  | Deferred e => expr_unique_free e
  end.

Definition stmt_unique_free `{External} (stmt : Statement) : bool :=
  match stmt with
  | turtle_fn_stmt _ args => forallb expr_unique_free args
  | push_value_stmt _ e => expr_unique_free e
  | if_stmt condition _ _ => expr_unique_free condition
  | for_count_stmt start _ _ => expr_unique_free start
  | for_range_stmt start end_ _ _ => expr_unique_free start && expr_unique_free end_
  | for_step_stmt start step end_ _ _ =>
      expr_unique_free start && expr_unique_free step && expr_unique_free end_
  | _ => true
  end.

Definition chunks_unique_free `{External} (chunks : list Chunk) : Prop :=
  Forall (fun c => forallb stmt_unique_free (statements c) = true) chunks.

(** What no statement and no expression but [unique] writes: the program
    and the counter. *)
Definition program_and_counter `{External} (en : Engine) : list Chunk * Z :=
  (m_chunks en, m_next_unique_num en).

(** ** Concrete engines and programs *)

Definition empty_engine : Engine (H := recording_turtle) :=
  new_engine (H := recording_turtle) [] [].

(** An engine with 999,999 locals and one capture. *)
Definition nearly_full_engine : Engine (H := recording_turtle) :=
  set_stack
    (EngineStack.mk (FrameStack.mk (replicate (Z.to_nat 999999) 0%float) 0 [])
                    (FrameStack.mk [0%float] 0 []))
    empty_engine.

(** The program [for 1..5..10 { r 0 }]: chunk 1 is the builtin [r], chunk 2
    the main function, chunk 3 the loop body. *)
Definition for_1_5_10_program : list (Chunk (H := recording_turtle)) :=
  [ builtin_chunk (H := recording_turtle) "nop"%string 0;
    builtin_chunk (H := recording_turtle) "r"%string 1;
    {| type := function; info := (0, -1);
       statements :=
         [for_step_stmt (access_constant 1%float) (access_constant 5%float)
                        (access_constant 10%float) 3 false] |};
    {| type := local_block; info := (0, 0);
       statements :=
         [start_fn_call_stmt Local false false 1;
          push_constant_stmt Local 0%float;
          call_fn_stmt 1 (EngineStack.mkSize 1 0)] |} ].

(** The program [for 3..1 { r 10 }]. *)
Definition for_3_1_program : list (Chunk (H := recording_turtle)) :=
  [ builtin_chunk (H := recording_turtle) "nop"%string 0;
    builtin_chunk (H := recording_turtle) "r"%string 1;
    {| type := function; info := (0, -1);
       statements :=
         [for_range_stmt (access_constant 3%float) (access_constant 1%float) 3 false] |};
    {| type := local_block; info := (0, 0);
       statements :=
         [start_fn_call_stmt Local false false 1;
          push_constant_stmt Local 10%float;
          call_fn_stmt 1 (EngineStack.mkSize 1 0)] |} ].

(** The program [def f(n) { r n  if n { f (n-1) } }  f 3]: chunk 2 is the
    main function, chunk 3 is [f], chunk 4 the body of the [if]. *)
Definition self_recursion_program : list (Chunk (H := recording_turtle)) :=
  [ builtin_chunk (H := recording_turtle) "nop"%string 0;
    builtin_chunk (H := recording_turtle) "r"%string 1;
    {| type := function; info := (0, -1);
       statements :=
         [start_fn_call_stmt Local false false 3;
          push_constant_stmt Local 3%float;
          call_fn_stmt 3 (EngineStack.mkSize 1 0)] |};
    {| type := function; info := (1, -1);
       statements :=
         [start_fn_call_stmt Local false false 1;
          push_value_stmt Local (access_value Local 0);
          call_fn_stmt 1 (EngineStack.mkSize 1 0);
          if_stmt (access_value Local 0) 4 0] |};
    {| type := local_block; info := (0, 0);
       statements :=
         [start_fn_call_stmt Local true false 3;
          push_value_stmt Local (binary_closure_ec Bminus (access_value Local 0) 1%float);
          call_fn_stmt 3 (EngineStack.mkSize 1 0)] |} ].

(** The program [def outer(x) { def inner() { r x } inner }  outer 5]:
    chunk 2 is the main function, chunk 3 is [outer], chunk 4 is [inner],
    a closure over [x] whose closure offset is 0. *)
Definition closure_program : list (Chunk (H := recording_turtle)) :=
  [ builtin_chunk (H := recording_turtle) "nop"%string 0;
    builtin_chunk (H := recording_turtle) "r"%string 1;
    {| type := function; info := (0, -1);
       statements :=
         [start_fn_call_stmt Local false false 3;
          push_constant_stmt Local 5%float;
          call_fn_stmt 3 (EngineStack.mkSize 1 0)] |};
    {| type := function; info := (1, -1);
       statements :=
         [push_copy_stmt Capture Local 0 1;
          start_fn_call_stmt Local false false 4;
          call_fn_stmt 4 (EngineStack.mkSize 0 0)] |};
    {| type := function; info := (0, 0);
       statements :=
         [start_fn_call_stmt Local false false 1;
          push_value_stmt Local (access_value Capture 0);
          call_fn_stmt 1 (EngineStack.mkSize 1 0)] |} ].

(** The engine that [execute_main] leaves after [for 1..5..10 { r 0 }]. *)
Definition for_1_5_10_final : Engine (H := recording_turtle) :=
  Eval vm_compute in
    match execute_main (H := recording_turtle) 5 2 (new_engine for_1_5_10_program []) with
    | Ok en => en
    | Fail _ => empty_engine
    end.

(** ** TokenMap (TokenMap.h) *)

Module TokenMap.

Record TokenInfo : Type := mkInfo {
  token : Z;
  description : string;
  prefix_precedence : Z;
  postfix_precedence : Z;
  postfix_left_to_right : bool
}.

Definition TokenInfo_get_postfix_op_info (info : TokenInfo) : OpInfo.t :=
  OpInfo.mk (token info) (postfix_precedence info) (postfix_left_to_right info).

Definition TokenInfo_get_prefix_op_info (info : TokenInfo) : OpInfo.t :=
  OpInfo.mk (token info) (prefix_precedence info) false.

(** [m_keywords] maps a spelling to a pointer to an entry of
    [m_builtin_tokens]; entries are never erased, and the pointer is the key
    of the entry it points to. *)
Record t : Type := mk {
  m_builtin_tokens : gmap Z TokenInfo;
  m_keywords : gmap string Z
}.

Definition empty : t := {| m_builtin_tokens := ∅; m_keywords := ∅ |}.

Definition get_token_info (tm : t) (tok : Z) : option TokenInfo :=
  m_builtin_tokens tm !! tok.

(** [m.emplace(key, value)]: inserts when the key is absent, and reports
    whether it did. *)
Definition emplace {K V} `{Countable K} (key : K) (value : V) (m : gmap K V)
  : bool * gmap K V :=
  match m !! key with
  | None => (true, <[key := value]> m)
  | Some _ => (false, m)
  end.

Definition add_base_token (tok : Z) (descr : string) (tm : t) : bool * t :=
  let res := emplace tok (mkInfo tok descr 0 0 false) (m_builtin_tokens tm) in
  (fst res, {| m_builtin_tokens := snd res; m_keywords := m_keywords tm |}).

Definition add_keyword (tok : Z) (text : string) (tm : t) : bool * t :=
  let res := emplace tok (mkInfo tok text 0 0 false) (m_builtin_tokens tm) in
  if fst res then
    let res2 := emplace text tok (m_keywords tm) in
    (fst res2, {| m_builtin_tokens := snd res; m_keywords := snd res2 |})
  else (false, {| m_builtin_tokens := snd res; m_keywords := m_keywords tm |}).

Definition add_operator (tok : Z) (text : string) (prefix_prec postfix_prec : Z)
    (postfix_ltr : bool) (tm : t) : bool * t :=
  let res := emplace tok (mkInfo tok text prefix_prec postfix_prec postfix_ltr)
                     (m_builtin_tokens tm) in
  (fst res, {| m_builtin_tokens := snd res; m_keywords := m_keywords tm |}).

Definition translate_keyword (tm : t) (text : string) : Z :=
  match m_keywords tm !! text with
  | Some ptr =>
      match m_builtin_tokens tm !! ptr with
      | Some info => token info
      | None => Tokens.tk_NONE          (* no pointer dangles: see above *)
      end
  | None => Tokens.tk_NONE
  end.

Definition get_postfix_op_info (tm : t) (op_token : Z) : OpInfo.t :=
  match get_token_info tm op_token with
  | Some info => TokenInfo_get_postfix_op_info info
  | None => OpInfo.mk op_token 0 false
  end.

Definition get_prefix_op_info (tm : t) (op_token : Z) : OpInfo.t :=
  match get_token_info tm op_token with
  | Some info => TokenInfo_get_prefix_op_info info
  | None => OpInfo.mk op_token 0 false
  end.

End TokenMap.

(** The registrations of the [Lexer] constructor (Tokenizer.cpp), in its
    order, with the result of each. *)
Definition Lexer_registrations (tm : TokenMap.t) : list bool * TokenMap.t :=
  let step (acc : list bool * TokenMap.t) (f : TokenMap.t -> bool * TokenMap.t) :=
    let r := f (snd acc) in (fst acc ++ [fst r], snd r) in
  foldl step ([], tm)
    [ TokenMap.add_keyword Tokens.tk_import "import";
      TokenMap.add_keyword Tokens.tk_def "def";
      TokenMap.add_keyword Tokens.tk_if "if";
      TokenMap.add_keyword Tokens.tk_else "else";
      TokenMap.add_keyword Tokens.tk_for "for";
      TokenMap.add_keyword Tokens.tk_turtle "turtle";
      TokenMap.add_keyword Tokens.tk_unique "unique";
      TokenMap.add_keyword Tokens.tk_breakpoint "breakpoint";
      TokenMap.add_keyword Tokens.tk_eq_arrow "=>";
      TokenMap.add_operator Tokens.tk_pow "**" 0 2 false;
      TokenMap.add_operator Tokens.tk_star "*" 0 5 true;
      TokenMap.add_operator Tokens.tk_slash "/" 0 5 true;
      TokenMap.add_operator Tokens.tk_plus "+" 3 6 true;
      TokenMap.add_operator Tokens.tk_minus "-" 3 6 true;
      TokenMap.add_operator Tokens.tk_bang "!" 3 0 true;
      TokenMap.add_operator Tokens.tk_gt ">" 0 9 true;
      TokenMap.add_operator Tokens.tk_lt "<" 0 9 true;
      TokenMap.add_operator Tokens.tk_ge ">=" 0 9 true;
      TokenMap.add_operator Tokens.tk_le "<=" 0 9 true;
      TokenMap.add_operator Tokens.tk_equality "==" 0 10 true;
      TokenMap.add_operator Tokens.tk_inequality "!=" 0 10 true;
      TokenMap.add_operator Tokens.tk_and "&&" 0 14 true;
      TokenMap.add_operator Tokens.tk_or "||" 0 15 true;
      TokenMap.add_operator Tokens.tk_question "?" 0 16 false ].

(** ** FunctionSignature and its TypeChecker (Signature.h) *)

Module FunctionSignature.

(** [m_signature]. *)
Definition t : Type := string.

Definition add_value_param (s : t) : t := (s ++ "v")%string.
Definition start_lambda_param (s : t) : t := (s ++ "(")%string.
Definition finish_lambda_param (s : t) : t := (s ++ ")")%string.
Definition add_signature (other : t) (s : t) : t := (s ++ other)%string.

(** The checker's pointer [p] is the C string it points to, that is, the
    characters of the signature from [p] up to the terminator:
    [EmptyString] stands for [*p == 0].  (A signature holds no NUL: the class
    only ever appends ['v'], ['('] and [')'].) *)
Record TypeChecker : Type := mkChecker {
  p : string;
  m_paren_depth : Z
}.

Definition get_type_checker (s : t) : TypeChecker :=
  {| p := s; m_paren_depth := 0 |}.

(** [next()] on a checker whose [*p] is the character [c], followed by
    [rest]. *)
Definition next (c : Ascii.ascii) (rest : string) (depth : Z) : outcome TypeChecker :=
  d ← (if Ascii.eqb c "("%char then to_int (depth + 1)
       else if Ascii.eqb c ")"%char then to_int (depth - 1)
       else Ok depth);
  Ok {| p := rest; m_paren_depth := d |}.

Definition more (tc : TypeChecker) : bool :=
  match p tc with EmptyString => false | String _ _ => true end.

Definition consume (ch : Ascii.ascii) (tc : TypeChecker) : outcome (bool * TypeChecker) :=
  assert (negb (Ascii.eqb ch Ascii.zero));;
  match p tc with
  | String c rest =>
      if Ascii.eqb c ch
      then tc' ← next c rest (m_paren_depth tc); Ok (true, tc')
      else Ok (false, tc)
  | EmptyString => Ok (false, tc)
  end.

Definition consume_value (tc : TypeChecker) : outcome (bool * TypeChecker) :=
  consume "v"%char tc.

Definition consume_lambda_start (tc : TypeChecker) : outcome (bool * TypeChecker) :=
  consume "("%char tc.

(** [consume_same(other)]: the result, this checker, the other checker. *)
Definition consume_same (tc other : TypeChecker)
  : outcome (bool * TypeChecker * TypeChecker) :=
  match p tc, p other with
  | String c rest, String c' rest' =>
      if Ascii.eqb c c'
      then tc1 ← next c rest (m_paren_depth tc);
           other1 ← next c' rest' (m_paren_depth other);
           Ok (true, tc1, other1)
      else Ok (false, tc, other)
  | _, _ => Ok (false, tc, other)
  end.

(** [while(consume_same(other_checker)) ;] by recursion on what is left of
    the other signature. *)
Fixpoint consume_same_loop (other_p : string) (other_depth : Z) (tc : TypeChecker)
  : outcome (TypeChecker * TypeChecker) :=
  match other_p with
  | EmptyString => Ok (tc, {| p := other_p; m_paren_depth := other_depth |})
  | String c' rest' =>
      match p tc with
      | String c rest =>
          if Ascii.eqb c c'
          then tc1 ← next c rest (m_paren_depth tc);
               other1 ← next c' rest' other_depth;
               consume_same_loop rest' (m_paren_depth other1) tc1
          else Ok (tc, {| p := other_p; m_paren_depth := other_depth |})
      | EmptyString => Ok (tc, {| p := other_p; m_paren_depth := other_depth |})
      end
  end.

Definition consume_lambda_sig (sig : t) (tc : TypeChecker)
  : outcome (bool * TypeChecker) :=
  '(tc1, other1) ← consume_same_loop sig 0 tc;
  assert (more tc1);;
  Ok (negb (more other1), tc1).

(** [while(more() && m_paren_depth > 0) next();] *)
Fixpoint consume_lambda_end_loop (rest : string) (depth : Z) : outcome TypeChecker :=
  match rest with
  | EmptyString => Ok {| p := rest; m_paren_depth := depth |}
  | String c rest' =>
      if 0 <? depth
      then tc1 ← next c rest' depth;
           consume_lambda_end_loop rest' (m_paren_depth tc1)
      else Ok {| p := rest; m_paren_depth := depth |}
  end.

Definition consume_lambda_end (tc : TypeChecker) : outcome (bool * TypeChecker) :=
  assert (0 <? m_paren_depth tc);;
  tc1 ← consume_lambda_end_loop (p tc) (m_paren_depth tc);
  Ok (m_paren_depth tc1 =? 0, tc1).

End FunctionSignature.

(** The parentheses of a signature text: the change of the nesting depth
    over [s], and whether the depth [d + 1] first returns to [d] exactly at
    the end of [s ++ ")"], that is, [s] is balanced. *)
Fixpoint paren_net (s : string) : Z :=
  match s with
  | EmptyString => 0
  | String c rest =>
      (if Ascii.eqb c "("%char then 1 else if Ascii.eqb c ")"%char then -1 else 0)
      + paren_net rest
  end.

Fixpoint balanced_from (depth : Z) (s : string) : bool :=
  match s with
  | EmptyString => depth =? 0
  | String c rest =>
      if Ascii.eqb c "("%char then balanced_from (depth + 1) rest
      else if Ascii.eqb c ")"%char then (0 <? depth) && balanced_from (depth - 1) rest
      else balanced_from depth rest
  end.

(** ** Name definitions (Names.h) and capture lists (Parser.cpp) *)

Module NameType.
Inductive t : Type := Value | Function | Lambda.
End NameType.

(** The class hierarchy under [NameDefinition] as one record: [m_name_type]
    tells the dynamic class ([Value], [Function] or [LambdaParameter]), and
    the members of the derived classes follow those of the base.  A
    [NameDefinition *] is a key of the heap of definitions. *)
Record NameDefinition : Type := mkName {
  m_name : string;
  m_name_type : NameType.t;
  m_context_depth : Z;
  m_stack_offset : Z;
  m_is_uninitialized_value : bool;
  m_is_constexpr : bool;             (* Value *)
  m_constexpr_value : double;        (* Value *)
  m_chunk_index : nat;               (* FunctionBase *)
  m_signature : FunctionSignature.t; (* FunctionBase *)
  m_param_names : list string;       (* FunctionBase *)
  m_captures : list nat              (* Function: std::vector<NameDefinition *> *)
}.

Definition NameHeap : Type := gmap nat NameDefinition.

(** Dereferencing a pointer that the parser asserts or assumes valid. *)
Definition deref_name (heap : NameHeap) (ptr : nat) : outcome NameDefinition :=
  match heap !! ptr with
  | Some d => Ok d
  | None => Fail AssertFailed
  end.

(** The virtual [get_value_size]. *)
Definition get_value_size (d : NameDefinition) : outcome Z :=
  match m_name_type d with
  | NameType.Value => assert (negb (m_is_constexpr d));; Ok 1
  | NameType.Function | NameType.Lambda => Ok 2
  end.

Definition set_captures (cs : list nat) (d : NameDefinition) : NameDefinition :=
  {| m_name := m_name d; m_name_type := m_name_type d;
     m_context_depth := m_context_depth d; m_stack_offset := m_stack_offset d;
     m_is_uninitialized_value := m_is_uninitialized_value d;
     m_is_constexpr := m_is_constexpr d; m_constexpr_value := m_constexpr_value d;
     m_chunk_index := m_chunk_index d; m_signature := m_signature d;
     m_param_names := m_param_names d; m_captures := cs |}.

(** The loop of [Parser::add_capture] over [fndef->captures()]: the offset
    reached, and whether [def] was found. *)
Fixpoint add_capture_loop (heap : NameHeap) (captures : list nat) (def : nat)
    (offset : Z) : outcome (Z * bool) :=
  match captures with
  | [] => Ok (offset, false)
  | capture :: rest =>
      if Nat.eqb def capture then Ok (offset, true)
      else
        c ← deref_name heap capture;
        size ← get_value_size c;
        offset' ← to_int (offset + size);
        add_capture_loop heap rest def offset'
  end.

(** [Parser::add_capture(fndef, def)]. *)
Definition add_capture (fndef def : nat) (heap : NameHeap) : outcome (Z * NameHeap) :=
  d ← deref_name heap def;
  size ← get_value_size d;
  assert (negb (size =? 0));;
  f ← deref_name heap fndef;
  match add_capture_loop heap (m_captures f) def 0 with
  | Ok (offset, found) =>
      if found then Ok (offset, heap)
      else Ok (offset, <[fndef := set_captures (m_captures f ++ [def]) f]> heap)
  | Fail e => Fail e
  end.

(** ** LexicalContextStack: module export and import (LexicalContext.h) *)

Module LexicalContext.
Section LexicalContext.
Context {NamedefType Location : Type}.

Definition extract_innermost_context
    (st : LexicalContextStack.t (NamedefType := NamedefType) (Location := Location))
  : outcome (gmap string NamedefType * LexicalContextStack.t) :=
  match st with
  | front :: rest => Ok (LexicalContextStack.context front, rest)
  | [] => Fail AssertFailed      (* front() of an empty list is undefined *)
  end.

(** The loop of [import_names] over the entries of [other], which is given
    by its in-order traversal. *)
Fixpoint import_loop (other : list (string * NamedefType))
    (context : gmap string NamedefType) (duplicates : list string)
  : gmap string NamedefType * list string :=
  match other with
  | [] => (context, duplicates)
  | (name, def) :: rest =>
      match context !! name with
      | None => import_loop rest (<[name := def]> context) duplicates
      | Some _ => import_loop rest context (duplicates ++ [name])
      end
  end.

Definition import_names (other : list (string * NamedefType))
    (st : LexicalContextStack.t (NamedefType := NamedefType) (Location := Location))
  : outcome (list string * LexicalContextStack.t) :=
  assert (negb (bool_decide (st = [])));;
  match st with
  | [] => Fail AssertFailed
  | front :: rest =>
      let res := import_loop other (LexicalContextStack.context front) [] in
      Ok (snd res,
          LexicalContextStack.mkEntry (LexicalContextStack.start front) (fst res) :: rest)
  end.

End LexicalContext.
End LexicalContext.

(** No keyword points outside the token table. *)
Definition keywords_valid (tm : TokenMap.t) : Prop :=
  forall text ptr, TokenMap.m_keywords tm !! text = Some ptr ->
    exists info, TokenMap.m_builtin_tokens tm !! ptr = Some info
                 /\ TokenMap.token info = ptr.

(** The size of the definition behind a pointer, and what [add_capture]
    establishes: [def] is in the capture list of [fndef], at [offset]. *)
Definition value_size_at (heap : NameHeap) (ptr : nat) : outcome Z :=
  d ← deref_name heap ptr; get_value_size d.

Definition captured_at (heap : NameHeap) (fndef def : nat) (offset : Z) : Prop :=
  exists f size,
    heap !! fndef = Some f
    /\ value_size_at heap def = Ok size
    /\ add_capture_loop heap (m_captures f) def 0 = Ok (offset, true).

(** A heap for examples: the function [f] at 0, the values [a], [b] at 1 and
    2, and the lambda parameter [g] at 3. *)
Definition example_name (name : string) (type : NameType.t) : NameDefinition :=
  {| m_name := name; m_name_type := type; m_context_depth := 1;
     m_stack_offset := 0; m_is_uninitialized_value := false;
     m_is_constexpr := false; m_constexpr_value := 0%float;
     m_chunk_index := 0; m_signature := ""; m_param_names := [];
     m_captures := [] |}.

Definition example_heap : NameHeap :=
  <[0%nat := example_name "f" NameType.Function]>
    (<[1%nat := example_name "a" NameType.Value]>
       (<[2%nat := example_name "b" NameType.Value]>
          (<[3%nat := example_name "g" NameType.Lambda]> ∅))).

Definition heap_of (r : outcome (Z * NameHeap)) : NameHeap :=
  match r with
  | Ok (_, heap) => heap
  | Fail _ => ∅
  end.

(** The values pushed one after the other. *)
Definition push_all {T : Type} (vals : list T) (fs : FrameStack.t T) : FrameStack.t T :=
  foldl (fun s v => FrameStack.push v s) fs vals.

(** The pointer [p] seen from one context further in. *)
Definition outer_ptr (p : LexicalContextStack.NamedefPtr) : LexicalContextStack.NamedefPtr :=
  {| LexicalContextStack.ptr_context := S (LexicalContextStack.ptr_context p);
     LexicalContextStack.ptr_name := LexicalContextStack.ptr_name p |}.



(** What execution can change of an engine besides its stacks and its
    turtle: nothing of the program nor of [m_is_executing]; the pen-height
    flag can only be raised, the [unique] counter only advance. *)
Definition evolves `{External} (en en' : Engine) : Prop :=
  m_chunks en' = m_chunks en
  /\ m_is_executing en' = m_is_executing en
  /\ (m_pen_height_became_negative en = true ->
      m_pen_height_became_negative en' = true)
  /\ m_next_unique_num en <= m_next_unique_num en'.

(** The engine after [vals] were pushed, one after the other, on the stack
    of the domain [dest]. *)
Definition pushed `{External} (dest : ValueDomain) (vals : list double) (en : Engine)
  : Engine :=
  set_stack
    (match dest with
     | Local =>
         EngineStack.mk (push_all vals (EngineStack.m_locals (m_stack en)))
                        (EngineStack.m_captures (m_stack en))
     | Capture =>
         EngineStack.mk (EngineStack.m_locals (m_stack en))
                        (push_all vals (EngineStack.m_captures (m_stack en)))
     | Global => m_stack en
     end) en.

(** The [size] entries of the current Locals frame from [offset] on. *)
Definition frame_slice `{External} (offset size : Z) (en : Engine) : list double :=
  take (Z.to_nat size)
    (drop (Z.to_nat (FrameStack.m_frame_start (EngineStack.m_locals (m_stack en)) + offset))
          (FrameStack.m_stack (EngineStack.m_locals (m_stack en)))).

(** The pen-height check that follows every statement. *)
Definition note_pen_height `{External} (en : Engine) : Engine :=
  if negb (m_pen_height_became_negative en)
  then if get_pen_height (m_turtle en) <? 0
       then set_pen_height_became_negative true en
       else en
  else en.

(** ** ExecutionEngine (Engine.cpp): building chunks while parsing

    The members the engine uses while the parser drives it.  [m_stack] is
    the execution stack, used during parsing to calculate stack offsets: the
    parser pushes a placeholder for every value the program will push.  The
    debugger is absent, as for the executor. *)

Module Builder.
Section Builder.
Context `{External}.

Record t : Type := mk {
  m_current_chunk : nat;              (* size_t, [no_chunk] at first *)
  m_chunk_index_stack : list nat;     (* back of the vector last *)
  m_parser_value_for_push : double;
  m_chunks : list Chunk;
  m_stack : EngineStack.t;
  m_current_closure_start_offset : Z;
  m_is_executing : bool
}.

Definition set_stack (s : EngineStack.t) (b : t) : t :=
  {| m_current_chunk := m_current_chunk b;
     m_chunk_index_stack := m_chunk_index_stack b;
     m_parser_value_for_push := m_parser_value_for_push b;
     m_chunks := m_chunks b;
     m_stack := s;
     m_current_closure_start_offset := m_current_closure_start_offset b;
     m_is_executing := m_is_executing b |}.

Definition set_chunks (chunks : list Chunk) (b : t) : t :=
  {| m_current_chunk := m_current_chunk b;
     m_chunk_index_stack := m_chunk_index_stack b;
     m_parser_value_for_push := m_parser_value_for_push b;
     m_chunks := chunks;
     m_stack := m_stack b;
     m_current_closure_start_offset := m_current_closure_start_offset b;
     m_is_executing := m_is_executing b |}.

(** Writing through a [Chunk &]. *)
Definition set_chunk (index : nat) (c : Chunk) (b : t) : t :=
  set_chunks (<[index := c]> (m_chunks b)) b.

Definition set_info (i : Z * Z) (c : Chunk) : Chunk :=
  {| type := type c; info := i; statements := statements c |}.

Definition set_statements (stmts : list Statement) (c : Chunk) : Chunk :=
  {| type := type c; info := info c; statements := stmts |}.

(** A freshly constructed engine. *)
Definition new_builder : t :=
  {| m_current_chunk := no_chunk;
     m_chunk_index_stack := [];
     m_parser_value_for_push := 0%float;
     m_chunks := [];
     m_stack := EngineStack.mk (FrameStack.mk [] 0 []) (FrameStack.mk [] 0 []);
     m_current_closure_start_offset := 0;
     m_is_executing := false |}.

(** [Size::operator-], in [int]. *)
Definition Size_sub (a b : EngineStack.Size) : outcome EngineStack.Size :=
  l ← to_int (EngineStack.locals a - EngineStack.locals b);
  c ← to_int (EngineStack.captures a - EngineStack.captures b);
  Ok {| EngineStack.locals := l; EngineStack.captures := c |}.

(** [get_chunk(index)]. *)
Definition get_chunk_at (index : nat) (b : t) : outcome Chunk :=
  assert (Z.of_nat index <? vsize (m_chunks b));;
  match m_chunks b !! index with
  | Some c => Ok c
  | None => Fail AssertFailed
  end.

(** [get_chunk()]: the current chunk. *)
Definition get_chunk (b : t) : outcome Chunk :=
  assert (negb (m_is_executing b));;
  get_chunk_at (m_current_chunk b) b.

Definition add_statement (stmt : Statement) (b : t) : outcome t :=
  c ← get_chunk b;
  Ok (set_chunk (m_current_chunk b) (set_statements (statements c ++ [stmt]) c) b).

Definition push_chunk (type : ChunkType) (b : t) : outcome (nat * t) :=
  assert (negb (m_is_executing b));;
  let index := length (m_chunks b) in
  i ← match type with
      | function | builtin_function => Ok (0, -1)          (* info.f.init() *)
      | local_block =>
          size ← EngineStack.get_frame_size (m_stack b);   (* info.b.set_unwind_size *)
          Ok (EngineStack.locals size, EngineStack.captures size)
      end;
  Ok (index,
      {| m_current_chunk := index;
         m_chunk_index_stack := m_chunk_index_stack b ++ [m_current_chunk b];
         m_parser_value_for_push := m_parser_value_for_push b;
         m_chunks := m_chunks b ++ [{| type := type; info := i; statements := [] |}];
         m_stack := m_stack b;
         m_current_closure_start_offset := m_current_closure_start_offset b;
         m_is_executing := m_is_executing b |}).

Definition pop_chunk (b : t) : outcome t :=
  assert (negb (m_is_executing b));;
  c ← get_chunk b;
  b1 ← (if negb (is_call_frame c)
        then
          frame_size ← EngineStack.get_frame_size (m_stack b);
          size ← Size_sub frame_size (b_get_unwind_size c);
          let c' := set_info (EngineStack.locals size, EngineStack.captures size) c in
          s ← EngineStack.pop size (m_stack b);           (* parser support *)
          Ok (set_stack s (set_chunk (m_current_chunk b) c' b))
        else Ok b);
  match last (m_chunk_index_stack b1) with
  | Some back =>
      Ok {| m_current_chunk := back;
            m_chunk_index_stack := removelast (m_chunk_index_stack b1);
            m_parser_value_for_push := m_parser_value_for_push b1;
            m_chunks := m_chunks b1;
            m_stack := m_stack b1;
            m_current_closure_start_offset := m_current_closure_start_offset b1;
            m_is_executing := m_is_executing b1 |}
  | None => Fail AssertFailed        (* back() of an empty vector is undefined *)
  end.

Definition push_builtin_fn_chunk (params_size : Z) (b : t) : outcome (nat * t) :=
  '(index, b1) ← push_chunk builtin_function b;
  c ← get_chunk b1;
  Ok (index, set_chunk (m_current_chunk b1) (set_info (params_size, snd (info c)) c) b1).

Definition pop_builtin_fn_chunk (b : t) : outcome t := pop_chunk b.

Definition push_call_frame_chunk (b : t) : outcome (nat * t) :=
  s ← EngineStack.push_frame (m_stack b);
  push_chunk function (set_stack s b).

Definition pop_call_frame_chunk (b : t) : outcome t :=
  b1 ← pop_chunk b;
  '(_, s) ← EngineStack.pop_frame (m_stack b1);
  Ok (set_stack s b1).

Definition push_local_block_chunk (b : t) : outcome (nat * t) := push_chunk local_block b.

Definition pop_local_block_chunk (b : t) : outcome t := pop_chunk b.

Definition get_closure_capture_offset (b : t) : outcome Z :=
  size ← EngineStack.get_frame_size (m_stack b);
  to_int (EngineStack.captures size - m_current_closure_start_offset b).

(** [push_for_parser(dest, count)].  [while(count--)] with a negative
    [count] runs into the overflow of [int]. *)
Definition push_for_parser (dest : ValueDomain) (count : Z) (b : t) : outcome (Z * t) :=
  let val := m_parser_value_for_push b in
  match dest with
  | Local =>
      size ← EngineStack.get_frame_size (m_stack b);
      if count <? 0 then Fail NarrowingOverflow
      else Ok (EngineStack.locals size,
               set_stack (Nat.iter (Z.to_nat count) (EngineStack.push val) (m_stack b)) b)
  | Capture =>
      offset ← get_closure_capture_offset b;
      if count <? 0 then Fail NarrowingOverflow
      else Ok (offset,
               set_stack (Nat.iter (Z.to_nat count) (EngineStack.push_capture val)
                            (m_stack b)) b)
  | Global => Fail AssertFailed
  end.

Definition unwind_stack_for_parser (args_size : EngineStack.Size) (b : t) : outcome t :=
  s ← EngineStack.pop args_size (m_stack b);
  Ok (set_stack s b).

Definition compile_add_param (size : Z) (b : t) : outcome (Z * t) :=
  c ← get_chunk b;
  assert (is_call_frame c);;
  '(offset, b1) ← push_for_parser Local size b;
  params_size ← to_int (f_params_size c + size);
  Ok (offset,
      set_chunk (m_current_chunk b1) (set_info (params_size, snd (info c)) c) b1).

Definition create_closure (fn_index : nat) (b : t) : outcome t :=
  c ← get_chunk_at fn_index b;
  assert (is_call_frame c);;
  size ← EngineStack.get_frame_size (m_stack b);
  let closure_offset := EngineStack.captures size in
  Ok {| m_current_chunk := m_current_chunk b;
        m_chunk_index_stack := m_chunk_index_stack b;
        m_parser_value_for_push := m_parser_value_for_push b;
        m_chunks := <[fn_index := set_info (fst (info c), closure_offset) c]> (m_chunks b);
        m_stack := m_stack b;
        m_current_closure_start_offset := closure_offset;
        m_is_executing := m_is_executing b |}.

Definition compile_push_value (dest : ValueDomain) (e : Expr) (b : t) : outcome (Z * t) :=
  '(offset, b1) ← push_for_parser dest 1 b;
  b2 ← match dest with
       | Local | Capture => add_statement (push_value_stmt dest e) b1
       | Global => Fail AssertFailed
       end;
  Ok (offset, b2).

Definition compile_push_constant (dest : ValueDomain) (val : double) (b : t)
  : outcome (Z * t) :=
  '(offset, b1) ← push_for_parser dest 1 b;
  b2 ← match dest with
       | Local | Capture => add_statement (push_constant_stmt dest val) b1
       | Global => Fail AssertFailed
       end;
  Ok (offset, b2).

Definition compile_push_copy (dest_domain source_domain : ValueDomain) (offset size : Z)
    (b : t) : outcome (Z * t) :=
  assert (0 <? size);;
  '(offset_of_copy, b1) ← push_for_parser dest_domain size b;
  b2 ← match dest_domain with
       | Local | Capture =>
           add_statement (push_copy_stmt dest_domain source_domain offset size) b1
       | Global => Fail AssertFailed
       end;
  Ok (offset_of_copy, b2).

Definition compile_push_lambda (dest : ValueDomain) (fn_index : nat)
    (is_self_recursion : bool) (b : t) : outcome (Z * t) :=
  '(offset, b1) ← push_for_parser dest 2 b;
  b2 ← match dest with
       | Local | Capture =>
           add_statement (start_fn_call_stmt dest is_self_recursion true fn_index) b1
       | Global => Fail AssertFailed
       end;
  Ok (offset, b2).

Definition compile_named_loop_var (b : t) : outcome (Z * t) :=
  push_for_parser Local 1 b.

Definition compile_start_fn_call (fn_index : nat) (is_self_recursion : bool) (b : t)
  : outcome t :=
  add_statement (start_fn_call_stmt Local is_self_recursion false fn_index) b.

Definition compile_call_fn (fn_index : nat) (args_size : EngineStack.Size) (b : t)
  : outcome t :=
  b1 ← unwind_stack_for_parser args_size b;
  add_statement (call_fn_stmt fn_index args_size) b1.

Definition compile_start_lambda_call (source : ValueDomain) (offset : Z) (b : t)
  : outcome t :=
  match source with
  | Local | Capture => add_statement (start_lambda_call_stmt source offset) b
  | Global => Fail AssertFailed
  end.

Definition compile_call_lambda_fn (source : ValueDomain) (offset : Z)
    (args_size : EngineStack.Size) (b : t) : outcome t :=
  b1 ← unwind_stack_for_parser args_size b;
  match source with
  | Local | Capture => add_statement (call_lambda_fn_stmt source offset args_size) b1
  | Global => Fail AssertFailed
  end.

Definition compile_breakpoint (b : t) : outcome t := add_statement breakpoint_stmt b.

(** [setup_turtle_fn(fn, args...)]. *)
Definition setup_turtle_fn (fn : TurtleFn) (args : list Expr) (b : t) : outcome t :=
  add_statement (turtle_fn_stmt fn args) b.

(** The engine calls of [Parser::add_builtin_cmd] for a turtle function
    with [nparams] parameter names. *)
Definition add_builtin_cmd (fn : TurtleFn) (nparams : nat) (b : t) : outcome (nat * t) :=
  '(index, b1) ← push_builtin_fn_chunk (Z.of_nat nparams) b;
  b2 ← setup_turtle_fn fn
         (map (fun i => access_value Local (Z.of_nat i)) (seq 0 nparams)) b1;
  b3 ← pop_builtin_fn_chunk b2;
  Ok (index, b3).

(** [compile_add_param] for each size of [sizes], in order: the offsets. *)
Fixpoint add_params (sizes : list Z) (b : t) : outcome (list Z * t) :=
  match sizes with
  | [] => Ok ([], b)
  | size :: rest =>
      '(offset, b1) ← compile_add_param size b;
      '(offsets, b2) ← add_params rest b1;
      Ok (offset :: offsets, b2)
  end.

End Builder.
End Builder.

(** The sums of the proper prefixes of [sizes], from [from] on. *)
Fixpoint prefix_sums (from : Z) (sizes : list Z) : list Z :=
  match sizes with
  | [] => []
  | size :: rest => from :: prefix_sums (from + size) rest
  end.

Definition sum_sizes (sizes : list Z) : Z := fold_right Z.add 0 sizes.

(** The builder in the middle of a function's parameter list: the call
    frame chunk pushed from [b0], with [n] parameter slots added so far. *)
Definition after_params `{External} (b0 : Builder.t) (n : Z) : Builder.t :=
  let locals := EngineStack.m_locals (Builder.m_stack b0) in
  let captures := EngineStack.m_captures (Builder.m_stack b0) in
  {| Builder.m_current_chunk := length (Builder.m_chunks b0);
     Builder.m_chunk_index_stack :=
       Builder.m_chunk_index_stack b0 ++ [Builder.m_current_chunk b0];
     Builder.m_parser_value_for_push := Builder.m_parser_value_for_push b0;
     Builder.m_chunks :=
       Builder.m_chunks b0 ++ [{| type := function; info := (n, -1); statements := [] |}];
     Builder.m_stack :=
       EngineStack.mk
         (FrameStack.mk
            (FrameStack.m_stack locals
             ++ replicate (Z.to_nat n) (Builder.m_parser_value_for_push b0))
            (vsize (FrameStack.m_stack locals))
            (FrameStack.m_frames locals ++ [FrameStack.m_frame_start locals]))
         (FrameStack.mk
            (FrameStack.m_stack captures)
            (vsize (FrameStack.m_stack captures))
            (FrameStack.m_frames captures ++ [FrameStack.m_frame_start captures]));
     Builder.m_current_closure_start_offset := Builder.m_current_closure_start_offset b0;
     Builder.m_is_executing := false |}.

(** The builder a compile function returns, for examples. *)
Definition builder_of `{External} {A} (r : outcome (A * Builder.t)) : Builder.t :=
  match r with
  | Ok (_, b) => b
  | Fail _ => Builder.new_builder
  end.

(** ** ParserBase: the Pratt parser (ParserBase.h)

    [ParserBase] is generic in the parser state, in the AST node type and in
    the two virtual functions a parser overrides; they are the parameters
    of this section.  [token] and [consume] are the token cursor,
    [get_postfix_op_info] and [get_prefix_op_info] the [TokenInterface]. *)

Module ParserBase.
Section ParserBase.
Context {State AstNodeType : Type}.
Variable token : State -> Z.
Variable consume : State -> State.
Variable get_postfix_op_info : Z -> OpInfo.t.
Variable get_prefix_op_info : Z -> OpInfo.t.
(** [explicit operator bool] of the AST node type. *)
Variable valid : AstNodeType -> bool.
Variable parse_prefix_expression : State -> outcome (AstNodeType * State).
Variable parse_postfix_op_expression :
  AstNodeType -> Z -> Z -> State -> outcome (AstNodeType * State).

Definition consume_postfix_op (outer_precedence : Z) (st : State) : OpInfo.t * State :=
  let info := get_postfix_op_info (token st) in
  if OpInfo.to_bool info
  then if OpInfo.postfix_binds_more_tightly info outer_precedence
       then (info, consume st)
       else (OpInfo.default, st)
  else (OpInfo.default, st).

Definition consume_prefix_op (st : State) : OpInfo.t * State :=
  let info := get_prefix_op_info (token st) in
  if OpInfo.to_bool info then (info, consume st) else (OpInfo.default, st).

(** [while(auto info = consume_postfix_op(outer_precedence)) expr = ...],
    for at most [fuel] rounds. *)
Fixpoint postfix_loop (fuel : nat) (outer_precedence : Z) (expr : AstNodeType)
    (st : State) : outcome (AstNodeType * State) :=
  let '(info, st1) := consume_postfix_op outer_precedence st in
  if OpInfo.to_bool info
  then match fuel with
       | O => Fail OutOfFuel
       | S fuel' =>
           '(expr', st2) ← parse_postfix_op_expression expr (OpInfo.op info)
                             (OpInfo.precedence info) st1;
           postfix_loop fuel' outer_precedence expr' st2
       end
  else Ok (expr, st1).

Definition parse_expression (fuel : nat) (outer_precedence : Z) (st : State)
  : outcome (AstNodeType * State) :=
  '(expr, st1) ← parse_prefix_expression st;
  if valid expr then postfix_loop fuel outer_precedence expr st1 else Ok (expr, st1).

End ParserBase.
End ParserBase.

(** The postfix hook restricted to what the Pratt loop may pass to it. *)
Definition only_tighter {State AstNodeType : Type} (outer_precedence : Z)
    (hook : AstNodeType -> Z -> Z -> State -> outcome (AstNodeType * State))
    (lhs : AstNodeType) (op precedence : Z) (st : State)
  : outcome (AstNodeType * State) :=
  if negb (precedence =? 0) && (precedence <=? outer_precedence)
  then hook lhs op precedence st
  else Fail AssertFailed.

(** A toy parser for examples: the state is the list of the remaining token
    codes, a positive code below 256 that is no operator is an operand, and
    the AST is the postfix notation of the expression.  Its postfix hook
    takes one operand as the right-hand side. *)
Definition toy_token (st : list Z) : Z := hd 0 st.

Definition toy_prefix (st : list Z) : outcome (list Z * list Z) :=
  match st with
  | t :: rest => Ok ([t], rest)
  | [] => Ok ([], [])
  end.

Definition toy_postfix (lhs : list Z) (op precedence : Z) (st : list Z)
  : outcome (list Z * list Z) :=
  match st with
  | t :: rest => Ok (lhs ++ [t; op], rest)
  | [] => Ok ([], [])
  end.

Definition toy_valid (e : list Z) : bool := negb (bool_decide (e = [])).

(** ** Creating closure objects (Parser::create_closure_object)

    After [create_closure], the parser pushes the captures of the function
    in order, each through [compile_push_object(def, Capture)], which ends
    in [compile_push_lambda] for a function that is no capture itself and
    in [compile_push_copy] otherwise. *)

Inductive CaptureSource : Type :=
| FromLambda (fn_index : nat) (is_self_recursion : bool)
| FromCopy (source : ValueDomain) (offset size : Z).

Definition capture_size (c : CaptureSource) : Z :=
  match c with
  | FromLambda _ _ => 2
  | FromCopy _ _ size => size
  end.

Definition compile_push_capture `{External} (c : CaptureSource) (b : Builder.t)
  : outcome (Z * Builder.t) :=
  match c with
  | FromLambda fn_index is_self_recursion =>
      Builder.compile_push_lambda Capture fn_index is_self_recursion b
  | FromCopy source offset size =>
      Builder.compile_push_copy Capture source offset size b
  end.

(** [for(auto *def : fndef->captures()) compile_push_capture(def);]: the
    offsets at which the captures were pushed. *)
Fixpoint push_captures `{External} (cs : list CaptureSource) (b : Builder.t)
  : outcome (list Z * Builder.t) :=
  match cs with
  | [] => Ok ([], b)
  | c :: rest =>
      '(offset, b1) ← compile_push_capture c b;
      '(offsets, b2) ← push_captures rest b1;
      Ok (offset :: offsets, b2)
  end.

Definition create_closure_object `{External} (chunk_index : nat) (cs : list CaptureSource)
    (b : Builder.t) : outcome (list Z * Builder.t) :=
  match cs with
  | [] => Ok ([], b)                        (* !fndef->has_captures() *)
  | _ :: _ =>
      b1 ← Builder.create_closure chunk_index b;
      push_captures cs b1
  end.

(** The builder while the closure object created from [b] is filled, with
    [n] slots pushed so far. *)
Definition filling_closure `{External} (b : Builder.t) (n : Z) (b' : Builder.t) : Prop :=
  Builder.m_is_executing b' = false
  /\ (Builder.m_current_chunk b' < length (Builder.m_chunks b'))%nat
  /\ Builder.m_parser_value_for_push b' = Builder.m_parser_value_for_push b
  /\ Builder.m_current_closure_start_offset b'
     = vsize (FrameStack.m_stack (EngineStack.m_captures (Builder.m_stack b)))
       - FrameStack.m_frame_start (EngineStack.m_captures (Builder.m_stack b))
  /\ EngineStack.m_locals (Builder.m_stack b') = EngineStack.m_locals (Builder.m_stack b)
  /\ EngineStack.m_captures (Builder.m_stack b')
     = push_all (replicate (Z.to_nat n) (Builder.m_parser_value_for_push b))
         (EngineStack.m_captures (Builder.m_stack b)).

(** The function [f] of [example_heap] after it captured [a] and [g]. *)
Definition captured_heap : NameHeap :=
  heap_of (add_capture 0 3 (heap_of (add_capture 0 1 example_heap))).

Definition captured_f : NameDefinition :=
  set_captures [1%nat; 3%nat] (example_name "f" NameType.Function).

(** * Verified properties *)

(** ** Operator precedence *)

(** C7.  [postfix_binds_more_tightly(outer)] is true exactly when the
    operator's postfix precedence is non-zero and either it is strictly
    smaller than [outer], or it equals [outer] and the operator is not
    left-to-right associative. *)
Theorem postfix_binds_more_tightly_iff (i : OpInfo.t) (outer : Z) :
  OpInfo.postfix_binds_more_tightly i outer = true
  <-> OpInfo.precedence i <> 0
      /\ (OpInfo.precedence i < outer
          \/ (OpInfo.precedence i = outer /\ OpInfo.left_to_right i = false)).
Proof.
  unfold OpInfo.postfix_binds_more_tightly.
  destruct (Z.eqb_spec (OpInfo.precedence i) 0) as [E0|N0]; simpl.
  - split; [discriminate | intros [C _]; contradiction].
  - destruct (Z.gtb_spec (OpInfo.precedence i) outer) as [G|G]; simpl.
    + split; [discriminate | intros [_ [C|[C _]]]; lia].
    + destruct (Z.eqb_spec (OpInfo.precedence i) outer) as [E|N]; simpl.
      * destruct (OpInfo.left_to_right i); split; try discriminate; auto.
        intros [_ [C|[_ C]]]; [lia | discriminate].
      * split; auto. intros _. split; auto. left. lia.
Qed.

(** In the registered table, an operator of strictly tighter precedence
    binds more tightly than any looser outer operator, and, at equal
    precedence, only the right-to-left operators do. *)
Lemma postfix_table_associativity :
  Forall (fun i => OpInfo.postfix_binds_more_tightly i (OpInfo.precedence i)
                   = negb (OpInfo.left_to_right i)) postfix_op_table.
Proof. repeat constructor. Qed.

(** ** Comparison operators *)

(** C10.  The six comparison operators and the prefix operator [!] return
    exactly 1.0 or exactly 0.0, whatever the operands. *)
Theorem comparisons_return_zero_or_one `{External} (lhs rhs : double) :
  (binary_op Blt lhs rhs = 1%float \/ binary_op Blt lhs rhs = 0%float)
  /\ (binary_op Bgt lhs rhs = 1%float \/ binary_op Bgt lhs rhs = 0%float)
  /\ (binary_op Ble lhs rhs = 1%float \/ binary_op Ble lhs rhs = 0%float)
  /\ (binary_op Bge lhs rhs = 1%float \/ binary_op Bge lhs rhs = 0%float)
  /\ (binary_op Bequality lhs rhs = 1%float \/ binary_op Bequality lhs rhs = 0%float)
  /\ (binary_op Binequality lhs rhs = 1%float \/ binary_op Binequality lhs rhs = 0%float)
  /\ (prefix_op Pbang rhs = 1%float \/ prefix_op Pbang rhs = 0%float).
Proof.
  unfold binary_op, prefix_op.
  repeat split;
    match goal with
    | |- context [if ?b then _ else _] => destruct b; auto
    end.
Qed.

(** The token codes of the comparison operators select these operators. *)
Lemma comparison_factories :
  get_binary_operator_factory Tokens.tk_lt = Ok Blt
  /\ get_binary_operator_factory Tokens.tk_gt = Ok Bgt
  /\ get_binary_operator_factory Tokens.tk_le = Ok Ble
  /\ get_binary_operator_factory Tokens.tk_ge = Ok Bge
  /\ get_binary_operator_factory Tokens.tk_equality = Ok Bequality
  /\ get_binary_operator_factory Tokens.tk_inequality = Ok Binequality
  /\ get_prefix_operator_factory Tokens.tk_bang = Ok Pbang.
Proof. repeat split. Qed.

(** ** Frame stacks *)

Lemma wrap_size_t_small (z : Z) : 0 <= z < 2 ^ 64 -> wrap_size_t z = z.
Proof. intros. unfold wrap_size_t. apply Z.mod_small. lia. Qed.

Lemma assert_true_bind {A} (b : bool) (k : outcome A) :
  b = true -> (assert b;; k) = k.
Proof. intros ->. reflexivity. Qed.

Lemma resize_le {T} (T0 : T) (n : Z) (v : list T) :
  0 <= n <= vsize v -> resize T0 n v = take (Z.to_nat n) v.
Proof.
  intros Hn. unfold resize, vsize in *.
  replace (Z.to_nat n - length v)%nat with 0%nat by lia.
  simpl. apply app_nil_r.
Qed.

(** C5.  [push_frame(args_size, params_size)] with
    [args_size >= params_size >= 0] and at least [args_size] entries above
    the current frame start: the previous frame start is saved, the new
    frame starts [args_size] below the old top, the stack is cut to
    [frame_start + params_size] when [params_size < args_size], and the
    entries below the new frame start are unchanged. *)
Theorem push_frame_args_spec {T} (T0 : T) (fs : FrameStack.t T) (args_size params_size : Z) :
  0 <= params_size <= args_size ->
  0 <= FrameStack.m_frame_start fs ->
  FrameStack.m_frame_start fs + args_size <= vsize (FrameStack.m_stack fs) ->
  vsize (FrameStack.m_stack fs) < 2 ^ 64 ->
  exists fs',
    FrameStack.push_frame_args T0 args_size params_size fs = Ok fs'
    /\ FrameStack.m_frames fs' = FrameStack.m_frames fs ++ [FrameStack.m_frame_start fs]
    /\ FrameStack.m_frame_start fs' = vsize (FrameStack.m_stack fs) - args_size
    /\ FrameStack.m_stack fs' =
         (if params_size <? args_size
          then take (Z.to_nat (FrameStack.m_frame_start fs' + params_size))
                    (FrameStack.m_stack fs)
          else FrameStack.m_stack fs)
    /\ (params_size < args_size ->
        vsize (FrameStack.m_stack fs') = FrameStack.m_frame_start fs' + params_size)
    /\ (forall i : nat,
          Z.of_nat i < FrameStack.m_frame_start fs' ->
          FrameStack.m_stack fs' !! i = FrameStack.m_stack fs !! i).
Proof.
  intros Hp Hs Ha Hlen.
  set (len := vsize (FrameStack.m_stack fs)) in *.
  assert (Hw : wrap_size_t (len - args_size) = len - args_size)
    by (apply wrap_size_t_small; lia).
  unfold FrameStack.push_frame_args. fold len. rewrite Hw.
  rewrite !assert_true_bind by (apply Z.leb_le; lia).
  eexists. split; [reflexivity|]. simpl.
  assert (Hw2 : wrap_size_t (len - args_size + params_size) = len - args_size + params_size)
    by (apply wrap_size_t_small; lia).
  rewrite Hw2.
  split; [reflexivity|]. split; [reflexivity|].
  destruct (Z.ltb_spec params_size args_size) as [Hlt|Hge].
  - rewrite resize_le by (fold len; lia).
    split; [reflexivity|]. split.
    + intros _. unfold vsize. rewrite length_take. unfold len, vsize in *. lia.
    + intros i Hi. apply lookup_take_lt. lia.
  - split; [reflexivity|]. split; [lia | reflexivity].
Qed.

(** A call with three arguments to a function of one parameter. *)
Lemma push_frame_args_spec_witness :
  exists fs',
    FrameStack.push_frame_args 0 3 1 (FrameStack.mk [10; 11; 12; 13; 14] 1 [0]) = Ok fs'
    /\ FrameStack.m_frames fs' = [0; 1]
    /\ FrameStack.m_frame_start fs' = 2
    /\ FrameStack.m_stack fs' = [10; 11; 12].
Proof.
  destruct (push_frame_args_spec 0 (FrameStack.mk [10; 11; 12; 13; 14] 1 [0]) 3 1)
    as (fs' & E & F & S & K & _); simpl; unfold vsize; simpl; try lia.
  exists fs'. split; [exact E|]. split; [rewrite F; reflexivity|].
  split; [rewrite S; reflexivity|]. rewrite K, S. reflexivity.
Defined.

(** ** Name environment *)

Section DefineName.
Context {NamedefType Location : Type}.
Variable Namedef0 : NamedefType.

(** Whatever [accept_dup] is, [define_name] yields a null pointer exactly
    when the innermost context already has the name. *)
Lemma define_name_null_iff (name : string) (accept_dup : bool)
    (front : LexicalContextStack.ContextEntry (NamedefType := NamedefType) (Location := Location))
    (rest : list LexicalContextStack.ContextEntry) :
  (exists st', LexicalContextStack.define_name Namedef0 name accept_dup (front :: rest)
               = Ok (None, st'))
  <-> is_Some (LexicalContextStack.context front !! name).
Proof.
  unfold LexicalContextStack.define_name. simpl.
  destruct (LexicalContextStack.context front !! name) eqn:E; simpl.
  - split; [intros _; eauto | intros _; eauto].
  - split; [intros [st' Hst]; discriminate | intros [x Hx]; discriminate].
Qed.

Lemma define_name_ignores_accept_dup (name : string) (accept_dup : bool)
    (st : list (LexicalContextStack.ContextEntry (NamedefType := NamedefType) (Location := Location))) :
  LexicalContextStack.define_name Namedef0 name accept_dup st
  = LexicalContextStack.define_name Namedef0 name false st.
Proof. reflexivity. Qed.
End DefineName.

(** C6.  Re-defining an existing name with [accept_dup = true]: the code
    returns the null pointer and leaves the context as it was, where its
    documentation promises a pointer to the existing definition. *)
Theorem define_name_accept_dup_returns_null :
  let st := [LexicalContextStack.mkEntry tt ({[ "x"%string := 7%nat ]} : gmap string nat)] in
  LexicalContextStack.define_name 0%nat "x" true st = Ok (None, st).
Proof. reflexivity. Qed.

(** ** The outcome monad *)

Lemma bind_Ok_inv {A B} (m : outcome A) (k : A -> outcome B) (b : B) :
  m ≫= k = Ok b -> exists a, m = Ok a /\ k a = Ok b.
Proof. destruct m as [a|f]; simpl; [eauto | discriminate]. Qed.

Lemma assert_Ok_inv (b : bool) (u : unit) : assert b = Ok u -> b = true.
Proof. destruct b; [reflexivity | discriminate]. Qed.

(** Decomposes a hypothesis stating that a sequence of binds succeeded. *)
Ltac inv_ok :=
  repeat match goal with
    | H : Ok _ = Ok _ |- _ => injection H as H; try subst
    | H : Fail _ = Ok _ |- _ => discriminate H
    | H : assert _ = Ok _ |- _ => apply assert_Ok_inv in H
    | H : _ ≫= _ = Ok _ |- _ =>
        let a := fresh "a" in
        let Ha := fresh "E" in
        apply bind_Ok_inv in H; destruct H as (a & Ha & H)
    | H : (let '(_, _) := ?p in _) = Ok _ |- _ => destruct p
    | H : (_, _) = (_, _) |- _ => injection H as ? ?; try subst
    end.

(** ** Expression combinators *)

Section Combinators.
Context `{External}.

Lemma eval_node_prefix (op : Z) (rhs n : ASTNode) :
  create_prefix_op_expr op rhs = Ok n ->
  exists f, get_prefix_operator_factory op = Ok f
    /\ n <> Invalid
    /\ forall en, eval_node n en = ('(r, en1) ← eval_node rhs en; Ok (prefix_op f r, en1)).
Proof.
  unfold create_prefix_op_expr. intros Hc.
  destruct (get_prefix_operator_factory op) as [f|]; [|discriminate].
  exists f. split; [reflexivity|].
  destruct rhs; simpl in Hc; inv_ok; (split; [discriminate | reflexivity]).
Qed.

Lemma eval_node_binary (op : Z) (lhs rhs n : ASTNode) :
  create_binary_op_expr op lhs rhs = Ok n ->
  exists f, get_binary_operator_factory op = Ok f
    /\ n <> Invalid
    /\ forall en, eval_node n en = both_operands f (eval_node lhs) (eval_node rhs) en.
Proof.
  unfold create_binary_op_expr. intros Hc.
  destruct (get_binary_operator_factory op) as [f|]; [|discriminate].
  exists f. split; [reflexivity|].
  destruct lhs, rhs; simpl in Hc; inv_ok; (split; [discriminate|]); intros en;
    unfold both_operands, eval_node; simpl;
    destruct args_right_to_left; simpl; try reflexivity;
    repeat match goal with
      | |- context [eval ?e ?en] => destruct (eval e en) as [[? ?]|]; simpl
      end; reflexivity.
Qed.

Lemma eval_node_conditional (lhs rhs third n : ASTNode) :
  create_conditional_expr lhs rhs third = Ok n ->
  n <> Invalid
  /\ forall en, eval_node n en =
       ('(c, en1) ← eval_node lhs en;
        if truthy c then eval_node rhs en1 else eval_node third en1).
Proof.
  unfold create_conditional_expr. intros Hc.
  destruct lhs, rhs, third; simpl in Hc; inv_ok; (split; [discriminate|]);
    intros en; reflexivity.
Qed.

(** Every node that [build_ast] produces is valid, and calling it performs
    the strict evaluation of the tree. *)
Lemma build_ast_sound (p : ParseTree) :
  forall n, build_ast p = Ok n ->
    n <> Invalid /\ forall en, eval_node n en = strict_eval p en.
Proof.
  induction p; simpl; intros n Hb; inv_ok;
    try (split; [discriminate | reflexivity]); auto.
  - (* prefix *)
    destruct (eval_node_prefix _ _ _ Hb) as (f & Hf & Hn & He).
    split; [exact Hn|]. intros en. rewrite Hf, He. simpl.
    destruct (IHp _ E) as [_ ->]. reflexivity.
  - (* binary *)
    destruct (eval_node_binary _ _ _ _ Hb) as (f & Hf & Hn & He).
    split; [exact Hn|]. intros en. rewrite Hf, He. simpl.
    destruct (IHp1 _ E) as [_ H1]. destruct (IHp2 _ E0) as [_ H2].
    unfold both_operands. destruct args_right_to_left.
    + rewrite H2. destruct (strict_eval p2 en) as [[r en1]|]; simpl; [|reflexivity].
      rewrite H1. reflexivity.
    + rewrite H1. destruct (strict_eval p1 en) as [[l en1]|]; simpl; [|reflexivity].
      rewrite H2. reflexivity.
  - (* ternary *)
    destruct (eval_node_conditional _ _ _ _ Hb) as (Hn & He).
    split; [exact Hn|]. intros en. rewrite He.
    destruct (IHp1 _ E) as [_ H1]. destruct (IHp2 _ E0) as [_ H2].
    destruct (IHp3 _ E1) as [_ H3].
    rewrite H1. destruct (strict_eval p1 en) as [[c en1]|]; simpl; [|reflexivity].
    destruct (truthy c); auto.
Qed.

(** A constant-only expression evaluates to its eager value and leaves the
    engine as it was. *)
Lemma strict_eval_eager (p : ParseTree) :
  forall v en, eager_value p = Some v -> strict_eval p en = Ok (v, en).
Proof.
  induction p; simpl; intros v en Hv; try discriminate; auto.
  - congruence.
  - destruct (get_prefix_operator_factory op) as [f|]; [|discriminate].
    destruct (eager_value p) as [r|]; [|discriminate].
    injection Hv as <-. simpl. rewrite (IHp r en eq_refl). reflexivity.
  - destruct (get_binary_operator_factory op) as [f|]; [|discriminate].
    destruct (eager_value p1) as [l|]; [|discriminate].
    destruct (eager_value p2) as [r|]; [|discriminate].
    injection Hv as <-. simpl. unfold both_operands.
    destruct args_right_to_left;
      rewrite ?(IHp1 l en eq_refl), ?(IHp2 r en eq_refl); simpl;
      rewrite ?(IHp1 l en eq_refl), ?(IHp2 r en eq_refl); reflexivity.
  - destruct (eager_value p1) as [c|]; [|discriminate].
    destruct (eager_value p2) as [r|]; [|discriminate].
    destruct (eager_value p3) as [t|]; [|discriminate].
    injection Hv as <-. rewrite (IHp1 c en eq_refl). simpl.
    destruct (truthy c); auto.
Qed.

(** Without [?:], a constant-only expression folds to a [Constant] node. *)
Lemma build_ast_folds (p : ParseTree) :
  forall v, eager_value p = Some v -> ternary_free p = true ->
    build_ast p = Ok (Constant v).
Proof.
  induction p; simpl; intros v Hv Ht; try discriminate; auto.
  - congruence.
  - destruct (get_prefix_operator_factory op) as [f|] eqn:Hf; [|discriminate].
    destruct (eager_value p) as [r|]; [|discriminate].
    injection Hv as <-. rewrite (IHp r eq_refl Ht). simpl.
    unfold create_prefix_op_expr. rewrite Hf. reflexivity.
  - destruct (get_binary_operator_factory op) as [f|] eqn:Hf; [|discriminate].
    destruct (eager_value p1) as [l|]; [|discriminate].
    destruct (eager_value p2) as [r|]; [|discriminate].
    apply andb_prop in Ht as [Ht1 Ht2].
    injection Hv as <-. rewrite (IHp1 l eq_refl Ht1), (IHp2 r eq_refl Ht2). simpl.
    unfold create_binary_op_expr. rewrite Hf. reflexivity.
Qed.

(** A constant-only expression always builds, and a [Constant] node it
    builds holds the eager value. *)
Lemma build_ast_total (p : ParseTree) :
  forall v, eager_value p = Some v ->
    exists n, build_ast p = Ok n /\ forall c, n = Constant c -> c = v.
Proof.
  induction p; simpl; intros v Hv; try discriminate.
  - eexists. split; [reflexivity|]. congruence.
  - auto.
  - auto.
  - destruct (get_prefix_operator_factory op) as [f|] eqn:Hf; [|discriminate].
    destruct (eager_value p) as [r|]; [|discriminate].
    destruct (IHp r eq_refl) as (n & -> & Hc). simpl. injection Hv as <-.
    unfold create_prefix_op_expr. rewrite Hf.
    destruct n; simpl; eexists; (split; [reflexivity|]); try discriminate.
    intros c [= <-]. rewrite (Hc _ eq_refl). reflexivity.
  - destruct (get_binary_operator_factory op) as [f|] eqn:Hf; [|discriminate].
    destruct (eager_value p1) as [l|]; [|discriminate].
    destruct (eager_value p2) as [r|]; [|discriminate].
    destruct (IHp1 l eq_refl) as (n1 & -> & Hc1).
    destruct (IHp2 r eq_refl) as (n2 & -> & Hc2). simpl. injection Hv as <-.
    unfold create_binary_op_expr. rewrite Hf.
    destruct n1, n2; simpl; eexists; (split; [reflexivity|]); try discriminate.
    intros c [= <-]. rewrite (Hc1 _ eq_refl), (Hc2 _ eq_refl). reflexivity.
  - destruct (eager_value p1) as [c|]; [|discriminate].
    destruct (eager_value p2) as [r|]; [|discriminate].
    destruct (eager_value p3) as [t|]; [|discriminate].
    destruct (IHp1 c eq_refl) as (n1 & -> & _). destruct (IHp2 r eq_refl) as (n2 & -> & _).
    destruct (IHp3 t eq_refl) as (n3 & -> & _). simpl.
    unfold create_conditional_expr.
    destruct n1, n2, n3; simpl; eexists; (split; [reflexivity|]); discriminate.
Qed.

(** C1 (amended).  For a constant-only expression with eager value [v]:
    without [?:] the node built is [Constant v]; in every case the node is
    either [Constant v] or a deferred [Expression] whose call yields [v] in
    any engine state and leaves that state unchanged.  (The [?:] combinator
    never folds: see [ternary_of_constants_is_deferred].) *)
Theorem constant_folding_preserves_value (p : ParseTree) (v : double) :
  eager_value p = Some v ->
  (ternary_free p = true -> build_ast p = Ok (Constant v))
  /\ exists n, build_ast p = Ok n
       /\ match n with
          | Constant c => c = v
          | Expression e => forall en, eval e en = Ok (v, en)
          | Invalid => False
          end.
Proof.
  intros Hv. split; [apply build_ast_folds; exact Hv|].
  destruct (build_ast_total p v Hv) as (n & Hn & Hc).
  exists n. split; [exact Hn|].
  destruct (build_ast_sound p n Hn) as [Hvalid Hs].
  destruct n.
  - contradiction.
  - intros en. change (eval_node (Expression e) en = Ok (v, en)).
    rewrite Hs. apply strict_eval_eager. exact Hv.
  - apply Hc. reflexivity.
Qed.

End Combinators.

(** [1 + (1 ? 2 : 3)]: the node is deferred, and calling it yields 3. *)
Lemma constant_folding_preserves_value_witness :
  exists n,
    build_ast (H := recording_turtle)
      (PBinary Tokens.tk_plus (PNumber 1%float) (PTernary (PNumber 1%float) (PNumber 2%float) (PNumber 3%float)))
    = Ok n
    /\ match n with
       | Constant c => c = 3%float
       | Expression e => forall en, eval (H := recording_turtle) e en = Ok (3%float, en)
       | Invalid => False
       end.
Proof.
  exact (proj2 (@constant_folding_preserves_value recording_turtle
                  (PBinary Tokens.tk_plus (PNumber 1%float)
                     (PTernary (PNumber 1%float) (PNumber 2%float) (PNumber 3%float)))
                  3%float eq_refl)).
Defined.

(** C1, as stated, fails: [1 ? 2 : 3] has only constant leaves and the eager
    value 2, yet the node built is a deferred [Expression], not
    [Constant 2]. *)
Lemma ternary_of_constants_is_deferred :
  eager_value (H := recording_turtle) (PTernary (PNumber 1%float) (PNumber 2%float) (PNumber 3%float))
  = Some 2%float
  /\ build_ast (H := recording_turtle) (PTernary (PNumber 1%float) (PNumber 2%float) (PNumber 3%float))
     = Ok (Expression (conditional_closure (Cnst 1%float) (Cnst 2%float) (Cnst 3%float)))
  /\ build_ast (H := recording_turtle) (PTernary (PNumber 1%float) (PNumber 2%float) (PNumber 3%float))
     <> Ok (Constant 2%float).
Proof. repeat split. discriminate. Qed.

(** ** Logical operators *)

Section Logical.
Context `{External}.

(** The values of [&&] and [||]. *)
Lemma logical_values (lhs rhs : double) :
  binary_op Band lhs rhs = (if truthy lhs && truthy rhs then rhs else 0%float)
  /\ binary_op Bor lhs rhs
     = (if truthy lhs then lhs else if truthy rhs then rhs else 0%float).
Proof. split; reflexivity. Qed.

(** Evaluating an expression without [unique] does not change the engine,
    and a short-circuiting evaluator finds the same value. *)
Lemma strict_eval_short_circuit (p : ParseTree) :
  forall en v en',
    unique_free p = true ->
    strict_eval p en = Ok (v, en') ->
    en' = en /\ short_circuit_eval p en = Ok (v, en).
Proof.
  induction p; simpl; intros en v en' Hu Hs; try discriminate; auto.
  - injection Hs as <- <-. auto.
  - (* a stack slot *)
    destruct source; simpl in Hs |- *;
      match type of Hs with
      | ?m ≫= _ = _ => destruct m as [x|]; [|discriminate]
      end; simpl in Hs |- *; injection Hs as <- <-; auto.
  - injection Hs as <- <-. auto.
  - injection Hs as <- <-. auto.
  - injection Hs as <- <-. auto.
  - (* prefix *)
    destruct (get_prefix_operator_factory op) as [f|]; [|discriminate]. simpl in Hs |- *.
    destruct (strict_eval p en) as [[r en1]|] eqn:Hp; [|discriminate].
    simpl in Hs. injection Hs as <- <-.
    destruct (IHp _ _ _ Hu Hp) as [-> Hsc]. split; [reflexivity|].
    rewrite Hsc. reflexivity.
  - (* binary *)
    apply andb_prop in Hu as [Hu1 Hu2].
    destruct (get_binary_operator_factory op) as [f|]; [|discriminate]. simpl in Hs |- *.
    assert (Hboth : exists l r, strict_eval p1 en = Ok (l, en)
                                /\ strict_eval p2 en = Ok (r, en)
                                /\ v = binary_op f l r /\ en' = en).
    { unfold both_operands in Hs. destruct args_right_to_left.
      - destruct (strict_eval p2 en) as [[r en1]|] eqn:H2; [|discriminate]. simpl in Hs.
        destruct (IHp2 _ _ _ Hu2 H2) as [-> _].
        destruct (strict_eval p1 en) as [[l en2]|] eqn:H1; [|discriminate]. simpl in Hs.
        destruct (IHp1 _ _ _ Hu1 H1) as [-> _].
        injection Hs as <- <-. eauto 6.
      - destruct (strict_eval p1 en) as [[l en1]|] eqn:H1; [|discriminate]. simpl in Hs.
        destruct (IHp1 _ _ _ Hu1 H1) as [-> _].
        destruct (strict_eval p2 en) as [[r en2]|] eqn:H2; [|discriminate]. simpl in Hs.
        destruct (IHp2 _ _ _ Hu2 H2) as [-> _].
        injection Hs as <- <-. eauto 6. }
    destruct Hboth as (l & r & H1 & H2 & -> & ->).
    destruct (IHp1 _ _ _ Hu1 H1) as [_ S1].
    destruct (IHp2 _ _ _ Hu2 H2) as [_ S2].
    split; [reflexivity|].
    destruct f;
      try (unfold both_operands; destruct args_right_to_left;
           rewrite ?S1, ?S2; simpl; rewrite ?S1, ?S2; reflexivity).
    + (* || *)
      rewrite S1. simpl. destruct (truthy l) eqn:Tl; [reflexivity|].
      rewrite S2. reflexivity.
    + (* && *)
      rewrite S1. simpl. destruct (truthy l) eqn:Tl; [|reflexivity].
      rewrite S2. reflexivity.
  - (* ternary *)
    apply andb_prop in Hu as [Hu Hu3]. apply andb_prop in Hu as [Hu1 Hu2].
    destruct (strict_eval p1 en) as [[c en1]|] eqn:H1; [|discriminate]. simpl in Hs.
    destruct (IHp1 _ _ _ Hu1 H1) as [-> S1]. rewrite S1. simpl.
    destruct (truthy c); [apply IHp2 | apply IHp3]; assumption.
Qed.

(** C4 (amended).  For an expression without [unique], whenever the compiled
    node evaluates, it leaves the engine state unchanged and yields the value
    a short-circuiting evaluator yields; [&&] is the right operand when both
    operands are truthy and 0 otherwise, [||] is the first truthy operand
    and 0 otherwise.  (Both operands are always evaluated: with [unique] in
    an operand the state differs, see [and_evaluates_its_right_operand].) *)
Theorem logical_operators_agree_without_unique (p : ParseTree) (n : ASTNode)
    (en en' : Engine) (v : double) :
  build_ast p = Ok n ->
  unique_free p = true ->
  eval_node n en = Ok (v, en') ->
  en' = en
  /\ short_circuit_eval p en = Ok (v, en)
  /\ (forall lhs rhs,
        binary_op Band lhs rhs = (if truthy lhs && truthy rhs then rhs else 0%float)
        /\ binary_op Bor lhs rhs
           = (if truthy lhs then lhs else if truthy rhs then rhs else 0%float)).
Proof.
  intros Hb Hu He.
  destruct (build_ast_sound p n Hb) as [_ Hs]. rewrite Hs in He.
  destruct (strict_eval_short_circuit p en v en' Hu He) as [-> Hsc].
  split; [reflexivity|]. split; [exact Hsc|]. apply logical_values.
Qed.

End Logical.

(** [(turtle.x || 5) && 7] on a fresh engine. *)
Lemma logical_operators_agree_without_unique_witness :
  short_circuit_eval (H := recording_turtle)
    (PBinary Tokens.tk_and (PBinary Tokens.tk_or PTurtleX (PNumber 5%float)) (PNumber 7%float))
    empty_engine
  = Ok (7%float, empty_engine).
Proof.
  exact (proj1 (proj2 (@logical_operators_agree_without_unique recording_turtle
    (PBinary Tokens.tk_and (PBinary Tokens.tk_or PTurtleX (PNumber 5%float)) (PNumber 7%float))
    (Expression (binary_closure_ec Band
                   (binary_closure_ec Bor turtle_x_expr 5%float) 7%float))
    empty_engine empty_engine 7%float eq_refl eq_refl eq_refl))).
Defined.

(** C4, as stated, fails: in [0 && unique] the compiled code calls [unique]
    and advances the counter, where a short-circuiting evaluator does not
    evaluate the right operand. *)
Lemma and_evaluates_its_right_operand :
  build_ast (H := recording_turtle) (PBinary Tokens.tk_and (PNumber 0%float) PUnique)
  = Ok (Expression (binary_closure_ce Band 0%float unique_val_expr))
  /\ eval_node (Expression (binary_closure_ce Band 0%float unique_val_expr)) empty_engine
     = Ok (0%float, set_next_unique_num 2 empty_engine)
  /\ short_circuit_eval (PBinary Tokens.tk_and (PNumber 0%float) PUnique) empty_engine
     = Ok (0%float, empty_engine)
  /\ eval_node (Expression (binary_closure_ce Band 0%float unique_val_expr)) empty_engine
     <> short_circuit_eval (PBinary Tokens.tk_and (PNumber 0%float) PUnique) empty_engine.
Proof.
  repeat split. intros Hc. vm_compute in Hc. discriminate Hc.
Qed.

(** ** The [unique] counter *)

Section Unique.
Context `{External}.

Lemma set_next_unique_num_same (en : Engine) :
  set_next_unique_num (m_next_unique_num en) en = en.
Proof. destruct en. reflexivity. Qed.

Lemma set_next_unique_num_twice (a b : Z) (en : Engine) :
  set_next_unique_num a (set_next_unique_num b en) = set_next_unique_num a en.
Proof. reflexivity. Qed.

(** One call of [unique]: the current counter is returned, and the counter
    is incremented. *)
Lemma eval_unique (en : Engine) :
  INT_MIN <= m_next_unique_num en < INT_MAX ->
  eval unique_val_expr en
  = Ok (double_of_int (m_next_unique_num en),
        set_next_unique_num (m_next_unique_num en + 1) en).
Proof.
  intros Hn. simpl. unfold to_int, fits_int.
  replace (INT_MIN <=? m_next_unique_num en + 1) with true by (symmetry; apply Z.leb_le; lia).
  replace (m_next_unique_num en + 1 <=? INT_MAX) with true by (symmetry; apply Z.leb_le; lia).
  reflexivity.
Qed.

(** [k] successive calls. *)
Lemma eval_unique_sequence (k : nat) :
  forall en,
    INT_MIN <= m_next_unique_num en ->
    m_next_unique_num en + Z.of_nat k <= INT_MAX ->
    eval_list (replicate k unique_val_expr) en
    = Ok (map (fun i => double_of_int (m_next_unique_num en + Z.of_nat i)) (seq 0 k),
          set_next_unique_num (m_next_unique_num en + Z.of_nat k) en).
Proof.
  induction k as [|k IH]; intros en Hlo Hhi.
  - simpl. rewrite Z.add_0_r, set_next_unique_num_same. reflexivity.
  - cbn [replicate eval_list]. rewrite eval_unique by lia. cbn [mbind outcome_bind].
    rewrite IH by (simpl; lia). cbn [mbind outcome_bind m_next_unique_num set_next_unique_num].
    rewrite set_next_unique_num_twice. f_equal. f_equal.
    + cbn [seq map]. rewrite Z.add_0_r. f_equal.
      rewrite <- seq_shift, map_map. apply map_ext. intros i. f_equal. lia.
    + f_equal. lia.
Qed.

(** C9.  The counter of a fresh engine is 1; [k] successive evaluations of
    [unique] return 1, 2, ..., [k]; and in any engine state an evaluation
    returns the current counter and increments it by one. *)
Theorem unique_returns_consecutive_integers (chunks : list Chunk) (tu : Turtle)
    (k : nat) (en : Engine) :
  Z.of_nat k < INT_MAX ->
  m_next_unique_num (new_engine chunks tu) = 1
  /\ eval_list (replicate k unique_val_expr) (new_engine chunks tu)
     = Ok (map (fun i => double_of_int (Z.of_nat i)) (seq 1 k),
           set_next_unique_num (Z.of_nat k + 1) (new_engine chunks tu))
  /\ (INT_MIN <= m_next_unique_num en < INT_MAX ->
      eval unique_val_expr en
      = Ok (double_of_int (m_next_unique_num en),
            set_next_unique_num (m_next_unique_num en + 1) en)).
Proof.
  intros Hk. split; [reflexivity|]. split; [|apply eval_unique].
  rewrite eval_unique_sequence by (simpl; unfold INT_MIN, INT_MAX in *; lia).
  cbn [m_next_unique_num new_engine]. f_equal. f_equal.
  - rewrite <- seq_shift, map_map. apply map_ext. intros i. f_equal. lia.
  - f_equal. lia.
Qed.

End Unique.

(** Three evaluations on a fresh engine return 1, 2 and 3. *)
Lemma unique_returns_consecutive_integers_witness :
  eval_list (H := recording_turtle) (replicate 3 unique_val_expr) empty_engine
  = Ok ([1%float; 2%float; 3%float], set_next_unique_num 4 empty_engine).
Proof.
  assert (Hk : Z.of_nat 3 < INT_MAX) by (unfold INT_MAX; lia).
  exact (proj1 (proj2 (@unique_returns_consecutive_integers recording_turtle
                         [] [] 3%nat empty_engine Hk))).
Defined.

(** ** The recursion guard *)

Section Guard.
Context `{External}.

Lemma to_int_fits (z : Z) : INT_MIN <= z <= INT_MAX -> to_int z = Ok z.
Proof.
  intros Hz. unfold to_int, fits_int.
  replace (INT_MIN <=? z) with true by (symmetry; apply Z.leb_le; lia).
  replace (z <=? INT_MAX) with true by (symmetry; apply Z.leb_le; lia).
  reflexivity.
Qed.

Lemma vsize_nonneg {T} (v : list T) : 0 <= vsize v.
Proof. unfold vsize. lia. Qed.

(** The guard as the code computes it: each stack is compared with the
    limit on its own. *)
Lemma check_stack_size_spec (max_size : Z) (en : Engine) :
  locals_size en <= INT_MAX ->
  captures_size en <= INT_MAX ->
  EngineStack.check_stack_size max_size (m_stack en)
  = Ok ((locals_size en <? max_size) && (captures_size en <? max_size)).
Proof.
  intros Hl Hc. unfold EngineStack.check_stack_size, FrameStack.get_stack_size.
  fold (locals_size en). fold (captures_size en).
  pose proof (vsize_nonneg (FrameStack.m_stack (EngineStack.m_locals (m_stack en)))).
  pose proof (vsize_nonneg (FrameStack.m_stack (EngineStack.m_captures (m_stack en)))).
  unfold locals_size, captures_size in *.
  rewrite !to_int_fits by (unfold INT_MIN; lia). cbn [mbind outcome_bind].
  destruct (vsize (FrameStack.m_stack (EngineStack.m_locals (m_stack en))) <? max_size);
    reflexivity.
Qed.

Lemma exec_statements_guard_passes (fuel : nat) (stmts : list Statement) (en : Engine) :
  locals_size en < infinite_recursion_limit ->
  captures_size en < infinite_recursion_limit ->
  exec_statements (S fuel) stmts en = exec_each (exec_statements fuel) fuel stmts en.
Proof.
  intros Hl Hc. cbn [exec_statements].
  rewrite check_stack_size_spec
    by (unfold infinite_recursion_limit, INT_MAX in *; lia).
  replace (locals_size en <? infinite_recursion_limit) with true
    by (symmetry; apply Z.ltb_lt; lia).
  replace (captures_size en <? infinite_recursion_limit) with true
    by (symmetry; apply Z.ltb_lt; lia).
  reflexivity.
Qed.

(** C3 (amended).  On entry to a chunk's statement sequence the engine
    throws [InfiniteRecursionException], running no statement, exactly when
    the Locals stack alone or the Captures stack alone holds at least
    1,000,000 slots; otherwise the statements are executed in order. *)
Theorem recursion_guard_is_per_stack (fuel : nat) (stmts : list Statement) (en : Engine) :
  locals_size en <= INT_MAX ->
  captures_size en <= INT_MAX ->
  infinite_recursion_limit = 1000000
  /\ (1000000 <= locals_size en \/ 1000000 <= captures_size en ->
      exec_statements (S fuel) stmts en = Fail InfiniteRecursionException)
  /\ (locals_size en < 1000000 /\ captures_size en < 1000000 ->
      exec_statements (S fuel) stmts en
      = exec_each (exec_statements fuel) fuel stmts en).
Proof.
  intros Hl Hc. split; [reflexivity|]. split.
  - intros Hge. cbn [exec_statements].
    rewrite check_stack_size_spec by assumption.
    replace ((locals_size en <? infinite_recursion_limit)
             && (captures_size en <? infinite_recursion_limit)) with false; [reflexivity|].
    symmetry. apply andb_false_iff. unfold infinite_recursion_limit.
    destruct Hge; [left | right]; apply Z.ltb_ge; lia.
  - intros [Hlt1 Hlt2]. apply exec_statements_guard_passes; assumption.
Qed.

End Guard.

Lemma nearly_full_engine_sizes :
  locals_size nearly_full_engine = 999999 /\ captures_size nearly_full_engine = 1.
Proof.
  split; [|reflexivity].
  unfold locals_size, nearly_full_engine, vsize. cbn [m_stack set_stack
    EngineStack.m_locals FrameStack.m_stack].
  rewrite length_replicate. apply Z2Nat.id. lia.
Qed.

Lemma recursion_guard_is_per_stack_witness :
  exec_statements (H := recording_turtle) 1 [] nearly_full_engine
  = exec_each (exec_statements 0) 0 [] nearly_full_engine.
Proof.
  destruct nearly_full_engine_sizes as [Hl Hc].
  refine (proj2 (proj2 (@recursion_guard_is_per_stack recording_turtle 0 []
                          nearly_full_engine _ _)) _);
    rewrite ?Hl, ?Hc; unfold INT_MAX; lia.
Defined.

(** C3, as stated, fails: with 999,999 locals and one capture the combined
    size has reached the limit of 1,000,000, yet the guard passes and the
    (empty) statement sequence runs to completion. *)
Lemma combined_size_at_limit_does_not_throw :
  locals_size nearly_full_engine + captures_size nearly_full_engine
  = infinite_recursion_limit
  /\ exec_statements (H := recording_turtle) 1 [] nearly_full_engine
     = Ok nearly_full_engine.
Proof.
  destruct nearly_full_engine_sizes as [Hl Hc]. split.
  - rewrite Hl, Hc. reflexivity.
  - rewrite exec_statements_guard_passes
      by (rewrite ?Hl, ?Hc; unfold infinite_recursion_limit; lia).
    reflexivity.
Qed.

(** ** For loops *)

Section ForLoop.
Context `{External}.
Variable exec : list Statement -> Engine -> outcome Engine.
Variable block_index : nat.
Variable has_named_loop_var : bool.






End ForLoop.

(** The loop values of [for 1..5..10] are 1 and 6, those of [for 3..1] are
    3, 2 and 1, and a negative step counts down by its magnitude. *)
Lemma loop_values_examples :
  up_values 8 1%float 5%float 10%float = [1%float; 6%float]
  /\ down_values 8 3%float 1%float 1%float = [3%float; 2%float; 1%float]
  /\ down_values 8 9%float (step_magnitude (-4)%float) 1%float = [9%float; 5%float; 1%float].
Proof. repeat split. Qed.


(** Executed from [execute_main], the two programs call the turtle twice
    with [r(0)] and three times with [r(10)]. *)
Lemma for_loop_scenarios :
  (exists en, execute_main (H := recording_turtle) 5 2 (new_engine for_1_5_10_program [])
              = Ok en
              /\ m_turtle en = [("r"%string, [0%float]); ("r"%string, [0%float])])
  /\ (exists en, execute_main (H := recording_turtle) 5 2 (new_engine for_3_1_program [])
                 = Ok en
                 /\ m_turtle en = [("r"%string, [10%float]); ("r"%string, [10%float]);
                                   ("r"%string, [10%float])]).
Proof. split; eexists; split; vm_compute; reflexivity. Qed.

(** [def f(n) { r n  if n { f (n-1) } }  f 3] invokes [f] with 3, 2, 1, 0
    and ends; [def outer(x) { def inner() { r x } inner }  outer 5] reads
    the captured [x] through the closure position. *)
Lemma call_scenarios :
  (exists en, execute_main (H := recording_turtle) 12 2 (new_engine self_recursion_program [])
              = Ok en
              /\ m_turtle en = [("r"%string, [3%float]); ("r"%string, [2%float]);
                                ("r"%string, [1%float]); ("r"%string, [0%float])])
  /\ (exists en, execute_main (H := recording_turtle) 6 2 (new_engine closure_program [])
                 = Ok en
                 /\ m_turtle en = [("r"%string, [5%float])]).
Proof. split; eexists; split; vm_compute; reflexivity. Qed.

(** Conversions between doubles and integers. *)
Lemma conversion_examples :
  int_of_double 3.75%float = Ok 3
  /\ int_of_double (-3.75)%float = Ok (-3)
  /\ int_of_double 4294967296%float = Fail NarrowingOverflow
  /\ fmod1_is_zero 2%float = true
  /\ fmod1_is_zero 2.5%float = false
  /\ double_of_int 7 = 7%float
  /\ truthy 0%float = false
  /\ truthy (-0)%float = false
  /\ truthy nan = true.
Proof. repeat split. Qed.

(** ** Frame discipline of the executor *)

(** Splits the first bind of a successful sequence in hypothesis [H]. *)
Ltac bind_inv H x E :=
  apply bind_Ok_inv in H; destruct H as (x & E & H).

(** Uses up the leading [assert] of a successful sequence in hypothesis [H]. *)
Ltac assert_inv H :=
  let u := fresh "u" in
  let E := fresh "E" in
  apply bind_Ok_inv in H; destruct H as (u & E & H); clear u E.

Section FrameStackFrames.
Context {T : Type}.
Variable T0 : T.

Lemma pop_keeps_frames (size : Z) (fs fs' : FrameStack.t T) :
  FrameStack.pop T0 size fs = Ok fs' ->
  FrameStack.m_frame_start fs' = FrameStack.m_frame_start fs
  /\ FrameStack.m_frames fs' = FrameStack.m_frames fs.
Proof.
  unfold FrameStack.pop. intros Hp. assert_inv Hp. assert_inv Hp.
  injection Hp as <-. auto.
Qed.

Lemma push_frame_args_frames (args_size params_size : Z) (fs fs' : FrameStack.t T) :
  FrameStack.push_frame_args T0 args_size params_size fs = Ok fs' ->
  FrameStack.m_frames fs' = FrameStack.m_frames fs ++ [FrameStack.m_frame_start fs].
Proof.
  unfold FrameStack.push_frame_args. intros Hp.
  assert_inv Hp. assert_inv Hp. assert_inv Hp. assert_inv Hp.
  injection Hp as <-. reflexivity.
Qed.

Lemma pop_frame_restores (fs fs' : FrameStack.t T) (size : Z) (fr : list Z) (b : Z) :
  FrameStack.pop_frame T0 fs = Ok (size, fs') ->
  FrameStack.m_frames fs = fr ++ [b] ->
  FrameStack.m_frame_start fs' = b /\ FrameStack.m_frames fs' = fr.
Proof.
  unfold FrameStack.pop_frame. intros Hp Hfr.
  assert_inv Hp. bind_inv Hp sz Hsz.
  rewrite Hfr, last_snoc in Hp. bind_inv Hp fs1 Hpop.
  injection Hp as <- <-.
  apply pop_keeps_frames in Hpop as [-> ->]. simpl.
  rewrite removelast_last. auto.
Qed.

End FrameStackFrames.

Section Frames.
Context `{External}.

Lemma engine_pop_keeps_frames (size : EngineStack.Size) (s s' : EngineStack.t) :
  EngineStack.pop size s = Ok s' -> frames_of s' = frames_of s.
Proof.
  unfold EngineStack.pop. intros Hp.
  bind_inv Hp l Hl. bind_inv Hp c Hc. injection Hp as <-.
  apply pop_keeps_frames in Hl as [Hl1 Hl2].
  apply pop_keeps_frames in Hc as [Hc1 Hc2].
  unfold frames_of. simpl. congruence.
Qed.

(** Calling an expression changes nothing but the [unique] counter. *)
Lemma eval_changes_counter_only :
  forall e en v en', eval e en = Ok (v, en') ->
    exists n, en' = set_next_unique_num n en.
Proof.
  apply (Expr_mutind
    (fun e => forall en v en', eval e en = Ok (v, en') ->
                exists n, en' = set_next_unique_num n en)
    (fun o => forall en v en', eval_operand o en = Ok (v, en') ->
                exists n, en' = set_next_unique_num n en)).
  - discriminate.
  - intros val en v en' [= <- <-]. exists (m_next_unique_num en).
    symmetry. apply set_next_unique_num_same.
  - intros source offset en v en' He. exists (m_next_unique_num en).
    destruct source; simpl in He; bind_inv He x Hx; injection He as <- <-;
      symmetry; apply set_next_unique_num_same.
  - intros en v en' [= <- <-]. exists (m_next_unique_num en).
    symmetry. apply set_next_unique_num_same.
  - intros en v en' [= <- <-]. exists (m_next_unique_num en).
    symmetry. apply set_next_unique_num_same.
  - intros en v en' [= <- <-]. exists (m_next_unique_num en).
    symmetry. apply set_next_unique_num_same.
  - intros en v en' He. simpl in He. bind_inv He n' Hn. injection He as <- <-. eauto.
  - intros op rhs IH en v en' He. simpl in He.
    bind_inv He x Hx. destruct x as [r en1]. injection He as <- <-. eauto.
  - intros op lhs IHl rhs IHr en v en' He. simpl in He.
    destruct args_right_to_left.
    + bind_inv He x Hx. destruct x as [r en1].
      bind_inv He y Hy. destruct y as [l en2]. injection He as <- <-.
      destruct (IHr _ _ _ Hx) as [n1 ->]. destruct (IHl _ _ _ Hy) as [n2 ->]. eauto.
    + bind_inv He x Hx. destruct x as [l en1].
      bind_inv He y Hy. destruct y as [r en2]. injection He as <- <-.
      destruct (IHl _ _ _ Hx) as [n1 ->]. destruct (IHr _ _ _ Hy) as [n2 ->]. eauto.
  - intros op lhs rhs IH en v en' He. simpl in He.
    bind_inv He x Hx. destruct x as [r en1]. injection He as <- <-. eauto.
  - intros op lhs IH rhs en v en' He. simpl in He.
    bind_inv He x Hx. destruct x as [l en1]. injection He as <- <-. eauto.
  - intros l IHl r IHr t IHt en v en' He. simpl in He.
    bind_inv He x Hx. destruct x as [c en1].
    destruct (IHl _ _ _ Hx) as [n1 ->].
    destruct (truthy c); [destruct (IHr _ _ _ He) as [n2 ->]
                         | destruct (IHt _ _ _ He) as [n2 ->]]; eauto.
  - intros c en v en' [= <- <-]. exists (m_next_unique_num en).
    symmetry. apply set_next_unique_num_same.
  - intros e IH en v en' He. simpl in He. eauto.
Qed.

Lemma eval_keeps_stack (e : Expr) (en en' : Engine) (v : double) :
  eval e en = Ok (v, en') -> m_stack en' = m_stack en.
Proof. intros He. destruct (eval_changes_counter_only _ _ _ _ He) as [n ->]. reflexivity. Qed.

Lemma eval_list_keeps_stack (args : list Expr) :
  forall en vs en', eval_list args en = Ok (vs, en') -> m_stack en' = m_stack en.
Proof.
  induction args as [|a rest IH]; intros en vs en' He; simpl in He.
  - injection He as <- <-. reflexivity.
  - bind_inv He x Hx. destruct x as [v en1].
    bind_inv He y Hy. destruct y as [ws en2]. injection He as <- <-.
    rewrite (IH _ _ _ Hy). eapply eval_keeps_stack. exact Hx.
Qed.

Lemma eval_args_keeps_stack (args : list Expr) (en en' : Engine) (vs : list double) :
  eval_args args en = Ok (vs, en') -> m_stack en' = m_stack en.
Proof.
  unfold eval_args. destruct args_right_to_left; intros He.
  - bind_inv He x Hx. destruct x as [ws en1]. injection He as <- <-.
    eapply eval_list_keeps_stack. exact Hx.
  - eapply eval_list_keeps_stack. exact He.
Qed.

Lemma push_dest_keeps_frames (dest : ValueDomain) (v : double) (en en' : Engine) :
  push_dest dest v en = Ok en' -> frames_of (m_stack en') = frames_of (m_stack en).
Proof. destruct dest; simpl; intros Hp; inv_ok; reflexivity. Qed.

Lemma copy_stack_loop_keeps_frames (n : nat) (source dest : ValueDomain) :
  forall i en en',
    copy_stack_loop n source dest i en = Ok en' ->
    frames_of (m_stack en') = frames_of (m_stack en).
Proof.
  induction n as [|n IH]; intros i en en' Hc; simpl in Hc.
  - injection Hc as <-. reflexivity.
  - bind_inv Hc v Hv. bind_inv Hc en1 Hp.
    rewrite (IH _ _ _ Hc). eapply push_dest_keeps_frames. exact Hp.
Qed.

Lemma exec_start_fn_call_keeps_frames (dest : ValueDomain) (self lam : bool)
    (chunk_index : nat) (en en' : Engine) :
  exec_start_fn_call dest self lam chunk_index en = Ok en' ->
  frames_of (m_stack en') = frames_of (m_stack en).
Proof.
  unfold exec_start_fn_call. intros He.
  bind_inv He en1 H1. bind_inv He c Hc.
  assert (F1 : frames_of (m_stack en1) = frames_of (m_stack en)).
  { destruct lam; [eapply push_dest_keeps_frames; exact H1 | injection H1 as <-; reflexivity]. }
  rewrite <- F1.
  destruct (is_closure c).
  - bind_inv He pos Hpos. eapply push_dest_keeps_frames. exact He.
  - destruct lam; [eapply push_dest_keeps_frames; exact He | injection He as <-; reflexivity].
Qed.

End Frames.

Section FramesOfBody.
Context `{External}.
Variable exec : list Statement -> Engine -> outcome Engine.
Hypothesis exec_keeps_frames :
  forall stmts en en', exec stmts en = Ok en' ->
    frames_of (m_stack en') = frames_of (m_stack en).
Variable rounds : nat.

(** A call bracket: the frame pushed on entry is the one popped on exit. *)
Lemma engine_pop_frame_restores (args params size : EngineStack.Size)
    (s0 s1 s2 s3 : EngineStack.t) :
  EngineStack.push_frame_args args params s0 = Ok s1 ->
  frames_of s2 = frames_of s1 ->
  EngineStack.pop_frame s2 = Ok (size, s3) ->
  frames_of s3 = frames_of s0.
Proof.
  unfold EngineStack.push_frame_args, EngineStack.pop_frame. intros Hpush Hsame Hpop.
  bind_inv Hpush l1 Hl1. bind_inv Hpush c1 Hc1. injection Hpush as <-.
  bind_inv Hpop x Hx. destruct x as [lsz ls].
  bind_inv Hpop y Hy. destruct y as [csz cs]. injection Hpop as <- <-.
  apply push_frame_args_frames in Hl1, Hc1.
  unfold frames_of in Hsame. simpl in Hsame.
  injection Hsame as Hls Hlf Hcs Hcf.
  rewrite Hl1 in Hlf. rewrite Hc1 in Hcf.
  destruct (pop_frame_restores _ _ _ _ _ _ Hx Hlf) as [E1 E2].
  destruct (pop_frame_restores _ _ _ _ _ _ Hy Hcf) as [E3 E4].
  unfold frames_of. simpl. congruence.
Qed.

Lemma exec_fn_body_keeps_frames (args_size : EngineStack.Size) (params_size : Z)
    (hcp : bool) (stmts : list Statement) (en en' : Engine) :
  exec_fn_body exec args_size params_size hcp stmts en = Ok en' ->
  frames_of (m_stack en') = frames_of (m_stack en).
Proof.
  unfold exec_fn_body. intros He.
  bind_inv He s1 H1. bind_inv He en2 H2. bind_inv He x H3. destruct x as [sz s3].
  bind_inv He s4 H4. injection He as <-.
  cbn [m_stack set_stack].
  rewrite (engine_pop_keeps_frames _ _ _ H4).
  apply exec_keeps_frames in H2. cbn [m_stack set_stack] in H2.
  eapply engine_pop_frame_restores; eauto.
Qed.

Lemma exec_call_fn_keeps_frames (fn_index : nat) (args_size : EngineStack.Size)
    (en en' : Engine) :
  exec_call_fn exec fn_index args_size en = Ok en' ->
  frames_of (m_stack en') = frames_of (m_stack en).
Proof.
  unfold exec_call_fn. intros He. bind_inv He c Hc. assert_inv He.
  eapply exec_fn_body_keeps_frames. exact He.
Qed.

Lemma exec_call_lambda_keeps_frames (fn_index : nat) (args_size : EngineStack.Size)
    (en en' : Engine) :
  exec_call_lambda exec fn_index args_size en = Ok en' ->
  frames_of (m_stack en') = frames_of (m_stack en).
Proof.
  unfold exec_call_lambda. intros He. bind_inv He c Hc. assert_inv He.
  eapply exec_fn_body_keeps_frames. exact He.
Qed.

Lemma exec_call_local_block_keeps_frames (block_index : nat) (en en' : Engine) :
  exec_call_local_block exec block_index en = Ok en' ->
  frames_of (m_stack en') = frames_of (m_stack en).
Proof.
  unfold exec_call_local_block. intros He. bind_inv He c Hc. assert_inv He.
  bind_inv He en1 H1. bind_inv He s2 H2. injection He as <-.
  cbn [m_stack set_stack]. rewrite (engine_pop_keeps_frames _ _ _ H2).
  apply exec_keeps_frames in H1. exact H1.
Qed.

Lemma loop_round_keeps_frames (block_index : nat) (named : bool) (v : double)
    (en en' : Engine) :
  loop_round exec block_index named v en = Ok en' ->
  frames_of (m_stack en') = frames_of (m_stack en).
Proof.
  unfold loop_round. intros He.
  apply exec_call_local_block_keeps_frames in He. rewrite He.
  destruct named; reflexivity.
Qed.

Lemma for_count_loop_keeps_frames (n : nat) (count : Z) (block_index : nat) (named : bool) :
  forall i en en',
    for_count_loop exec n i count block_index named en = Ok en' ->
    frames_of (m_stack en') = frames_of (m_stack en).
Proof.
  induction n as [|n IH]; intros i en en' He; simpl in He;
    destruct (i <? count); try discriminate; try (injection He as <-; reflexivity).
  bind_inv He en1 H1. rewrite (IH _ _ _ He).
  eapply loop_round_keeps_frames. exact H1.
Qed.

Lemma for_up_loop_keeps_frames (n : nat) (inc e : double) (block_index : nat) (named : bool) :
  forall s en en',
    for_up_loop exec n s inc e block_index named en = Ok en' ->
    frames_of (m_stack en') = frames_of (m_stack en).
Proof.
  induction n as [|n IH]; intros s en en' He; simpl in He;
    destruct (PrimFloat.leb s e); try discriminate; try (injection He as <-; reflexivity).
  bind_inv He en1 H1. rewrite (IH _ _ _ He).
  eapply loop_round_keeps_frames. exact H1.
Qed.

Lemma for_down_loop_keeps_frames (n : nat) (inc e : double) (block_index : nat) (named : bool) :
  forall s en en',
    for_down_loop exec n s inc e block_index named en = Ok en' ->
    frames_of (m_stack en') = frames_of (m_stack en).
Proof.
  induction n as [|n IH]; intros s en en' He; simpl in He;
    destruct (PrimFloat.leb e s); try discriminate; try (injection He as <-; reflexivity).
  bind_inv He en1 H1. rewrite (IH _ _ _ He).
  eapply loop_round_keeps_frames. exact H1.
Qed.

Lemma run_statement_keeps_frames (stmt : Statement) (en en' : Engine) :
  run_statement exec rounds stmt en = Ok en' ->
  frames_of (m_stack en') = frames_of (m_stack en).
Proof.
  destruct stmt; cbn [run_statement]; intros He.
  - (* turtle command *)
    bind_inv He x Hx. destruct x as [vals en1].
    destruct (turtle_call fn vals (m_turtle en1)); [|discriminate].
    injection He as <-. cbn [m_stack set_turtle].
    rewrite (eval_args_keeps_stack _ _ _ _ Hx). reflexivity.
  - (* push value *)
    bind_inv He x Hx. destruct x as [val en1].
    rewrite (push_dest_keeps_frames _ _ _ _ He), (eval_keeps_stack _ _ _ _ Hx). reflexivity.
  - eapply push_dest_keeps_frames. exact He.
  - (* push copy *)
    unfold copy_stack in He. bind_inv He limit Hl.
    eapply copy_stack_loop_keeps_frames. exact He.
  - eapply exec_start_fn_call_keeps_frames. exact He.
  - eapply exec_call_fn_keeps_frames. exact He.
  - (* start lambda call *)
    bind_inv He o Ho. bind_inv He pos Hpos. injection He as <-. reflexivity.
  - (* call lambda *)
    bind_inv He fn_index Hf. assert_inv He. assert_inv He. bind_inv He i Hi.
    eapply exec_call_lambda_keeps_frames. exact He.
  - (* if *)
    bind_inv He x Hx. destruct x as [c en1].
    rewrite <- (eval_keeps_stack _ _ _ _ Hx).
    destruct (truthy c); [eapply exec_call_local_block_keeps_frames; exact He|].
    destruct (negb (else_body =? 0)%nat);
      [eapply exec_call_local_block_keeps_frames; exact He | injection He as <-; reflexivity].
  - (* for count *)
    bind_inv He x Hx. destruct x as [c en1]. bind_inv He count Hc.
    rewrite <- (eval_keeps_stack _ _ _ _ Hx).
    eapply for_count_loop_keeps_frames. exact He.
  - (* for range *)
    bind_inv He x Hx. destruct x as [s en1]. bind_inv He y Hy. destruct y as [e en2].
    rewrite <- (eval_keeps_stack _ _ _ _ Hx), <- (eval_keeps_stack _ _ _ _ Hy).
    destruct (PrimFloat.leb s e);
      [eapply for_up_loop_keeps_frames | eapply for_down_loop_keeps_frames]; exact He.
  - (* for step *)
    bind_inv He x Hx. destruct x as [s en1]. bind_inv He y Hy. destruct y as [inc en2].
    bind_inv He z Hz. destruct z as [e en3].
    rewrite <- (eval_keeps_stack _ _ _ _ Hx), <- (eval_keeps_stack _ _ _ _ Hy),
      <- (eval_keeps_stack _ _ _ _ Hz).
    destruct (PrimFloat.leb s e);
      [eapply for_up_loop_keeps_frames | eapply for_down_loop_keeps_frames]; exact He.
  - injection He as <-. reflexivity.
Qed.

Lemma exec_statement_keeps_frames (stmt : Statement) (en en' : Engine) :
  exec_statement exec rounds stmt en = Ok en' ->
  frames_of (m_stack en') = frames_of (m_stack en).
Proof.
  unfold exec_statement. intros He. bind_inv He en1 H1. injection He as <-.
  rewrite <- (run_statement_keeps_frames _ _ _ H1).
  destruct (negb (m_pen_height_became_negative en1)); [|reflexivity].
  destruct (get_pen_height (m_turtle en1) <? 0); reflexivity.
Qed.

Lemma exec_each_keeps_frames (stmts : list Statement) :
  forall en en',
    exec_each exec rounds stmts en = Ok en' ->
    frames_of (m_stack en') = frames_of (m_stack en).
Proof.
  induction stmts as [|stmt rest IH]; intros en en' He; simpl in He.
  - injection He as <-. reflexivity.
  - bind_inv He en1 H1. rewrite (IH _ _ He).
    eapply exec_statement_keeps_frames. exact H1.
Qed.

End FramesOfBody.

Section StacksEmpty.
Context `{External}.

(** Running a statement sequence leaves the frame bookkeeping of both
    stacks as it found it. *)
Lemma exec_statements_keeps_frames (fuel : nat) :
  forall stmts en en',
    exec_statements fuel stmts en = Ok en' ->
    frames_of (m_stack en') = frames_of (m_stack en).
Proof.
  induction fuel as [|fuel IH]; intros stmts en en' He; simpl in He; [discriminate|].
  bind_inv He ok Hok. destruct (negb ok); [discriminate|].
  eapply exec_each_keeps_frames; [exact IH | exact He].
Qed.

Lemma wrap_size_t_sub_self (len size : Z) :
  wrap_size_t len = size -> wrap_size_t (len - size) = 0.
Proof.
  unfold wrap_size_t. intros <-.
  rewrite Zminus_mod_idemp_r, Z.sub_diag. reflexivity.
Qed.

Lemma resize_zero {T} (T0 : T) (v : list T) : resize T0 0 v = [].
Proof. reflexivity. Qed.

(** Popping a frame that starts at the stack base empties the stack. *)
Lemma pop_frame_at_base {T} (T0 : T) (fs fs' : FrameStack.t T) (size : Z) :
  FrameStack.m_frame_start fs = 0 ->
  FrameStack.pop_frame T0 fs = Ok (size, fs') ->
  FrameStack.m_stack fs' = [].
Proof.
  unfold FrameStack.pop_frame, FrameStack.get_frame_size, FrameStack.pop.
  intros Hs Hp. rewrite Hs, Z.sub_0_r in Hp.
  assert_inv Hp. bind_inv Hp sz Hsz.
  destruct (last (FrameStack.m_frames fs)) as [back|]; [|discriminate].
  bind_inv Hp fs1 Hpop. injection Hp as <- <-.
  cbn [FrameStack.m_stack FrameStack.m_frame_start] in Hpop.
  assert_inv Hpop. assert_inv Hpop. injection Hpop as <-.
  cbn [FrameStack.m_stack].
  unfold to_int in Hsz. destruct (fits_int _); [|discriminate]. injection Hsz as Hsz.
  rewrite (wrap_size_t_sub_self _ _ Hsz). apply resize_zero.
Qed.

(** A successful pop of at most one slot from an empty stack whose frame
    starts at the base pops nothing. *)
Lemma pop_small_of_empty {T} (T0 : T) (fs fs' : FrameStack.t T) (size : Z) :
  FrameStack.m_stack fs = [] ->
  FrameStack.m_frame_start fs = 0 ->
  0 <= size <= 1 ->
  FrameStack.pop T0 size fs = Ok fs' ->
  FrameStack.m_stack fs' = [].
Proof.
  unfold FrameStack.pop. intros Hs Hf Hsize Hp. rewrite Hs, Hf in Hp.
  assert_inv Hp. bind_inv Hp u Hu. apply assert_Ok_inv in Hu.
  injection Hp as <-. cbn [FrameStack.m_stack].
  rewrite wrap_size_t_small in Hu by lia.
  apply Z.leb_le in Hu. unfold vsize in *. simpl in Hu.
  replace size with 0 by lia. reflexivity.
Qed.

(** C8.  When [execute_main] returns normally, the Locals stack and the
    Captures stack are both empty. *)
Theorem execute_main_leaves_stacks_empty (fuel chunk_index : nat) (en en' : Engine) :
  execute_main fuel chunk_index en = Ok en' ->
  locals_size en' = 0 /\ captures_size en' = 0.
Proof.
  unfold execute_main, exec_call_fn, exec_fn_body. intros He.
  assert_inv He. bind_inv He en2 H2. injection He as <-.
  bind_inv H2 c Hc. assert_inv H2.
  bind_inv H2 s1 H1. bind_inv H2 enb Hb. bind_inv H2 x H3. destruct x as [sz s3].
  bind_inv H2 s4 H4. injection H2 as <-.
  unfold locals_size, captures_size. cbn [m_stack set_stack set_turtle].
  (* the frame pushed for main starts at the base of both stacks *)
  pose proof (exec_statements_keeps_frames _ _ _ _ Hb) as Hk.
  cbn [m_stack set_stack set_is_executing] in Hk, H1.
  pose proof (engine_pop_frame_restores _ _ _ _ _ _ _ H1 Hk H3) as Hr.
  unfold EngineStack.push_frame_args in H1.
  bind_inv H1 l1 Hl1. bind_inv H1 c1 Hc1. injection H1 as <-.
  assert (Fl : FrameStack.m_frame_start l1 = 0).
  { unfold FrameStack.push_frame_args in Hl1.
    do 4 assert_inv Hl1. injection Hl1 as <-. reflexivity. }
  assert (Fc : FrameStack.m_frame_start c1 = 0).
  { unfold FrameStack.push_frame_args in Hc1.
    do 4 assert_inv Hc1. injection Hc1 as <-. reflexivity. }
  unfold frames_of in Hk, Hr. cbn in Hk, Hr.
  injection Hk as Kl _ Kc _. injection Hr as Rl _ Rc _.
  rewrite Fl in Kl. rewrite Fc in Kc.
  unfold EngineStack.pop_frame in H3.
  bind_inv H3 y Hy. destruct y as [lsz ls]. bind_inv H3 z Hz. destruct z as [csz cs].
  injection H3 as <- <-.
  apply pop_frame_at_base in Hy; [|exact Kl].
  apply pop_frame_at_base in Hz; [|exact Kc].
  unfold EngineStack.pop in H4. cbn in Rl, Rc.
  bind_inv H4 l4 Hl4. bind_inv H4 c4 Hc4. injection H4 as <-.
  cbn [EngineStack.m_locals EngineStack.m_captures
       EngineStack.locals EngineStack.captures] in Hl4, Hc4 |- *.
  apply pop_small_of_empty in Hl4; [| exact Hy | exact Rl | destruct (f_is_closure c); lia].
  apply pop_small_of_empty in Hc4; [| exact Hz | exact Rc | lia].
  rewrite Hl4, Hc4. split; reflexivity.
Qed.


End StacksEmpty.

Lemma execute_main_leaves_stacks_empty_witness :
  locals_size for_1_5_10_final = 0 /\ captures_size for_1_5_10_final = 0.
Proof.
  apply (@execute_main_leaves_stacks_empty recording_turtle 5 2
           (new_engine for_1_5_10_program []) for_1_5_10_final).
  vm_compute. reflexivity.
Defined.

(** ** Only [unique] writes the counter *)

Section CounterOfBody.
Context `{External}.

Lemma eval_unique_free :
  forall e, expr_unique_free e = true ->
    forall en v en', eval e en = Ok (v, en') -> en' = en.
Proof.
  apply (Expr_mutind
    (fun e => expr_unique_free e = true ->
                forall en v en', eval e en = Ok (v, en') -> en' = en)
    (fun o => operand_unique_free o = true ->
                forall en v en', eval_operand o en = Ok (v, en') -> en' = en));
    simpl; try discriminate.
  - intros val _ en v en' [= <- <-]. reflexivity.
  - intros source offset _ en v en' He.
    destruct source; bind_inv He x Hx; injection He as <- <-; reflexivity.
  - intros _ en v en' [= <- <-]. reflexivity.
  - intros _ en v en' [= <- <-]. reflexivity.
  - intros _ en v en' [= <- <-]. reflexivity.
  - intros op rhs IH Hu en v en' He.
    bind_inv He x Hx. destruct x as [r en1]. injection He as <- <-. eauto.
  - intros op lhs IHl rhs IHr Hu en v en' He. apply andb_prop in Hu as [Hl Hr].
    destruct args_right_to_left.
    + bind_inv He x Hx. destruct x as [r en1].
      bind_inv He y Hy. destruct y as [l en2]. injection He as <- <-.
      rewrite (IHl Hl _ _ _ Hy). eauto.
    + bind_inv He x Hx. destruct x as [l en1].
      bind_inv He y Hy. destruct y as [r en2]. injection He as <- <-.
      rewrite (IHr Hr _ _ _ Hy). eauto.
  - intros op lhs rhs IH Hu en v en' He.
    bind_inv He x Hx. destruct x as [r en1]. injection He as <- <-. eauto.
  - intros op lhs IH rhs Hu en v en' He.
    bind_inv He x Hx. destruct x as [l en1]. injection He as <- <-. eauto.
  - intros l IHl r IHr t IHt Hu en v en' He.
    apply andb_prop in Hu as [Hu Ht]. apply andb_prop in Hu as [Hl Hr].
    bind_inv He x Hx. destruct x as [c en1].
    rewrite <- (IHl Hl _ _ _ Hx). destruct (truthy c); eauto.
  - intros c _ en v en' [= <- <-]. reflexivity.
  - intros e IH Hu en v en' He. eauto.
Qed.

Lemma eval_list_unique_free (args : list Expr) :
  forallb expr_unique_free args = true ->
  forall en vs en', eval_list args en = Ok (vs, en') -> en' = en.
Proof.
  induction args as [|a rest IH]; simpl; intros Hu en vs en' He.
  - injection He as <- <-. reflexivity.
  - apply andb_prop in Hu as [Ha Hr].
    bind_inv He x Hx. destruct x as [v en1].
    bind_inv He y Hy. destruct y as [ws en2]. injection He as <- <-.
    rewrite (IH Hr _ _ _ Hy). eapply eval_unique_free; eauto.
Qed.

Lemma eval_args_unique_free (args : list Expr) (en en' : Engine) (vs : list double) :
  forallb expr_unique_free args = true ->
  eval_args args en = Ok (vs, en') -> en' = en.
Proof.
  unfold eval_args. intros Hu He. destruct args_right_to_left.
  - bind_inv He x Hx. destruct x as [ws en1]. injection He as <- <-.
    eapply eval_list_unique_free; [|exact Hx].
    rewrite forallb_forall in *. intros a Ha. apply Hu. apply in_rev. exact Ha.
  - eapply eval_list_unique_free; eauto.
Qed.

Lemma push_dest_keeps_counter (dest : ValueDomain) (v : double) (en en' : Engine) :
  push_dest dest v en = Ok en' -> program_and_counter en' = program_and_counter en.
Proof. destruct dest; simpl; intros Hp; inv_ok; reflexivity. Qed.

Lemma copy_stack_loop_keeps_counter (n : nat) (source dest : ValueDomain) :
  forall i en en',
    copy_stack_loop n source dest i en = Ok en' ->
    program_and_counter en' = program_and_counter en.
Proof.
  induction n as [|n IH]; intros i en en' Hc; simpl in Hc.
  - injection Hc as <-. reflexivity.
  - bind_inv Hc v Hv. bind_inv Hc en1 Hp.
    rewrite (IH _ _ _ Hc). eapply push_dest_keeps_counter. exact Hp.
Qed.

Lemma exec_start_fn_call_keeps_counter (dest : ValueDomain) (self lam : bool)
    (chunk_index : nat) (en en' : Engine) :
  exec_start_fn_call dest self lam chunk_index en = Ok en' ->
  program_and_counter en' = program_and_counter en.
Proof.
  unfold exec_start_fn_call. intros He.
  bind_inv He en1 H1. bind_inv He c Hc.
  assert (F1 : program_and_counter en1 = program_and_counter en).
  { destruct lam; [eapply push_dest_keeps_counter; exact H1 | injection H1 as <-; reflexivity]. }
  rewrite <- F1.
  destruct (is_closure c).
  - bind_inv He pos Hpos. eapply push_dest_keeps_counter. exact He.
  - destruct lam; [eapply push_dest_keeps_counter; exact He | injection He as <-; reflexivity].
Qed.

Lemma get_chunk_unique_free (index : nat) (en : Engine) (c : Chunk) :
  chunks_unique_free (m_chunks en) ->
  get_chunk index en = Ok c ->
  forallb stmt_unique_free (statements c) = true.
Proof.
  unfold get_chunk, chunks_unique_free. intros Hall Hg. assert_inv Hg.
  destruct (m_chunks en !! index) as [c'|] eqn:E; [|discriminate].
  injection Hg as <-.
  rewrite Forall_lookup in Hall. exact (Hall _ _ E).
Qed.

Variable exec : list Statement -> Engine -> outcome Engine.
Hypothesis exec_keeps_counter :
  forall stmts en en',
    forallb stmt_unique_free stmts = true ->
    chunks_unique_free (m_chunks en) ->
    exec stmts en = Ok en' ->
    program_and_counter en' = program_and_counter en.
Variable rounds : nat.

Lemma exec_fn_body_keeps_counter (args_size : EngineStack.Size) (params_size : Z)
    (hcp : bool) (stmts : list Statement) (en en' : Engine) :
  forallb stmt_unique_free stmts = true ->
  chunks_unique_free (m_chunks en) ->
  exec_fn_body exec args_size params_size hcp stmts en = Ok en' ->
  program_and_counter en' = program_and_counter en.
Proof.
  unfold exec_fn_body. intros Hu Hall He.
  bind_inv He s1 H1. bind_inv He en2 H2. bind_inv He x H3. destruct x as [sz s3].
  bind_inv He s4 H4. injection He as <-.
  apply exec_keeps_counter in H2; [exact H2 | exact Hu | exact Hall].
Qed.

Lemma exec_call_local_block_keeps_counter (block_index : nat) (en en' : Engine) :
  chunks_unique_free (m_chunks en) ->
  exec_call_local_block exec block_index en = Ok en' ->
  program_and_counter en' = program_and_counter en.
Proof.
  unfold exec_call_local_block. intros Hall He. bind_inv He c Hc.
  pose proof (get_chunk_unique_free _ _ _ Hall Hc) as Hu.
  assert_inv He. bind_inv He en1 H1. bind_inv He s2 H2. injection He as <-.
  apply exec_keeps_counter in H1; [exact H1 | exact Hu | exact Hall].
Qed.

Lemma loop_round_keeps_counter (block_index : nat) (named : bool) (v : double)
    (en en' : Engine) :
  chunks_unique_free (m_chunks en) ->
  loop_round exec block_index named v en = Ok en' ->
  program_and_counter en' = program_and_counter en.
Proof.
  unfold loop_round. intros Hall He.
  apply exec_call_local_block_keeps_counter in He.
  - rewrite He. destruct named; reflexivity.
  - destruct named; exact Hall.
Qed.

(** The invariant carried around a loop. *)
Lemma chunks_unique_free_transfer (en en' : Engine) :
  program_and_counter en' = program_and_counter en ->
  chunks_unique_free (m_chunks en) -> chunks_unique_free (m_chunks en').
Proof. unfold program_and_counter. intros [= -> _]. auto. Qed.

Lemma for_count_loop_keeps_counter (n : nat) (count : Z) (block_index : nat) (named : bool) :
  forall i en en',
    chunks_unique_free (m_chunks en) ->
    for_count_loop exec n i count block_index named en = Ok en' ->
    program_and_counter en' = program_and_counter en.
Proof.
  induction n as [|n IH]; intros i en en' Hall He; simpl in He;
    destruct (i <? count); try discriminate; try (injection He as <-; reflexivity).
  bind_inv He en1 H1. apply loop_round_keeps_counter in H1; [|exact Hall].
  rewrite <- H1. eapply IH; [|exact He].
  eapply chunks_unique_free_transfer; eauto.
Qed.

Lemma for_up_loop_keeps_counter (n : nat) (inc e : double) (block_index : nat) (named : bool) :
  forall s en en',
    chunks_unique_free (m_chunks en) ->
    for_up_loop exec n s inc e block_index named en = Ok en' ->
    program_and_counter en' = program_and_counter en.
Proof.
  induction n as [|n IH]; intros s en en' Hall He; simpl in He;
    destruct (PrimFloat.leb s e); try discriminate; try (injection He as <-; reflexivity).
  bind_inv He en1 H1. apply loop_round_keeps_counter in H1; [|exact Hall].
  rewrite <- H1. eapply IH; [|exact He].
  eapply chunks_unique_free_transfer; eauto.
Qed.

Lemma for_down_loop_keeps_counter (n : nat) (inc e : double) (block_index : nat) (named : bool) :
  forall s en en',
    chunks_unique_free (m_chunks en) ->
    for_down_loop exec n s inc e block_index named en = Ok en' ->
    program_and_counter en' = program_and_counter en.
Proof.
  induction n as [|n IH]; intros s en en' Hall He; simpl in He;
    destruct (PrimFloat.leb e s); try discriminate; try (injection He as <-; reflexivity).
  bind_inv He en1 H1. apply loop_round_keeps_counter in H1; [|exact Hall].
  rewrite <- H1. eapply IH; [|exact He].
  eapply chunks_unique_free_transfer; eauto.
Qed.

Lemma run_statement_keeps_counter (stmt : Statement) (en en' : Engine) :
  stmt_unique_free stmt = true ->
  chunks_unique_free (m_chunks en) ->
  run_statement exec rounds stmt en = Ok en' ->
  program_and_counter en' = program_and_counter en.
Proof.
  destruct stmt; cbn [run_statement stmt_unique_free]; intros Hu Hall He.
  - (* turtle command *)
    bind_inv He x Hx. destruct x as [vals en1].
    destruct (turtle_call fn vals (m_turtle en1)); [|discriminate].
    injection He as <-. rewrite (eval_args_unique_free _ _ _ _ Hu Hx). reflexivity.
  - (* push value *)
    bind_inv He x Hx. destruct x as [val en1].
    rewrite (push_dest_keeps_counter _ _ _ _ He), (eval_unique_free _ Hu _ _ _ Hx).
    reflexivity.
  - eapply push_dest_keeps_counter. exact He.
  - unfold copy_stack in He. bind_inv He limit Hl.
    eapply copy_stack_loop_keeps_counter. exact He.
  - eapply exec_start_fn_call_keeps_counter. exact He.
  - (* call *)
    unfold exec_call_fn in He. bind_inv He c Hc.
    pose proof (get_chunk_unique_free _ _ _ Hall Hc) as Hc'. assert_inv He.
    eapply exec_fn_body_keeps_counter; eauto.
  - bind_inv He o Ho. bind_inv He pos Hpos. injection He as <-. reflexivity.
  - (* call lambda *)
    bind_inv He fn_index Hf. assert_inv He. assert_inv He. bind_inv He i Hi.
    unfold exec_call_lambda in He. bind_inv He c Hc.
    pose proof (get_chunk_unique_free _ _ _ Hall Hc) as Hc'. assert_inv He.
    eapply exec_fn_body_keeps_counter; eauto.
  - (* if *)
    bind_inv He x Hx. destruct x as [c en1].
    rewrite (eval_unique_free _ Hu _ _ _ Hx) in He.
    destruct (truthy c); [eapply exec_call_local_block_keeps_counter; eauto|].
    destruct (negb (else_body =? 0)%nat);
      [eapply exec_call_local_block_keeps_counter; eauto | injection He as <-; reflexivity].
  - (* for count *)
    bind_inv He x Hx. destruct x as [c en1]. bind_inv He count Hc.
    rewrite (eval_unique_free _ Hu _ _ _ Hx) in He.
    eapply for_count_loop_keeps_counter; eauto.
  - (* for range *)
    apply andb_prop in Hu as [Hu1 Hu2].
    bind_inv He x Hx. destruct x as [s en1]. bind_inv He y Hy. destruct y as [e en2].
    rewrite (eval_unique_free _ Hu1 _ _ _ Hx) in Hy.
    rewrite (eval_unique_free _ Hu2 _ _ _ Hy) in He.
    destruct (PrimFloat.leb s e);
      [eapply for_up_loop_keeps_counter | eapply for_down_loop_keeps_counter]; eauto.
  - (* for step *)
    apply andb_prop in Hu as [Hu Hu3]. apply andb_prop in Hu as [Hu1 Hu2].
    bind_inv He x Hx. destruct x as [s en1]. bind_inv He y Hy. destruct y as [inc en2].
    bind_inv He z Hz. destruct z as [e en3].
    rewrite (eval_unique_free _ Hu1 _ _ _ Hx) in Hy.
    rewrite (eval_unique_free _ Hu2 _ _ _ Hy) in Hz.
    rewrite (eval_unique_free _ Hu3 _ _ _ Hz) in He.
    destruct (PrimFloat.leb s e);
      [eapply for_up_loop_keeps_counter | eapply for_down_loop_keeps_counter]; eauto.
  - injection He as <-. reflexivity.
Qed.

Lemma exec_statement_keeps_counter (stmt : Statement) (en en' : Engine) :
  stmt_unique_free stmt = true ->
  chunks_unique_free (m_chunks en) ->
  exec_statement exec rounds stmt en = Ok en' ->
  program_and_counter en' = program_and_counter en.
Proof.
  unfold exec_statement. intros Hu Hall He. bind_inv He en1 H1. injection He as <-.
  rewrite <- (run_statement_keeps_counter _ _ _ Hu Hall H1).
  destruct (negb (m_pen_height_became_negative en1)); [|reflexivity].
  destruct (get_pen_height (m_turtle en1) <? 0); reflexivity.
Qed.

Lemma exec_each_keeps_counter (stmts : list Statement) :
  forall en en',
    forallb stmt_unique_free stmts = true ->
    chunks_unique_free (m_chunks en) ->
    exec_each exec rounds stmts en = Ok en' ->
    program_and_counter en' = program_and_counter en.
Proof.
  induction stmts as [|stmt rest IH]; intros en en' Hu Hall He; simpl in He.
  - injection He as <-. reflexivity.
  - simpl in Hu. apply andb_prop in Hu as [Hu1 Hu2].
    bind_inv He en1 H1. apply exec_statement_keeps_counter in H1; [|assumption ..].
    rewrite <- H1. apply IH; [exact Hu2 | | exact He].
    eapply chunks_unique_free_transfer; eauto.
Qed.

End CounterOfBody.

Section Counter.
Context `{External}.

Lemma exec_statements_keeps_counter (fuel : nat) :
  forall stmts en en',
    forallb stmt_unique_free stmts = true ->
    chunks_unique_free (m_chunks en) ->
    exec_statements fuel stmts en = Ok en' ->
    program_and_counter en' = program_and_counter en.
Proof.
  induction fuel as [|fuel IH]; intros stmts en en' Hu Hall He; simpl in He; [discriminate|].
  bind_inv He ok Hok. destruct (negb ok); [discriminate|].
  eapply exec_each_keeps_counter; eauto.
Qed.

(** X19.  A program none of whose expressions is [unique] leaves the counter
    as it was: the counter is written by evaluations of [unique] only. *)
Lemma execute_main_keeps_counter (fuel chunk_index : nat) (en en' : Engine) :
  chunks_unique_free (m_chunks en) ->
  execute_main fuel chunk_index en = Ok en' ->
  m_next_unique_num en' = m_next_unique_num en.
Proof.
  unfold execute_main, exec_call_fn. intros Hall He.
  assert_inv He. bind_inv He en2 H2. injection He as <-.
  bind_inv H2 c Hc.
  pose proof (get_chunk_unique_free _ _ _ Hall Hc) as Hu. assert_inv H2.
  apply exec_fn_body_keeps_counter in H2; [| apply exec_statements_keeps_counter | exact Hu | exact Hall].
  unfold program_and_counter in H2. cbn in H2. injection H2 as _ Hn. exact Hn.
Qed.

End Counter.

(** * Further verified properties *)

(** ** Token table *)

Section TokenMapFacts.

Lemma emplace_spec {K V} `{Countable K} (key : K) (value : V) (m : gmap K V) :
  (fst (TokenMap.emplace key value m) = true <-> m !! key = None)
  /\ (fst (TokenMap.emplace key value m) = true ->
      snd (TokenMap.emplace key value m) = <[key := value]> m)
  /\ (fst (TokenMap.emplace key value m) = false ->
      snd (TokenMap.emplace key value m) = m).
Proof.
  unfold TokenMap.emplace. destruct (m !! key) eqn:E; simpl.
  - repeat split; try discriminate; auto.
  - repeat split; auto; discriminate.
Qed.

(** X1.  [add_operator] registers a token once: it succeeds exactly when
    the token code is not in the table yet, and then both operator lookups
    return what was registered; a second registration of the code fails and
    changes nothing; the lookups of every other token are unaffected. *)
Theorem add_operator_registers_once (tm : TokenMap.t) (tok : Z) (text : string)
    (pre post : Z) (ltr : bool) :
  let r := TokenMap.add_operator tok text pre post ltr tm in
  (fst r = true <-> TokenMap.get_token_info tm tok = None)
  /\ (fst r = true ->
      TokenMap.get_postfix_op_info (snd r) tok = OpInfo.mk tok post ltr
      /\ TokenMap.get_prefix_op_info (snd r) tok = OpInfo.mk tok pre false
      /\ fst (TokenMap.add_operator tok text pre post ltr (snd r)) = false)
  /\ (fst r = false -> snd r = tm)
  /\ (forall other, other <> tok ->
      TokenMap.get_postfix_op_info (snd r) other = TokenMap.get_postfix_op_info tm other
      /\ TokenMap.get_prefix_op_info (snd r) other = TokenMap.get_prefix_op_info tm other).
Proof.
  intros r. subst r. unfold TokenMap.add_operator, TokenMap.get_token_info,
    TokenMap.get_postfix_op_info, TokenMap.get_prefix_op_info, TokenMap.emplace.
  destruct (TokenMap.m_builtin_tokens tm !! tok) eqn:E; simpl.
  - split; [split; discriminate|]. split; [discriminate|].
    split; [intros _; destruct tm; reflexivity|].
    intros other _. auto.
  - split; [split; auto|]. split.
    + intros _. unfold TokenMap.get_token_info. simpl.
      rewrite lookup_insert_eq. simpl. auto.
    + split; [discriminate|]. intros other Hne.
      unfold TokenMap.get_token_info. simpl.
      rewrite lookup_insert_ne by congruence. auto.
Qed.

(** X2.  [add_keyword] keeps every keyword pointing into the token table; it
    succeeds exactly when both the token code and the spelling are new, and
    then [translate_keyword] maps the spelling to the token; the translation
    of every other spelling is unaffected, also when the registration
    fails. *)
Theorem add_keyword_translates (tm : TokenMap.t) (tok : Z) (text : string) :
  keywords_valid tm ->
  let r := TokenMap.add_keyword tok text tm in
  keywords_valid (snd r)
  /\ (fst r = true <->
      TokenMap.get_token_info tm tok = None /\ TokenMap.m_keywords tm !! text = None)
  /\ (fst r = true -> TokenMap.translate_keyword (snd r) text = tok)
  /\ (forall other, other <> text ->
      TokenMap.translate_keyword (snd r) other = TokenMap.translate_keyword tm other).
Proof.
  intros Hv r. subst r.
  unfold TokenMap.add_keyword, TokenMap.get_token_info, TokenMap.emplace.
  destruct (TokenMap.m_builtin_tokens tm !! tok) eqn:E; simpl.
  - split; [exact Hv|]. split; [split; [discriminate | intros [C _]; discriminate]|].
    split; [discriminate|]. intros other _. reflexivity.
  - assert (Hother : forall text' ptr,
              TokenMap.m_keywords tm !! text' = Some ptr ->
              (<[tok := TokenMap.mkInfo tok text 0 0 false]> (TokenMap.m_builtin_tokens tm))
                !! ptr = TokenMap.m_builtin_tokens tm !! ptr).
    { intros text' ptr Hk. destruct (Hv _ _ Hk) as (info & Hi & _).
      apply lookup_insert_ne. congruence. }
    destruct (TokenMap.m_keywords tm !! text) eqn:Ek; simpl.
    + split.
      * intros text' ptr Hk. simpl in Hk. destruct (Hv _ _ Hk) as (info & Hi & Ht).
        exists info. split; [|exact Ht]. simpl. rewrite (Hother _ _ Hk). exact Hi.
      * split; [split; [discriminate | intros [_ C]; discriminate]|].
        split; [discriminate|]. intros other _.
        unfold TokenMap.translate_keyword. simpl.
        destruct (TokenMap.m_keywords tm !! other) eqn:Eo; [|reflexivity].
        rewrite (Hother _ _ Eo). reflexivity.
    + split.
      * intros text' ptr Hk. simpl in Hk |- *.
        destruct (decide (text' = text)) as [->|Hne].
        -- rewrite lookup_insert_eq in Hk. injection Hk as <-.
           rewrite lookup_insert_eq. eauto.
        -- rewrite lookup_insert_ne in Hk by congruence.
           destruct (Hv _ _ Hk) as (info & Hi & Ht).
           exists info. split; [|exact Ht]. rewrite (Hother _ _ Hk). exact Hi.
      * split; [split; auto|]. split.
        -- intros _. unfold TokenMap.translate_keyword. simpl.
           rewrite !lookup_insert_eq. reflexivity.
        -- intros other Hne. unfold TokenMap.translate_keyword. simpl.
           rewrite lookup_insert_ne by congruence.
           destruct (TokenMap.m_keywords tm !! other) eqn:Eo; [|reflexivity].
           rewrite (Hother _ _ Eo). reflexivity.
Qed.

End TokenMapFacts.

Lemma add_keyword_translates_witness :
  TokenMap.translate_keyword
    (snd (TokenMap.add_keyword Tokens.tk_for "for" TokenMap.empty)) "for" = Tokens.tk_for.
Proof.
  assert (Hv : keywords_valid TokenMap.empty).
  { intros text ptr Hk. simpl in Hk. rewrite lookup_empty in Hk. discriminate. }
  refine (proj1 (proj2 (proj2 (add_keyword_translates TokenMap.empty Tokens.tk_for "for" Hv))) _).
  reflexivity.
Defined.

(** X3.  The table the [Lexer] constructor builds: each of its 24
    registrations succeeds (no token code and no spelling is registered
    twice); the postfix lookups return the documented precedences and
    associativities; ['!'] is no postfix operator and [':'] no operator at
    all, so neither ever binds in postfix position. *)
Theorem lexer_table_is_collision_free :
  let r := Lexer_registrations TokenMap.empty in
  fst r = replicate 24 true
  /\ Forall (fun i => TokenMap.get_postfix_op_info (snd r) (OpInfo.op i) = i) postfix_op_table
  /\ TokenMap.translate_keyword (snd r) "unique" = Tokens.tk_unique
  /\ (forall outer,
        OpInfo.postfix_binds_more_tightly
          (TokenMap.get_postfix_op_info (snd r) Tokens.tk_bang) outer = false
        /\ OpInfo.postfix_binds_more_tightly
             (TokenMap.get_postfix_op_info (snd r) 58) outer = false).
Proof.
  intros r. subst r. split; [vm_compute; reflexivity|].
  split; [repeat constructor|]. split; [vm_compute; reflexivity|].
  intros outer. split; reflexivity.
Qed.

(** ** Signatures *)

Section SignatureFacts.

Lemma next_inv (c : Ascii.ascii) (rest : string) (d : Z) (tc : FunctionSignature.TypeChecker) :
  FunctionSignature.next c rest d = Ok tc ->
  FunctionSignature.p tc = rest
  /\ FunctionSignature.m_paren_depth tc = d + paren_net (String c EmptyString).
Proof.
  unfold FunctionSignature.next. simpl. intros Hn.
  destruct (Ascii.eqb c "(") eqn:E1; [|destruct (Ascii.eqb c ")") eqn:E2];
    simpl in Hn.
  - unfold to_int in Hn. destruct (fits_int (d + 1)); [|discriminate].
    injection Hn as <-. simpl. split; [reflexivity | lia].
  - unfold to_int in Hn. destruct (fits_int (d - 1)); [|discriminate].
    injection Hn as <-. simpl. split; [reflexivity | lia].
  - injection Hn as <-. simpl. split; [reflexivity | lia].
Qed.

Lemma next_fits (c : Ascii.ascii) (rest : string) (d : Z) :
  INT_MIN < d < INT_MAX ->
  FunctionSignature.next c rest d
  = Ok (FunctionSignature.mkChecker rest (d + paren_net (String c EmptyString))).
Proof.
  intros Hd. unfold FunctionSignature.next. simpl.
  destruct (Ascii.eqb c "("); [|destruct (Ascii.eqb c ")")].
  - rewrite to_int_fits by lia. simpl. repeat f_equal; lia.
  - rewrite to_int_fits by lia. simpl. repeat f_equal; lia.
  - simpl. repeat f_equal; lia.
Qed.

Lemma paren_net_cons (c : Ascii.ascii) (s : string) :
  paren_net (String c s) = paren_net (String c EmptyString) + paren_net s.
Proof. simpl. lia. Qed.

Lemma string_app_cons (x : Ascii.ascii) (a b : string) :
  (String x a ++ b = String x (a ++ b))%string.
Proof. reflexivity. Qed.

Lemma string_app_nil_r (a : string) : (a ++ "" = a)%string.
Proof.
  induction a as [|x a IH]; [reflexivity|]. rewrite string_app_cons, IH. reflexivity.
Qed.

Lemma string_app_cancel (a b c : string) : (a ++ b = a ++ c)%string -> b = c.
Proof.
  induction a as [|x a IH]; [exact id|].
  rewrite !string_app_cons. intros Hs. injection Hs. exact IH.
Qed.

Lemma string_app_assoc (a b c : string) : ((a ++ b) ++ c = a ++ (b ++ c))%string.
Proof.
  induction a as [|x a IH]; [reflexivity|]. rewrite !string_app_cons, IH. reflexivity.
Qed.

(** What the loop of [consume_lambda_sig] consumes: the longest common
    prefix of the two signatures. *)
Lemma consume_same_loop_common (other_p : string) :
  forall other_depth tc tc1 other1,
    FunctionSignature.consume_same_loop other_p other_depth tc = Ok (tc1, other1) ->
    exists common,
      other_p = (common ++ FunctionSignature.p other1)%string
      /\ FunctionSignature.p tc = (common ++ FunctionSignature.p tc1)%string
      /\ FunctionSignature.m_paren_depth tc1
         = FunctionSignature.m_paren_depth tc + paren_net common
      /\ (FunctionSignature.p other1 = EmptyString
          \/ FunctionSignature.p tc1 = EmptyString
          \/ exists c r c' r',
               FunctionSignature.p tc1 = String c r
               /\ FunctionSignature.p other1 = String c' r' /\ c <> c').
Proof.
  induction other_p as [|c' rest' IH]; intros od tc tc1 o1 Hl; simpl in Hl.
  - injection Hl as <- <-. exists EmptyString. simpl. repeat split; auto. lia.
  - destruct (FunctionSignature.p tc) as [|c rest] eqn:Ep.
    + injection Hl as <- <-. exists EmptyString. simpl. repeat split; auto. lia.
    + destruct (Ascii.eqb c c') eqn:Ec.
      * apply Ascii.eqb_eq in Ec. subst c'.
        bind_inv Hl tcx Hx. bind_inv Hl ox Ho.
        destruct (next_inv _ _ _ _ Hx) as [Px Dx].
        destruct (IH _ _ _ _ Hl) as (common & H1 & H2 & H3 & H4).
        exists (String c common). rewrite !string_app_cons, <- H1.
        rewrite Px in H2. rewrite <- H2. repeat split; auto.
        rewrite H3, Dx, (paren_net_cons c common). lia.
      * injection Hl as <- <-. exists EmptyString. simpl. rewrite Ep.
        repeat split; auto; [lia|]. right. right. exists c, rest, c', rest'.
        repeat split. intros ->. rewrite Ascii.eqb_refl in Ec. discriminate.
Qed.

(** X4.  Whenever [consume_lambda_sig(sig)] returns, it returns true exactly
    when [sig] is a prefix of what the checker has left of the callee's
    signature; it then stands right after that prefix, with its parenthesis
    depth moved by the parentheses of [sig]; and it never ends on the
    terminator. *)
Theorem consume_lambda_sig_accepts_prefixes (sig : FunctionSignature.t)
    (tc tc' : FunctionSignature.TypeChecker) (b : bool) :
  FunctionSignature.consume_lambda_sig sig tc = Ok (b, tc') ->
  (b = true <-> exists rest, FunctionSignature.p tc = (sig ++ rest)%string)
  /\ (b = true ->
      FunctionSignature.p tc = (sig ++ FunctionSignature.p tc')%string
      /\ FunctionSignature.m_paren_depth tc'
         = FunctionSignature.m_paren_depth tc + paren_net sig)
  /\ FunctionSignature.p tc' <> EmptyString.
Proof.
  unfold FunctionSignature.consume_lambda_sig. intros Hc.
  bind_inv Hc x Hx. destruct x as [tc1 o1].
  bind_inv Hc u Hu. apply assert_Ok_inv in Hu. injection Hc as <- <-.
  destruct (consume_same_loop_common _ _ _ _ _ Hx) as (common & H1 & H2 & H3 & H4).
  assert (Hne : FunctionSignature.p tc1 <> EmptyString).
  { unfold FunctionSignature.more in Hu. destruct (FunctionSignature.p tc1); [discriminate|].
    discriminate. }
  unfold FunctionSignature.more.
  destruct (FunctionSignature.p o1) as [|c' r'] eqn:Eo; simpl.
  - rewrite H1, H2. clear H4.
    rewrite string_app_nil_r. repeat split; eauto.
  - split; [|split; [discriminate | exact Hne]].
    split; [discriminate|]. intros [rest Hrest]. exfalso.
    destruct H4 as [C|[C|(c & r & c2 & r2 & Hp & Ho & Hd)]]; try congruence.
    injection Ho as <- <-.
    rewrite H2, H1, Hp, string_app_assoc in Hrest.
    apply string_app_cancel in Hrest. rewrite string_app_cons in Hrest. congruence.
Qed.

Lemma balanced_loop (body : string) :
  forall rest d,
    balanced_from (d - 1) body = true ->
    0 < d ->
    d + Z.of_nat (String.length body) < INT_MAX ->
    FunctionSignature.consume_lambda_end_loop (body ++ String ")" rest) d
    = Ok (FunctionSignature.mkChecker rest 0).
Proof.
  induction body as [|c body IH]; intros rest d Hb Hd Hmax; simpl in Hb |- *.
  - apply Z.eqb_eq in Hb. replace d with 1 by lia. simpl.
    destruct rest; reflexivity.
  - replace (0 <? d) with true by (symmetry; apply Z.ltb_lt; lia).
    rewrite next_fits by (unfold INT_MIN; simpl in Hmax; lia).
    cbn [mbind outcome_bind FunctionSignature.m_paren_depth].
    simpl in Hmax. simpl (paren_net _).
    destruct (Ascii.eqb c "(") eqn:E1; [|destruct (Ascii.eqb c ")") eqn:E2].
    + apply IH; [|lia|lia]. replace (d + (1 + 0) - 1) with (d - 1 + 1) by lia. exact Hb.
    + apply andb_prop in Hb as [Hpos Hb]. apply Z.ltb_lt in Hpos.
      apply IH; [|lia|lia]. replace (d + (-1 + 0) - 1) with (d - 1 - 1) by lia. exact Hb.
    + apply IH; [|lia|lia]. replace (d + (0 + 0) - 1) with (d - 1) by lia. exact Hb.
Qed.

(** X5.  [consume_lambda_end] skips the rest of a lambda parameter: when
    the checker stands at depth [d > 0] in front of a text whose parentheses
    close down to depth 1, followed by [')'], it returns true and stands
    right after that closing parenthesis, at depth 0.  (For [d = 1] the text
    is balanced: the body of the lambda parameter just entered.) *)
Theorem consume_lambda_end_skips_to_matching_paren (body rest : string) (d : Z) :
  balanced_from (d - 1) body = true ->
  0 < d ->
  d + Z.of_nat (String.length body) < INT_MAX ->
  FunctionSignature.consume_lambda_end
    (FunctionSignature.mkChecker (body ++ String ")" rest) d)
  = Ok (true, FunctionSignature.mkChecker rest 0).
Proof.
  intros Hb Hd Hmax. unfold FunctionSignature.consume_lambda_end. simpl.
  replace (0 <? d) with true by (symmetry; apply Z.ltb_lt; lia). simpl.
  rewrite balanced_loop by assumption. reflexivity.
Qed.

End SignatureFacts.

(** The argument signature ["v"] against the rest ["vv)v"] of a callee's
    signature ["v(vv)v"]. *)
Lemma consume_lambda_sig_accepts_prefixes_witness :
  (true = true <-> exists rest, "vv)v"%string = ("v" ++ rest)%string)
  /\ (true = true ->
      "vv)v"%string = ("v" ++ "v)v")%string /\ 1 = 1 + paren_net "v")
  /\ "v)v"%string <> EmptyString.
Proof.
  exact (consume_lambda_sig_accepts_prefixes "v"
           (FunctionSignature.mkChecker "vv)v" 1)
           (FunctionSignature.mkChecker "v)v" 1) true eq_refl).
Defined.

(** Skipping the lambda parameter [(v(vv))] of ["v(v(vv))v"], entered at its
    opening parenthesis. *)
Lemma consume_lambda_end_skips_to_matching_paren_witness :
  FunctionSignature.consume_lambda_end (FunctionSignature.mkChecker "v(vv))v" 1)
  = Ok (true, FunctionSignature.mkChecker "v" 0).
Proof.
  refine (consume_lambda_end_skips_to_matching_paren "v(vv)" "v" 1 eq_refl _ _).
  - lia.
  - unfold INT_MAX. simpl. lia.
Defined.

(** ** Capture lists *)

Section CaptureFacts.

Lemma value_size_positive (heap : NameHeap) (ptr : nat) (size : Z) :
  value_size_at heap ptr = Ok size -> 1 <= size <= 2.
Proof.
  unfold value_size_at, get_value_size. intros Hs. bind_inv Hs d Hd.
  destruct (m_name_type d); [assert_inv Hs|..]; injection Hs as <-; lia.
Qed.

Lemma add_capture_loop_step (heap : NameHeap) (capture : nat) (rest : list nat)
    (def : nat) (offset : Z) :
  def <> capture ->
  add_capture_loop heap (capture :: rest) def offset
  = (size ← value_size_at heap capture;
     offset' ← to_int (offset + size);
     add_capture_loop heap rest def offset').
Proof.
  intros Hne. simpl. replace (def =? capture)%nat with false
    by (symmetry; apply Nat.eqb_neq; exact Hne).
  unfold value_size_at. destruct (deref_name heap capture); reflexivity.
Qed.

Lemma add_capture_loop_ext (h1 h : NameHeap) (cs : list nat) (def : nat) :
  (forall c, value_size_at h1 c = value_size_at h c) ->
  forall offset, add_capture_loop h1 cs def offset = add_capture_loop h cs def offset.
Proof.
  intros Hext. induction cs as [|c rest IH]; intros offset; [reflexivity|].
  destruct (Nat.eq_dec def c) as [->|Hne].
  - simpl. rewrite Nat.eqb_refl. reflexivity.
  - rewrite !add_capture_loop_step by exact Hne. rewrite Hext.
    destruct (value_size_at h c); simpl; [|reflexivity].
    destruct (to_int _); simpl; auto.
Qed.

Lemma add_capture_loop_found_app (heap : NameHeap) (cs more : list nat) (def : nat) :
  forall offset o,
    add_capture_loop heap cs def offset = Ok (o, true) ->
    add_capture_loop heap (cs ++ more) def offset = Ok (o, true).
Proof.
  induction cs as [|c rest IH]; intros offset o Hl; [discriminate|].
  destruct (Nat.eq_dec def c) as [->|Hne].
  - simpl in Hl |- *. rewrite Nat.eqb_refl in Hl |- *. exact Hl.
  - rewrite <- app_comm_cons. rewrite add_capture_loop_step in Hl |- * by exact Hne.
    destruct (value_size_at heap c); simpl in Hl |- *; [|discriminate].
    destruct (to_int _); simpl in Hl |- *; [|discriminate]. auto.
Qed.

Lemma add_capture_loop_missing_app (heap : NameHeap) (cs more : list nat) (def : nat) :
  forall offset o,
    add_capture_loop heap cs def offset = Ok (o, false) ->
    add_capture_loop heap (cs ++ more) def offset = add_capture_loop heap more def o.
Proof.
  induction cs as [|c rest IH]; intros offset o Hl.
  - injection Hl as <-. reflexivity.
  - destruct (Nat.eq_dec def c) as [->|Hne].
    + simpl in Hl. rewrite Nat.eqb_refl in Hl. discriminate.
    + rewrite <- app_comm_cons. rewrite add_capture_loop_step in Hl |- * by exact Hne.
      destruct (value_size_at heap c); simpl in Hl |- *; [|discriminate].
      destruct (to_int _); simpl in Hl |- *; [|discriminate]. auto.
Qed.

Lemma add_capture_loop_monotone (heap : NameHeap) (cs : list nat) (def : nat) :
  forall offset o found,
    add_capture_loop heap cs def offset = Ok (o, found) -> offset <= o.
Proof.
  induction cs as [|c rest IH]; intros offset o found Hl.
  - injection Hl as <- <-. lia.
  - destruct (Nat.eq_dec def c) as [->|Hne].
    + simpl in Hl. rewrite Nat.eqb_refl in Hl. injection Hl as <- <-. lia.
    + rewrite add_capture_loop_step in Hl by exact Hne.
      bind_inv Hl sz Hs. bind_inv Hl o' Ho.
      apply value_size_positive in Hs. apply IH in Hl.
      unfold to_int in Ho. destruct (fits_int _); [|discriminate]. injection Ho as <-. lia.
Qed.

Lemma heap_lookup_insert_eq (heap : NameHeap) (ptr : nat) (d : NameDefinition) :
  (<[ptr := d]> heap : NameHeap) !! ptr = Some d.
Proof. unfold NameHeap in *. apply lookup_insert_eq. Qed.

Lemma heap_lookup_insert_ne (heap : NameHeap) (ptr ptr' : nat) (d : NameDefinition) :
  ptr <> ptr' -> (<[ptr := d]> heap : NameHeap) !! ptr' = heap !! ptr'.
Proof. unfold NameHeap in *. apply lookup_insert_ne. Qed.

(** Replacing the capture list of a definition changes no size. *)
Lemma set_captures_keeps_sizes (heap : NameHeap) (fndef : nat) (f : NameDefinition)
    (cs : list nat) :
  heap !! fndef = Some f ->
  forall c, value_size_at (<[fndef := set_captures cs f]> heap) c = value_size_at heap c.
Proof.
  intros Hf c. unfold value_size_at, deref_name.
  destruct (Nat.eq_dec c fndef) as [->|Hne].
  - rewrite heap_lookup_insert_eq, Hf. reflexivity.
  - rewrite heap_lookup_insert_ne by congruence. reflexivity.
Qed.

Lemma add_capture_captures (fndef def : nat) (heap heap' : NameHeap) (offset : Z) :
  add_capture fndef def heap = Ok (offset, heap') ->
  captured_at heap' fndef def offset.
Proof.
  unfold add_capture. intros Ha.
  bind_inv Ha d Hd. bind_inv Ha sz Hs. assert_inv Ha. bind_inv Ha f Hf.
  assert (Hsz : value_size_at heap def = Ok sz)
    by (unfold value_size_at; rewrite Hd; exact Hs).
  unfold deref_name in Hf. destruct (heap !! fndef) as [f'|] eqn:Ef; [|discriminate].
  injection Hf as ->.
  destruct (add_capture_loop heap (m_captures f) def 0) as [[o found]|] eqn:El;
    [|discriminate].
  destruct found; injection Ha as <- <-.
  - exists f, sz. auto.
  - exists (set_captures (m_captures f ++ [def]) f), sz.
    rewrite heap_lookup_insert_eq. split; [reflexivity|].
    split; [rewrite set_captures_keeps_sizes by exact Ef; exact Hsz|].
    rewrite (add_capture_loop_ext _ heap) by (apply set_captures_keeps_sizes; exact Ef).
    cbn [m_captures set_captures].
    rewrite (add_capture_loop_missing_app _ _ _ _ _ _ El).
    simpl. rewrite Nat.eqb_refl. reflexivity.
Qed.

Lemma captured_is_found (fndef def : nat) (heap : NameHeap) (offset : Z) :
  captured_at heap fndef def offset ->
  add_capture fndef def heap = Ok (offset, heap).
Proof.
  intros (f & size & Hf & Hs & Hl). unfold add_capture.
  unfold value_size_at in Hs. destruct (deref_name heap def) as [d|]; [|discriminate].
  simpl in Hs |- *. rewrite Hs. simpl.
  assert (Hpos : 1 <= size <= 2).
  { destruct (m_name_type d) eqn:Et; unfold get_value_size in Hs; rewrite Et in Hs;
      [assert_inv Hs|..]; injection Hs as <-; lia. }
  replace (size =? 0) with false by (symmetry; apply Z.eqb_neq; lia). simpl.
  unfold deref_name. rewrite Hf. simpl. rewrite Hl. reflexivity.
Qed.

Lemma captured_stays (fndef d1 d2 : nat) (heap heap' : NameHeap) (o1 o2 : Z) :
  captured_at heap fndef d1 o1 ->
  add_capture fndef d2 heap = Ok (o2, heap') ->
  captured_at heap' fndef d1 o1.
Proof.
  intros (f & size & Hf & Hs & Hl) Ha. unfold add_capture in Ha.
  bind_inv Ha d Hd. bind_inv Ha sz Hsz. assert_inv Ha. bind_inv Ha f' Hf'.
  unfold deref_name in Hf'. rewrite Hf in Hf'. injection Hf' as <-.
  destruct (add_capture_loop heap (m_captures f) d2 0) as [[o found]|]; [|discriminate].
  destruct found; injection Ha as <- <-.
  - exists f, size. auto.
  - exists (set_captures (m_captures f ++ [d2]) f), size.
    rewrite heap_lookup_insert_eq. split; [reflexivity|].
    split; [rewrite set_captures_keeps_sizes by exact Hf; exact Hs|].
    rewrite (add_capture_loop_ext _ heap) by (apply set_captures_keeps_sizes; exact Hf).
    cbn [m_captures set_captures]. apply add_capture_loop_found_app. exact Hl.
Qed.

(** X6.  [add_capture] does not capture a definition twice and never moves
    a capture: asking again for the same definition returns the same offset
    and leaves the capture list alone, also after other definitions were
    captured in between. *)
Theorem add_capture_offsets_are_stable (fndef d1 : nat) (heap heap1 : NameHeap) (o1 : Z) :
  add_capture fndef d1 heap = Ok (o1, heap1) ->
  add_capture fndef d1 heap1 = Ok (o1, heap1)
  /\ (forall d2 o2 heap2,
        add_capture fndef d2 heap1 = Ok (o2, heap2) ->
        add_capture fndef d1 heap2 = Ok (o1, heap2)).
Proof.
  intros Ha. apply add_capture_captures in Ha. split.
  - apply captured_is_found. exact Ha.
  - intros d2 o2 heap2 H2. apply captured_is_found.
    eapply captured_stays; eauto.
Qed.

Lemma captured_slots_disjoint (heap : NameHeap) (cs : list nat) (d1 d2 : nat) (s1 s2 : Z) :
  d1 <> d2 ->
  value_size_at heap d1 = Ok s1 ->
  value_size_at heap d2 = Ok s2 ->
  forall offset o1 o2,
    add_capture_loop heap cs d1 offset = Ok (o1, true) ->
    add_capture_loop heap cs d2 offset = Ok (o2, true) ->
    o1 + s1 <= o2 \/ o2 + s2 <= o1.
Proof.
  intros Hne Hs1 Hs2. induction cs as [|c rest IH]; intros offset o1 o2 H1 H2;
    [discriminate|].
  destruct (Nat.eq_dec d1 c) as [->|N1].
  - simpl in H1. rewrite Nat.eqb_refl in H1. injection H1 as <-.
    rewrite add_capture_loop_step in H2 by congruence.
    rewrite Hs1 in H2. simpl in H2. bind_inv H2 o' Ho.
    apply add_capture_loop_monotone in H2.
    unfold to_int in Ho. destruct (fits_int _); [|discriminate]. injection Ho as <-.
    left. lia.
  - destruct (Nat.eq_dec d2 c) as [->|N2].
    + simpl in H2. rewrite Nat.eqb_refl in H2. injection H2 as <-.
      rewrite add_capture_loop_step in H1 by congruence.
      rewrite Hs2 in H1. simpl in H1. bind_inv H1 o' Ho.
      apply add_capture_loop_monotone in H1.
      unfold to_int in Ho. destruct (fits_int _); [|discriminate]. injection Ho as <-.
      right. lia.
    + rewrite add_capture_loop_step in H1, H2 by assumption.
      bind_inv H1 sz Hs. rewrite Hs in H2. simpl in H2.
      bind_inv H1 o' Ho. rewrite Ho in H2. simpl in H2. eauto.
Qed.

(** X7.  The slots that [add_capture] hands out do not overlap: two
    different captured definitions occupy disjoint ranges
    [offset, offset + size) of the closure. *)
Theorem add_capture_slots_are_disjoint (fndef d1 d2 : nat)
    (heap heap1 heap2 : NameHeap) (o1 o2 : Z) :
  add_capture fndef d1 heap = Ok (o1, heap1) ->
  add_capture fndef d2 heap1 = Ok (o2, heap2) ->
  d1 <> d2 ->
  exists s1 s2,
    value_size_at heap2 d1 = Ok s1
    /\ value_size_at heap2 d2 = Ok s2
    /\ (o1 + s1 <= o2 \/ o2 + s2 <= o1).
Proof.
  intros H1 H2 Hne.
  pose proof (add_capture_captures _ _ _ _ _ H2) as (f2 & s2 & Hf2 & Hs2 & Hl2).
  apply add_capture_captures in H1.
  pose proof (captured_stays _ _ _ _ _ _ _ H1 H2) as (f1 & s1 & Hf1 & Hs1 & Hl1).
  rewrite Hf2 in Hf1. injection Hf1 as <-.
  exists s1, s2. split; [exact Hs1|]. split; [exact Hs2|].
  eapply captured_slots_disjoint; eauto.
Qed.

End CaptureFacts.


(** Capturing [a], then [g], then [a] again, for the function [f]. *)
Lemma add_capture_offsets_are_stable_witness :
  let heap1 := heap_of (add_capture 0 1 example_heap) in
  add_capture 0 1 heap1 = Ok (0, heap1)
  /\ (forall d2 o2 heap2,
        add_capture 0 d2 heap1 = Ok (o2, heap2) ->
        add_capture 0 1 heap2 = Ok (0, heap2)).
Proof.
  exact (add_capture_offsets_are_stable 0 1 example_heap
           (heap_of (add_capture 0 1 example_heap)) 0 eq_refl).
Defined.

Lemma add_capture_slots_are_disjoint_witness :
  exists s1 s2,
    value_size_at (heap_of (add_capture 0 1 (heap_of (add_capture 0 3 example_heap)))) 3
    = Ok s1
    /\ value_size_at (heap_of (add_capture 0 1 (heap_of (add_capture 0 3 example_heap)))) 1
       = Ok s2
    /\ (0 + s1 <= 2 \/ 2 + s2 <= 0).
Proof.
  refine (add_capture_slots_are_disjoint 0 3 1 example_heap
            (heap_of (add_capture 0 3 example_heap))
            (heap_of (add_capture 0 1 (heap_of (add_capture 0 3 example_heap))))
            0 2 eq_refl eq_refl _).
  discriminate.
Defined.

(** ** Importing the names of a module *)

Section ImportFacts.
Context {NamedefType Location : Type}.

Lemma filter_present_insert (name : string) (def : NamedefType)
    (context : gmap string NamedefType) (names : list string) :
  name ∉ names ->
  filter (fun n => is_Some (<[name := def]> context !! n)) names
  = filter (fun n => is_Some (context !! n)) names.
Proof.
  induction names as [|n names IH]; intros Hnot; [reflexivity|].
  apply not_elem_of_cons in Hnot as [Hne Hnot].
  rewrite !filter_cons, IH by exact Hnot.
  rewrite lookup_insert_ne by exact Hne.
  destruct (decide (is_Some (context !! n))); reflexivity.
Qed.

Lemma import_loop_spec (other : list (string * NamedefType)) :
  NoDup other.*1 ->
  forall context duplicates,
    LexicalContext.import_loop other context duplicates
    = (context ∪ list_to_map other,
       duplicates ++ filter (fun n => is_Some (context !! n)) other.*1).
Proof.
  induction other as [|[name def] rest IH]; intros Hnd context duplicates.
  - simpl. rewrite (right_id_L ∅ (∪)), app_nil_r. reflexivity.
  - rewrite fmap_cons in Hnd. apply NoDup_cons in Hnd as [Hnot Hnd].
    cbn [LexicalContext.import_loop]. rewrite fmap_cons, filter_cons. cbn [fst].
    destruct (context !! name) as [d|] eqn:Ec.
    + rewrite IH by exact Hnd. rewrite decide_True by eauto.
      rewrite <- app_assoc. f_equal.
      apply map_eq. intros i. cbn [list_to_map foldr]. simpl.
      rewrite !lookup_union. destruct (decide (i = name)) as [->|Hne].
      * rewrite Ec. rewrite !union_Some_l. reflexivity.
      * rewrite lookup_insert_ne by congruence. reflexivity.
    + rewrite IH by exact Hnd.
      rewrite decide_False by (intros [x Hx]; congruence).
      rewrite filter_present_insert by exact Hnot. f_equal.
      simpl. rewrite <- insert_union_l. apply insert_union_r. exact Ec.
Qed.

(** X8.  [import_names(other)] merges the names of [other] into the
    innermost context without overwriting: a name that the context already
    has keeps its definition and is reported as a duplicate (in the order of
    [other]), every other name is added with its definition from [other],
    and the outer contexts are untouched.  On an empty stack it fails. *)
Theorem import_names_merges_without_overwriting
    (other : list (string * NamedefType))
    (st : list (LexicalContextStack.ContextEntry (NamedefType := NamedefType)
                                                  (Location := Location))) :
  NoDup other.*1 ->
  LexicalContext.import_names other st
  = match st with
    | [] => Fail AssertFailed
    | front :: rest =>
        Ok (filter (fun n => is_Some (LexicalContextStack.context front !! n)) other.*1,
            LexicalContextStack.mkEntry (LexicalContextStack.start front)
              (LexicalContextStack.context front ∪ list_to_map other) :: rest)
    end.
Proof.
  intros Hnd. unfold LexicalContext.import_names.
  destruct st as [|front rest]; [reflexivity|].
  rewrite bool_decide_eq_false_2 by discriminate. simpl.
  rewrite import_loop_spec by exact Hnd. reflexivity.
Qed.

End ImportFacts.

(** Importing [a] and [b] into a scope that already has [b]. *)
Lemma import_names_merges_without_overwriting_witness :
  LexicalContext.import_names [("a"%string, 1%nat); ("b"%string, 2%nat)]
    [LexicalContextStack.mkEntry tt {["b"%string := 7%nat]}]
  = Ok (["b"%string],
        [LexicalContextStack.mkEntry tt
           ({["b"%string := 7%nat]} ∪ {["a"%string := 1%nat; "b"%string := 2%nat]})]).
Proof.
  refine (eq_trans
            (import_names_merges_without_overwriting
               [("a"%string, 1%nat); ("b"%string, 2%nat)]
               [LexicalContextStack.mkEntry tt {["b"%string := 7%nat]}] _) _).
  - apply NoDup_cons. split; [|apply NoDup_singleton].
    apply not_elem_of_cons. split; [discriminate | apply not_elem_of_nil].
  - reflexivity.
Defined.


(** ** Frame stacks: pushes, pops and frame brackets *)

Section FrameStackFacts.
Context {T : Type}.
Variable T0 : T.

Lemma push_all_stack (vals : list T) :
  forall fs : FrameStack.t T,
    FrameStack.m_stack (push_all vals fs) = FrameStack.m_stack fs ++ vals
    /\ FrameStack.m_frame_start (push_all vals fs) = FrameStack.m_frame_start fs
    /\ FrameStack.m_frames (push_all vals fs) = FrameStack.m_frames fs.
Proof.
  induction vals as [|v vals IH]; intros fs; simpl.
  - rewrite app_nil_r. auto.
  - destruct (IH (FrameStack.push v fs)) as (-> & -> & ->). simpl.
    rewrite <- app_assoc. auto.
Qed.

Lemma vsize_app (a b : list T) : vsize (a ++ b) = vsize a + vsize b.
Proof. unfold vsize. rewrite length_app. lia. Qed.

Lemma pop_takes (fs : FrameStack.t T) (size : Z) :
  0 <= FrameStack.m_frame_start fs ->
  0 <= size <= vsize (FrameStack.m_stack fs) - FrameStack.m_frame_start fs ->
  vsize (FrameStack.m_stack fs) < 2 ^ 64 ->
  FrameStack.pop T0 size fs
  = Ok {| FrameStack.m_stack :=
            take (length (FrameStack.m_stack fs) - Z.to_nat size) (FrameStack.m_stack fs);
          FrameStack.m_frame_start := FrameStack.m_frame_start fs;
          FrameStack.m_frames := FrameStack.m_frames fs |}.
Proof.
  intros Hfs Hsize Hlen. unfold FrameStack.pop.
  rewrite !wrap_size_t_small by lia.
  rewrite !assert_true_bind by (apply Z.leb_le; lia).
  rewrite resize_le by lia. do 3 f_equal. unfold vsize. lia.
Qed.

(** X9.  [pop(size)] removes exactly the top [size] entries when
    [0 <= size] and the current frame holds that many, and fails its
    assertion otherwise: it never removes an entry below the frame start. *)
Theorem pop_stays_within_frame (fs : FrameStack.t T) (size : Z) :
  0 <= FrameStack.m_frame_start fs <= vsize (FrameStack.m_stack fs) ->
  vsize (FrameStack.m_stack fs) < 2 ^ 63 ->
  INT_MIN <= size <= INT_MAX ->
  FrameStack.pop T0 size fs
  = if (0 <=? size)
       && (size <=? vsize (FrameStack.m_stack fs) - FrameStack.m_frame_start fs)
    then Ok {| FrameStack.m_stack :=
                 take (length (FrameStack.m_stack fs) - Z.to_nat size)
                      (FrameStack.m_stack fs);
               FrameStack.m_frame_start := FrameStack.m_frame_start fs;
               FrameStack.m_frames := FrameStack.m_frames fs |}
    else Fail AssertFailed.
Proof.
  intros Hfs Hlen Hsize.
  destruct (Z.leb_spec 0 size) as [H0|H0];
    [|unfold FrameStack.pop; replace (0 <=? size) with false
        by (symmetry; apply Z.leb_gt; lia); reflexivity].
  destruct (Z.leb_spec size
              (vsize (FrameStack.m_stack fs) - FrameStack.m_frame_start fs)) as [H1|H1].
  - simpl. apply pop_takes; lia.
  - simpl. unfold FrameStack.pop, INT_MAX in *.
    replace (0 <=? size) with true by (symmetry; apply Z.leb_le; lia).
    rewrite (wrap_size_t_small (FrameStack.m_frame_start fs + size)) by lia.
    replace (FrameStack.m_frame_start fs + size <=? vsize (FrameStack.m_stack fs))
      with false by (symmetry; apply Z.leb_gt; lia).
    reflexivity.
Qed.

Lemma push_frame_args_result (fs : FrameStack.t T) (args_size params_size : Z) :
  0 <= params_size <= args_size ->
  0 <= FrameStack.m_frame_start fs ->
  FrameStack.m_frame_start fs + args_size <= vsize (FrameStack.m_stack fs) ->
  vsize (FrameStack.m_stack fs) < 2 ^ 64 ->
  FrameStack.push_frame_args T0 args_size params_size fs
  = Ok {| FrameStack.m_stack :=
            take (Z.to_nat (vsize (FrameStack.m_stack fs) - args_size + params_size))
                 (FrameStack.m_stack fs);
          FrameStack.m_frame_start := vsize (FrameStack.m_stack fs) - args_size;
          FrameStack.m_frames := FrameStack.m_frames fs ++ [FrameStack.m_frame_start fs] |}.
Proof.
  intros Hp Hs Ha Hlen. unfold FrameStack.push_frame_args.
  rewrite !(wrap_size_t_small (vsize (FrameStack.m_stack fs) - args_size)) by lia.
  rewrite !assert_true_bind by (apply Z.leb_le; lia).
  do 2 f_equal.
  destruct (Z.ltb_spec params_size args_size) as [Hlt|Hge].
  - rewrite wrap_size_t_small by lia. apply resize_le. lia.
  - rewrite take_ge; [reflexivity|]. unfold vsize in *. lia.
Qed.

(** X10.  A call bracket: after [push_frame(args_size, params_size)] and
    whatever the callee pushes on top, [pop_frame] reports the callee's
    frame size, removes the callee's entries together with all [args_size]
    argument entries, and gives the caller its frame start and saved
    frames back. *)
Theorem call_frame_bracket (fs fs1 : FrameStack.t T) (args_size params_size : Z)
    (locals : list T) :
  0 <= params_size <= args_size ->
  0 <= FrameStack.m_frame_start fs ->
  FrameStack.m_frame_start fs + args_size <= vsize (FrameStack.m_stack fs) ->
  vsize (FrameStack.m_stack fs) + vsize locals <= INT_MAX ->
  FrameStack.push_frame_args T0 args_size params_size fs = Ok fs1 ->
  FrameStack.pop_frame T0 (push_all locals fs1)
  = Ok (params_size + vsize locals,
        {| FrameStack.m_stack :=
             take (Z.to_nat (vsize (FrameStack.m_stack fs) - args_size))
                  (FrameStack.m_stack fs);
           FrameStack.m_frame_start := FrameStack.m_frame_start fs;
           FrameStack.m_frames := FrameStack.m_frames fs |}).
Proof.
  intros Hp Hs Ha Hmax Hpush. unfold INT_MAX in Hmax.
  pose proof (vsize_nonneg locals) as Hl.
  rewrite push_frame_args_result in Hpush by lia. injection Hpush as <-.
  unfold FrameStack.pop_frame, FrameStack.get_frame_size.
  destruct (push_all_stack locals
              {| FrameStack.m_stack :=
                   take (Z.to_nat (vsize (FrameStack.m_stack fs) - args_size + params_size))
                        (FrameStack.m_stack fs);
                 FrameStack.m_frame_start := vsize (FrameStack.m_stack fs) - args_size;
                 FrameStack.m_frames :=
                   FrameStack.m_frames fs ++ [FrameStack.m_frame_start fs] |})
    as (-> & -> & ->).
  cbn [FrameStack.m_stack FrameStack.m_frame_start FrameStack.m_frames].
  rewrite bool_decide_eq_false_2 by (intros C; apply app_eq_nil in C as [_ C]; discriminate).
  rewrite last_snoc, removelast_last.
  assert (Hcut : vsize (take (Z.to_nat (vsize (FrameStack.m_stack fs) - args_size + params_size))
                          (FrameStack.m_stack fs))
                 = vsize (FrameStack.m_stack fs) - args_size + params_size).
  { unfold vsize in *. rewrite length_take. lia. }
  rewrite vsize_app, Hcut.
  replace (vsize (FrameStack.m_stack fs) - args_size + params_size + vsize locals
           - (vsize (FrameStack.m_stack fs) - args_size))
    with (params_size + vsize locals) by lia.
  rewrite wrap_size_t_small by lia.
  rewrite to_int_fits by (unfold INT_MIN, INT_MAX; lia).
  cbn [negb assert mbind outcome_bind mret outcome_ret].
  rewrite pop_takes;
    cbn [FrameStack.m_stack FrameStack.m_frame_start FrameStack.m_frames];
    rewrite ?vsize_app, ?Hcut; try lia.
  cbn [mbind outcome_bind]. do 3 f_equal.
  rewrite length_app, length_take. unfold vsize in *.
  rewrite take_app_le by (rewrite length_take; lia).
  rewrite take_take. f_equal. lia.
Qed.

(** X11.  A block bracket: after [push_frame()] and whatever the block
    pushes on top, [pop_frame] reports how much the block pushed and gives
    the stack back exactly as it was. *)
Theorem block_frame_bracket (fs fs1 : FrameStack.t T) (locals : list T) :
  0 <= FrameStack.m_frame_start fs ->
  vsize (FrameStack.m_stack fs) + vsize locals <= INT_MAX ->
  FrameStack.push_frame fs = Ok fs1 ->
  FrameStack.pop_frame T0 (push_all locals fs1) = Ok (vsize locals, fs).
Proof.
  intros Hs Hmax Hpush. unfold INT_MAX in Hmax.
  pose proof (vsize_nonneg locals) as Hl.
  pose proof (vsize_nonneg (FrameStack.m_stack fs)) as Hst.
  unfold FrameStack.push_frame in Hpush.
  bind_inv Hpush u Hle. apply assert_Ok_inv, Z.leb_le in Hle. injection Hpush as <-.
  unfold FrameStack.pop_frame, FrameStack.get_frame_size.
  destruct (push_all_stack locals
              {| FrameStack.m_stack := FrameStack.m_stack fs;
                 FrameStack.m_frame_start := vsize (FrameStack.m_stack fs);
                 FrameStack.m_frames :=
                   FrameStack.m_frames fs ++ [FrameStack.m_frame_start fs] |})
    as (-> & -> & ->).
  cbn [FrameStack.m_stack FrameStack.m_frame_start FrameStack.m_frames].
  rewrite bool_decide_eq_false_2 by (intros C; apply app_eq_nil in C as [_ C]; discriminate).
  rewrite last_snoc, removelast_last, vsize_app.
  replace (vsize (FrameStack.m_stack fs) + vsize locals - vsize (FrameStack.m_stack fs))
    with (vsize locals) by lia.
  rewrite wrap_size_t_small by lia.
  rewrite to_int_fits by (unfold INT_MIN, INT_MAX; lia).
  cbn [negb assert mbind outcome_bind mret outcome_ret].
  rewrite pop_takes;
    cbn [FrameStack.m_stack FrameStack.m_frame_start FrameStack.m_frames];
    rewrite ?vsize_app; try lia.
  cbn [mbind outcome_bind].
  destruct fs as [stack start frames]. simpl. do 3 f_equal.
  rewrite length_app. unfold vsize.
  rewrite take_app_le by lia. apply take_ge. lia.
Qed.

(** X12.  What a frame sees: after pushing [vals], the entry at frame
    offset [frame size + i] is the [i]-th value pushed, and every offset
    inside the frame as it was reads what it read before. *)
Theorem pushed_values_are_read_back (fs : FrameStack.t T) (vals : list T) :
  0 <= FrameStack.m_frame_start fs <= vsize (FrameStack.m_stack fs) ->
  vsize (FrameStack.m_stack fs) + vsize vals < 2 ^ 64 ->
  let size := vsize (FrameStack.m_stack fs) - FrameStack.m_frame_start fs in
  (forall (i : nat) (v : T),
      vals !! i = Some v ->
      FrameStack.at_offset (push_all vals fs) (size + Z.of_nat i) = Ok v)
  /\ (forall offset : Z,
        0 <= offset < size ->
        FrameStack.at_offset (push_all vals fs) offset = FrameStack.at_offset fs offset).
Proof.
  intros Hfs Hlen size. subst size. pose proof (vsize_nonneg vals) as Hl.
  unfold FrameStack.at_offset.
  destruct (push_all_stack vals fs) as (-> & -> & _). split.
  - intros i v Hv. apply lookup_lt_Some in Hv as Hi.
    assert (Hiv : Z.of_nat i < vsize vals) by (unfold vsize; lia).
    rewrite wrap_size_t_small by lia. rewrite vsize_app.
    rewrite !assert_true_bind
      by (first [apply Z.leb_le; lia | apply Z.ltb_lt; lia]).
    replace (Z.to_nat (FrameStack.m_frame_start fs
                       + (vsize (FrameStack.m_stack fs) - FrameStack.m_frame_start fs
                          + Z.of_nat i)))
      with (length (FrameStack.m_stack fs) + i)%nat by (unfold vsize; lia).
    rewrite lookup_app_r by lia.
    replace (length (FrameStack.m_stack fs) + i - length (FrameStack.m_stack fs))%nat
      with i by lia.
    rewrite Hv. reflexivity.
  - intros offset Ho. rewrite wrap_size_t_small by lia. rewrite vsize_app.
    rewrite !assert_true_bind
      by (first [apply Z.leb_le; lia | apply Z.ltb_lt; lia]).
    rewrite lookup_app_l by (unfold vsize in *; lia). reflexivity.
Qed.

End FrameStackFacts.

(** A frame of two entries above one saved frame. *)
Lemma pop_stays_within_frame_witness :
  FrameStack.pop 0 2 (FrameStack.mk [5; 6; 7] 1 [0])
  = Ok (FrameStack.mk [5] 1 [0])
  /\ FrameStack.pop 0 3 (FrameStack.mk [5; 6; 7] 1 [0]) = Fail AssertFailed.
Proof.
  split.
  - refine (pop_stays_within_frame 0 (FrameStack.mk [5; 6; 7] 1 [0]) 2 _ _ _);
      unfold vsize, INT_MIN, INT_MAX; simpl; lia.
  - refine (pop_stays_within_frame 0 (FrameStack.mk [5; 6; 7] 1 [0]) 3 _ _ _);
      unfold vsize, INT_MIN, INT_MAX; simpl; lia.
Defined.

(** A call with three argument entries to a function of two parameter
    entries, which pushes one local. *)
Lemma call_frame_bracket_witness :
  FrameStack.pop_frame 0
    (push_all [9] (FrameStack.mk [5; 6; 7] 1 [0; 1]))
  = Ok (3, FrameStack.mk [5] 1 [0]).
Proof.
  refine (call_frame_bracket 0 (FrameStack.mk [5; 6; 7; 8] 1 [0])
            (FrameStack.mk [5; 6; 7] 1 [0; 1]) 3 2 [9] _ _ _ _ eq_refl);
    unfold vsize, INT_MAX; simpl; lia.
Defined.

Lemma block_frame_bracket_witness :
  FrameStack.pop_frame 0
    (push_all [8; 9] (FrameStack.mk [5; 6; 7] 3 [0; 1]))
  = Ok (2, FrameStack.mk [5; 6; 7] 1 [0]).
Proof.
  refine (block_frame_bracket 0 (FrameStack.mk [5; 6; 7] 1 [0])
            (FrameStack.mk [5; 6; 7] 3 [0; 1]) [8; 9] _ _ eq_refl);
    unfold vsize, INT_MAX; simpl; lia.
Defined.

Lemma pushed_values_are_read_back_witness :
  let fs := FrameStack.mk [5; 6; 7] 1 [0] in
  (forall (i : nat) (v : Z),
      [8; 9] !! i = Some v ->
      FrameStack.at_offset (push_all [8; 9] fs) (2 + Z.of_nat i) = Ok v)
  /\ (forall offset : Z,
        0 <= offset < 2 ->
        FrameStack.at_offset (push_all [8; 9] fs) offset = FrameStack.at_offset fs offset).
Proof.
  refine (pushed_values_are_read_back (FrameStack.mk [5; 6; 7] 1 [0]) [8; 9] _ _);
    unfold vsize; simpl; lia.
Defined.


(** ** Scopes and name lookup *)

Section ScopeFacts.
Context {NamedefType Location : Type}.
Variable Namedef0 : NamedefType.
Variable Location0 : Location.

Lemma lookup_from_spec (name : string) (st : (@LexicalContextStack.t NamedefType Location)) :
  forall depth,
    match LexicalContextStack.lookup_from depth name st with
    | Some p =>
        LexicalContextStack.ptr_name p = name
        /\ (depth <= LexicalContextStack.ptr_context p)%nat
        /\ (exists e,
              st !! (LexicalContextStack.ptr_context p - depth)%nat = Some e
              /\ is_Some (LexicalContextStack.context e !! name))
        /\ (forall j e,
              (j < LexicalContextStack.ptr_context p - depth)%nat ->
              st !! j = Some e -> LexicalContextStack.context e !! name = None)
    | None => forall e, e ∈ st -> LexicalContextStack.context e !! name = None
    end.
Proof.
  induction st as [|entry rest IH]; intros depth; simpl.
  - intros e He. apply elem_of_nil in He. contradiction.
  - destruct (LexicalContextStack.context entry !! name) as [d|] eqn:Ec.
    + simpl. rewrite Nat.sub_diag. repeat split; [lia | | intros j e Hj; lia].
      exists entry. split; [reflexivity | rewrite Ec; eauto].
    + specialize (IH (S depth)).
      destruct (LexicalContextStack.lookup_from (S depth) name rest) as [p|].
      * destruct IH as (Hn & Hd & (e & He & Hs) & Hmin).
        repeat split; [exact Hn | lia | |].
        -- exists e. split; [|exact Hs].
           replace (LexicalContextStack.ptr_context p - depth)%nat
             with (S (LexicalContextStack.ptr_context p - S depth)) by lia.
           exact He.
        -- intros j e' Hj Hl. destruct j as [|j]; [injection Hl as <-; exact Ec|].
           apply (Hmin j e'); [lia | exact Hl].
      * intros e He. apply elem_of_cons in He as [->|He]; [exact Ec | auto].
Qed.

(** X13.  [lookup_name] searches from the innermost context outwards: the
    pointer it returns is to a definition of that name, in the first
    context that has one, and it returns null only when no context of the
    stack defines the name. *)
Theorem lookup_name_finds_innermost (name : string) (st : (@LexicalContextStack.t NamedefType Location)) :
  match LexicalContextStack.lookup_name name st with
  | Some p =>
      LexicalContextStack.ptr_name p = name
      /\ is_Some (LexicalContextStack.deref st p)
      /\ (forall j e,
            (j < LexicalContextStack.ptr_context p)%nat ->
            st !! j = Some e -> LexicalContextStack.context e !! name = None)
  | None => forall e, e ∈ st -> LexicalContextStack.context e !! name = None
  end.
Proof.
  unfold LexicalContextStack.lookup_name.
  pose proof (lookup_from_spec name st 0) as Hspec.
  destruct (LexicalContextStack.lookup_from 0 name st) as [p|]; [|exact Hspec].
  destruct Hspec as (Hn & _ & (e & He & Hs) & Hmin).
  rewrite Nat.sub_0_r in He. split; [exact Hn|]. split.
  - unfold LexicalContextStack.deref. rewrite He, Hn. exact Hs.
  - intros j e' Hj. apply Hmin. lia.
Qed.

Lemma lookup_from_other (name other : string) (d : NamedefType)
    (front : LexicalContextStack.ContextEntry) (rest : (@LexicalContextStack.t NamedefType Location)) (depth : nat) :
  other <> name ->
  LexicalContextStack.lookup_from depth other
    (LexicalContextStack.mkEntry (LexicalContextStack.start front)
       (<[name := d]> (LexicalContextStack.context front)) :: rest)
  = LexicalContextStack.lookup_from depth other (front :: rest).
Proof.
  intros Hne. simpl. rewrite lookup_insert_ne by congruence. reflexivity.
Qed.

(** X14.  A name that [define_name] has just defined is what [lookup_name]
    finds for it, with the value-initialised definition behind the pointer;
    the definitions and lookups of all other names are as before. *)
Theorem define_name_then_lookup (name : string) (accept_dup : bool) (st st' : (@LexicalContextStack.t NamedefType Location))
    (p : LexicalContextStack.NamedefPtr) :
  LexicalContextStack.define_name Namedef0 name accept_dup st = Ok (Some p, st') ->
  LexicalContextStack.lookup_name name st' = Some p
  /\ LexicalContextStack.deref st' p = Some Namedef0
  /\ (forall other,
        other <> name ->
        LexicalContextStack.lookup_name other st'
        = LexicalContextStack.lookup_name other st)
  /\ (forall q,
        LexicalContextStack.ptr_name q <> name ->
        LexicalContextStack.deref st' q = LexicalContextStack.deref st q).
Proof.
  unfold LexicalContextStack.define_name. intros Hd.
  destruct st as [|front rest]; [discriminate|].
  rewrite bool_decide_eq_false_2 in Hd by discriminate. simpl in Hd.
  destruct (LexicalContextStack.context front !! name) eqn:Ec; [discriminate|].
  injection Hd as <- <-. repeat split.
  - unfold LexicalContextStack.lookup_name. simpl. rewrite lookup_insert_eq. reflexivity.
  - unfold LexicalContextStack.deref. simpl. apply lookup_insert_eq.
  - intros other Hne. apply lookup_from_other. exact Hne.
  - intros [[|i] n] Hq; unfold LexicalContextStack.deref; simpl in *; [|reflexivity].
    apply lookup_insert_ne. congruence.
Qed.

Lemma lookup_from_shift (name : string) (st : (@LexicalContextStack.t NamedefType Location)) :
  forall depth,
    LexicalContextStack.lookup_from (S depth) name st
    = outer_ptr <$> LexicalContextStack.lookup_from depth name st.
Proof.
  induction st as [|entry rest IH]; intros depth; simpl; [reflexivity|].
  destruct (LexicalContextStack.context entry !! name); [reflexivity | apply IH].
Qed.

(** X15.  An inner scope shadows and then vanishes: in a context just
    pushed, every name is looked up as outside (one context further out) and
    can be defined, whether an outer context has it or not; [lookup_name]
    then finds the inner definition; and [pop_context] gives the stack back
    as it was before [push_context]. *)
Theorem inner_scope_shadows_and_vanishes (name : string) (accept_dup : bool) (st : (@LexicalContextStack.t NamedefType Location)) :
  let inner := LexicalContextStack.push_context Location0 st in
  (forall other,
      LexicalContextStack.lookup_name other inner
      = outer_ptr <$> LexicalContextStack.lookup_name other st)
  /\ exists st1,
       LexicalContextStack.define_name Namedef0 name accept_dup inner
       = Ok (Some (LexicalContextStack.mkPtr 0 name), st1)
       /\ LexicalContextStack.lookup_name name st1
          = Some (LexicalContextStack.mkPtr 0 name)
       /\ LexicalContextStack.pop_context st1 = st.
Proof.
  split.
  - intros other. unfold LexicalContextStack.lookup_name,
      LexicalContextStack.push_context. simpl.
    rewrite lookup_empty. apply lookup_from_shift.
  - unfold LexicalContextStack.define_name, LexicalContextStack.push_context.
    rewrite bool_decide_eq_false_2 by discriminate. simpl. rewrite lookup_empty.
    eexists. split; [reflexivity|]. split; [|reflexivity].
    unfold LexicalContextStack.lookup_name. simpl. rewrite lookup_insert_eq. reflexivity.
Qed.

End ScopeFacts.

(** Defining [x] in a scope that has [y]. *)
Lemma define_name_then_lookup_witness :
  let st' := [LexicalContextStack.mkEntry tt {["x"%string := 0%nat; "y"%string := 4%nat]}] in
  let p := LexicalContextStack.mkPtr 0 "x" in
  LexicalContextStack.lookup_name "x" st' = Some p
  /\ LexicalContextStack.deref st' p = Some 0%nat
  /\ (forall other,
        other <> "x"%string ->
        LexicalContextStack.lookup_name other st'
        = LexicalContextStack.lookup_name other
            [LexicalContextStack.mkEntry tt {["y"%string := 4%nat]}])
  /\ (forall q,
        LexicalContextStack.ptr_name q <> "x"%string ->
        LexicalContextStack.deref st' q
        = LexicalContextStack.deref
            [LexicalContextStack.mkEntry tt {["y"%string := 4%nat]}] q).
Proof.
  exact (define_name_then_lookup 0%nat "x" false
           [LexicalContextStack.mkEntry tt {["y"%string := 4%nat]}]
           [LexicalContextStack.mkEntry tt {["x"%string := 0%nat; "y"%string := 4%nat]}]
           (LexicalContextStack.mkPtr 0 "x") eq_refl).
Defined.


(** ** Counting loops *)

Section CountLoop.
Context `{External}.
Variable exec : list Statement -> Engine -> outcome Engine.
Variable block_index : nat.
Variable has_named_loop_var : bool.





End CountLoop.



(** ** Expressions are read-only *)

Section ReadOnly.
Context `{External}.

Lemma eval_counter_monotone :
  forall e en v en', eval e en = Ok (v, en') ->
    m_next_unique_num en <= m_next_unique_num en'.
Proof.
  apply (Expr_mutind
    (fun e => forall en v en', eval e en = Ok (v, en') ->
                m_next_unique_num en <= m_next_unique_num en')
    (fun o => forall en v en', eval_operand o en = Ok (v, en') ->
                m_next_unique_num en <= m_next_unique_num en')).
  - discriminate.
  - intros val en v en' [= <- <-]. lia.
  - intros source offset en v en' He.
    destruct source; simpl in He; bind_inv He x Hx; injection He as <- <-; lia.
  - intros en v en' [= <- <-]. lia.
  - intros en v en' [= <- <-]. lia.
  - intros en v en' [= <- <-]. lia.
  - intros en v en' He. simpl in He. bind_inv He n' Hn. injection He as <- <-.
    unfold to_int in Hn. destruct (fits_int _); [|discriminate].
    injection Hn as <-. simpl. lia.
  - intros op rhs IH en v en' He. simpl in He.
    bind_inv He x Hx. destruct x as [r en1]. injection He as <- <-. eauto.
  - intros op lhs IHl rhs IHr en v en' He. simpl in He.
    destruct args_right_to_left.
    + bind_inv He x Hx. destruct x as [r en1].
      bind_inv He y Hy. destruct y as [l en2]. injection He as <- <-.
      apply IHr in Hx. apply IHl in Hy. lia.
    + bind_inv He x Hx. destruct x as [l en1].
      bind_inv He y Hy. destruct y as [r en2]. injection He as <- <-.
      apply IHl in Hx. apply IHr in Hy. lia.
  - intros op lhs rhs IH en v en' He. simpl in He.
    bind_inv He x Hx. destruct x as [r en1]. injection He as <- <-. eauto.
  - intros op lhs IH rhs en v en' He. simpl in He.
    bind_inv He x Hx. destruct x as [l en1]. injection He as <- <-. eauto.
  - intros l IHl r IHr t IHt en v en' He. simpl in He.
    bind_inv He x Hx. destruct x as [c en1]. apply IHl in Hx.
    destruct (truthy c); [apply IHr in He | apply IHt in He]; lia.
  - intros c en v en' [= <- <-]. lia.
  - intros e IH en v en' He. simpl in He. eauto.
Qed.

(** X18.  Calling an expression has no effect on the engine but on the
    [unique] counter: the program, the two stacks, the turtle and the flags
    are as before, and the counter never goes back. *)
Theorem expression_evaluation_is_read_only (e : Expr) (en en' : Engine) (v : double) :
  eval e en = Ok (v, en') ->
  en' = set_next_unique_num (m_next_unique_num en') en
  /\ m_next_unique_num en <= m_next_unique_num en'.
Proof.
  intros He. split.
  - destruct (eval_changes_counter_only _ _ _ _ He) as [n ->]. reflexivity.
  - eapply eval_counter_monotone. exact He.
Qed.

End ReadOnly.

(** [unique + x] in a fresh engine. *)
Lemma expression_evaluation_is_read_only_witness :
  let en := new_engine (H := recording_turtle) [] [] in
  set_next_unique_num 2 en = set_next_unique_num 2 en /\ 1 <= 2.
Proof.
  exact (expression_evaluation_is_read_only (H := recording_turtle)
           (binary_closure_ee Bplus unique_val_expr turtle_x_expr)
           (new_engine (H := recording_turtle) [] [])
           (set_next_unique_num 2 (new_engine (H := recording_turtle) [] []))
           1%float eq_refl).
Defined.

(** [for 1..5..10 { r 0 }] does not call [unique]. *)
Lemma execute_main_keeps_counter_witness :
  m_next_unique_num for_1_5_10_final = 1.
Proof.
  refine (execute_main_keeps_counter (H := recording_turtle) 5 2
            (new_engine for_1_5_10_program []) for_1_5_10_final _ eq_refl).
  repeat constructor.
Defined.


(** ** What execution never changes *)

Section Evolves.
Context `{External}.

Lemma evolves_refl (en : Engine) : evolves en en.
Proof. unfold evolves. repeat split; auto; lia. Qed.

Lemma evolves_trans (en1 en2 en3 : Engine) :
  evolves en1 en2 -> evolves en2 en3 -> evolves en1 en3.
Proof.
  unfold evolves. intros (A1 & A2 & A3 & A4) (B1 & B2 & B3 & B4).
  repeat split; [congruence | congruence | auto | lia].
Qed.

Lemma evolves_set_stack (s : EngineStack.t) (en : Engine) : evolves en (set_stack s en).
Proof. unfold evolves. simpl. repeat split; auto; lia. Qed.

Lemma evolves_set_turtle (tu : Turtle) (en : Engine) : evolves en (set_turtle tu en).
Proof. unfold evolves. simpl. repeat split; auto; lia. Qed.

Lemma eval_evolves (e : Expr) (en en' : Engine) (v : double) :
  eval e en = Ok (v, en') -> evolves en en'.
Proof.
  intros He. pose proof (eval_counter_monotone _ _ _ _ He) as Hm.
  destruct (eval_changes_counter_only _ _ _ _ He) as [n ->].
  unfold evolves. simpl in *. repeat split; auto.
Qed.

Lemma eval_list_evolves (args : list Expr) :
  forall en vs en', eval_list args en = Ok (vs, en') -> evolves en en'.
Proof.
  induction args as [|a rest IH]; intros en vs en' He; simpl in He.
  - injection He as <- <-. apply evolves_refl.
  - bind_inv He x Hx. destruct x as [v en1].
    bind_inv He y Hy. destruct y as [ws en2]. injection He as <- <-.
    eapply evolves_trans; [eapply eval_evolves; exact Hx | eapply IH; exact Hy].
Qed.

Lemma eval_args_evolves (args : list Expr) (en en' : Engine) (vs : list double) :
  eval_args args en = Ok (vs, en') -> evolves en en'.
Proof.
  unfold eval_args. destruct args_right_to_left; intros He.
  - bind_inv He x Hx. destruct x as [ws en1]. injection He as <- <-.
    eapply eval_list_evolves. exact Hx.
  - eapply eval_list_evolves. exact He.
Qed.

Lemma push_dest_evolves (dest : ValueDomain) (v : double) (en en' : Engine) :
  push_dest dest v en = Ok en' -> evolves en en'.
Proof. destruct dest; simpl; intros Hp; inv_ok; apply evolves_set_stack. Qed.

Lemma copy_stack_loop_evolves (n : nat) (source dest : ValueDomain) :
  forall i en en', copy_stack_loop n source dest i en = Ok en' -> evolves en en'.
Proof.
  induction n as [|n IH]; intros i en en' Hc; simpl in Hc.
  - injection Hc as <-. apply evolves_refl.
  - bind_inv Hc v Hv. bind_inv Hc en1 Hp.
    eapply evolves_trans; [eapply push_dest_evolves; exact Hp | eapply IH; exact Hc].
Qed.

Lemma exec_start_fn_call_evolves (dest : ValueDomain) (self lam : bool)
    (chunk_index : nat) (en en' : Engine) :
  exec_start_fn_call dest self lam chunk_index en = Ok en' -> evolves en en'.
Proof.
  unfold exec_start_fn_call. intros He. bind_inv He en1 H1. bind_inv He c Hc.
  assert (E1 : evolves en en1).
  { destruct lam; [eapply push_dest_evolves; exact H1 | injection H1 as <-; apply evolves_refl]. }
  eapply evolves_trans; [exact E1|].
  destruct (is_closure c).
  - bind_inv He pos Hpos. eapply push_dest_evolves. exact He.
  - destruct lam; [eapply push_dest_evolves; exact He
                  | injection He as <-; apply evolves_refl].
Qed.

End Evolves.

Section EvolvesOfBody.
Context `{External}.
Variable exec : list Statement -> Engine -> outcome Engine.
Hypothesis exec_evolves :
  forall stmts en en', exec stmts en = Ok en' -> evolves en en'.
Variable rounds : nat.

Lemma exec_fn_body_evolves (args_size : EngineStack.Size) (params_size : Z)
    (hcp : bool) (stmts : list Statement) (en en' : Engine) :
  exec_fn_body exec args_size params_size hcp stmts en = Ok en' -> evolves en en'.
Proof.
  unfold exec_fn_body. intros He.
  bind_inv He s1 H1. bind_inv He en2 H2. bind_inv He x H3. destruct x as [sz s3].
  bind_inv He s4 H4. injection He as <-.
  eapply evolves_trans; [apply (evolves_set_stack s1)|].
  eapply evolves_trans; [eapply exec_evolves; exact H2 | apply evolves_set_stack].
Qed.

Lemma exec_call_local_block_evolves (block_index : nat) (en en' : Engine) :
  exec_call_local_block exec block_index en = Ok en' -> evolves en en'.
Proof.
  unfold exec_call_local_block. intros He. bind_inv He c Hc. assert_inv He.
  bind_inv He en1 H1. bind_inv He s2 H2. injection He as <-.
  eapply evolves_trans; [eapply exec_evolves; exact H1 | apply evolves_set_stack].
Qed.

Lemma loop_round_evolves (block_index : nat) (named : bool) (v : double)
    (en en' : Engine) :
  loop_round exec block_index named v en = Ok en' -> evolves en en'.
Proof.
  unfold loop_round. intros He. apply exec_call_local_block_evolves in He.
  destruct named; [|exact He].
  eapply evolves_trans; [apply evolves_set_stack | exact He].
Qed.

Lemma for_count_loop_evolves (n : nat) (count : Z) (block_index : nat) (named : bool) :
  forall i en en',
    for_count_loop exec n i count block_index named en = Ok en' -> evolves en en'.
Proof.
  induction n as [|n IH]; intros i en en' He; simpl in He;
    destruct (i <? count); try discriminate; try (injection He as <-; apply evolves_refl).
  bind_inv He en1 H1.
  eapply evolves_trans; [eapply loop_round_evolves; exact H1 | eapply IH; exact He].
Qed.

Lemma for_up_loop_evolves (n : nat) (inc e : double) (block_index : nat) (named : bool) :
  forall s en en',
    for_up_loop exec n s inc e block_index named en = Ok en' -> evolves en en'.
Proof.
  induction n as [|n IH]; intros s en en' He; simpl in He;
    destruct (PrimFloat.leb s e); try discriminate;
    try (injection He as <-; apply evolves_refl).
  bind_inv He en1 H1.
  eapply evolves_trans; [eapply loop_round_evolves; exact H1 | eapply IH; exact He].
Qed.

Lemma for_down_loop_evolves (n : nat) (inc e : double) (block_index : nat) (named : bool) :
  forall s en en',
    for_down_loop exec n s inc e block_index named en = Ok en' -> evolves en en'.
Proof.
  induction n as [|n IH]; intros s en en' He; simpl in He;
    destruct (PrimFloat.leb e s); try discriminate;
    try (injection He as <-; apply evolves_refl).
  bind_inv He en1 H1.
  eapply evolves_trans; [eapply loop_round_evolves; exact H1 | eapply IH; exact He].
Qed.

Lemma run_statement_evolves (stmt : Statement) (en en' : Engine) :
  run_statement exec rounds stmt en = Ok en' -> evolves en en'.
Proof.
  destruct stmt; cbn [run_statement]; intros He.
  - bind_inv He x Hx. destruct x as [vals en1].
    destruct (turtle_call fn vals (m_turtle en1)); [|discriminate].
    injection He as <-.
    eapply evolves_trans; [eapply eval_args_evolves; exact Hx | apply evolves_set_turtle].
  - bind_inv He x Hx. destruct x as [val en1].
    eapply evolves_trans; [eapply eval_evolves; exact Hx | eapply push_dest_evolves; exact He].
  - eapply push_dest_evolves. exact He.
  - unfold copy_stack in He. bind_inv He limit Hl.
    eapply copy_stack_loop_evolves. exact He.
  - eapply exec_start_fn_call_evolves. exact He.
  - unfold exec_call_fn in He. bind_inv He c Hc. assert_inv He.
    eapply exec_fn_body_evolves. exact He.
  - bind_inv He o Ho. bind_inv He pos Hpos. injection He as <-. apply evolves_set_stack.
  - bind_inv He fn_index Hf. assert_inv He. assert_inv He. bind_inv He i Hi.
    unfold exec_call_lambda in He. bind_inv He c Hc. assert_inv He.
    eapply exec_fn_body_evolves. exact He.
  - bind_inv He x Hx. destruct x as [c en1].
    eapply evolves_trans; [eapply eval_evolves; exact Hx|].
    destruct (truthy c); [eapply exec_call_local_block_evolves; exact He|].
    destruct (negb (else_body =? 0)%nat);
      [eapply exec_call_local_block_evolves; exact He
      | injection He as <-; apply evolves_refl].
  - bind_inv He x Hx. destruct x as [c en1]. bind_inv He count Hc.
    eapply evolves_trans; [eapply eval_evolves; exact Hx|].
    eapply for_count_loop_evolves. exact He.
  - bind_inv He x Hx. destruct x as [s en1]. bind_inv He y Hy. destruct y as [e en2].
    eapply evolves_trans; [eapply eval_evolves; exact Hx|].
    eapply evolves_trans; [eapply eval_evolves; exact Hy|].
    destruct (PrimFloat.leb s e);
      [eapply for_up_loop_evolves | eapply for_down_loop_evolves]; exact He.
  - bind_inv He x Hx. destruct x as [s en1]. bind_inv He y Hy. destruct y as [inc en2].
    bind_inv He z Hz. destruct z as [e en3].
    eapply evolves_trans; [eapply eval_evolves; exact Hx|].
    eapply evolves_trans; [eapply eval_evolves; exact Hy|].
    eapply evolves_trans; [eapply eval_evolves; exact Hz|].
    destruct (PrimFloat.leb s e);
      [eapply for_up_loop_evolves | eapply for_down_loop_evolves]; exact He.
  - injection He as <-. apply evolves_refl.
Qed.

Lemma exec_statement_evolves (stmt : Statement) (en en' : Engine) :
  exec_statement exec rounds stmt en = Ok en' -> evolves en en'.
Proof.
  unfold exec_statement. intros He. bind_inv He en1 H1. injection He as <-.
  eapply evolves_trans; [eapply run_statement_evolves; exact H1|].
  destruct (m_pen_height_became_negative en1) eqn:Ef; simpl; [apply evolves_refl|].
  destruct (get_pen_height (m_turtle en1) <? 0); [|apply evolves_refl].
  unfold evolves. simpl. repeat split; auto; lia.
Qed.

Lemma exec_each_evolves (stmts : list Statement) :
  forall en en', exec_each exec rounds stmts en = Ok en' -> evolves en en'.
Proof.
  induction stmts as [|stmt rest IH]; intros en en' He; simpl in He.
  - injection He as <-. apply evolves_refl.
  - bind_inv He en1 H1.
    eapply evolves_trans; [eapply exec_statement_evolves; exact H1 | eapply IH; exact He].
Qed.

End EvolvesOfBody.

Section Execution.
Context `{External}.

Lemma exec_statements_evolves (fuel : nat) :
  forall stmts en en', exec_statements fuel stmts en = Ok en' -> evolves en en'.
Proof.
  induction fuel as [|fuel IH]; intros stmts en en' He; simpl in He; [discriminate|].
  bind_inv He ok Hok. destruct (negb ok); [discriminate|].
  eapply exec_each_evolves; [exact IH | exact He].
Qed.

(** X20.  Execution never changes the program: whatever [execute_main]
    runs, the chunks afterwards are the chunks before, the engine is marked
    as executing, a pen-height error once flagged stays flagged, and the
    [unique] counter has not gone back. *)
Theorem execution_preserves_program (fuel chunk_index : nat) (en en' : Engine) :
  execute_main fuel chunk_index en = Ok en' ->
  m_chunks en' = m_chunks en
  /\ m_is_executing en' = true
  /\ (m_pen_height_became_negative en = true ->
      m_pen_height_became_negative en' = true)
  /\ m_next_unique_num en <= m_next_unique_num en'.
Proof.
  unfold execute_main, exec_call_fn. intros He.
  assert_inv He. bind_inv He en2 H2. injection He as <-.
  bind_inv H2 c Hc. assert_inv H2.
  apply exec_fn_body_evolves in H2; [|apply exec_statements_evolves].
  destruct H2 as (A1 & A2 & A3 & A4). simpl in *. auto.
Qed.

End Execution.

(** The run of [for 1..5..10 { r 0 }]. *)
Lemma execution_preserves_program_witness :
  m_chunks for_1_5_10_final = for_1_5_10_program
  /\ m_is_executing for_1_5_10_final = true
  /\ (false = true -> m_pen_height_became_negative for_1_5_10_final = true)
  /\ 1 <= m_next_unique_num for_1_5_10_final.
Proof.
  exact (execution_preserves_program (H := recording_turtle) 5 2
           (new_engine for_1_5_10_program []) for_1_5_10_final eq_refl).
Defined.


(** ** Copies and builtin calls *)

Section CopyStack.
Context `{External}.

Lemma push_all_snoc {T} (vals : list T) (v : T) (fs : FrameStack.t T) :
  push_all (vals ++ [v]) fs = FrameStack.push v (push_all vals fs).
Proof. unfold push_all. rewrite foldl_app. reflexivity. Qed.

Lemma push_dest_pushed (dest : ValueDomain) (done : list double) (v : double)
    (en : Engine) :
  dest <> Global ->
  push_dest dest v (pushed dest done en) = Ok (pushed dest (done ++ [v]) en).
Proof.
  intros Hd. destruct dest; [congruence|..]; unfold pushed, push_dest;
    rewrite push_all_snoc; reflexivity.
Qed.

Lemma read_local_pushed (dest : ValueDomain) (done : list double) (en : Engine)
    (i : Z) (v : double) :
  0 <= FrameStack.m_frame_start (EngineStack.m_locals (m_stack en)) ->
  0 <= i ->
  vsize (FrameStack.m_stack (EngineStack.m_locals (m_stack en))) < 2 ^ 64 ->
  FrameStack.m_stack (EngineStack.m_locals (m_stack en))
    !! Z.to_nat (FrameStack.m_frame_start (EngineStack.m_locals (m_stack en)) + i)
  = Some v ->
  read_source Local i (pushed dest done en) = Ok v.
Proof.
  intros Hf Hi Hlen Hv. apply lookup_lt_Some in Hv as Hlt.
  unfold read_source, EngineStack.at_offset, FrameStack.at_offset.
  assert (Hst : exists more,
             FrameStack.m_stack (EngineStack.m_locals (m_stack (pushed dest done en)))
             = FrameStack.m_stack (EngineStack.m_locals (m_stack en)) ++ more
             /\ FrameStack.m_frame_start (EngineStack.m_locals (m_stack (pushed dest done en)))
                = FrameStack.m_frame_start (EngineStack.m_locals (m_stack en))).
  { destruct dest; unfold pushed; cbn [m_stack set_stack EngineStack.m_locals].
    - exists []. rewrite app_nil_r. auto.
    - exists []. rewrite app_nil_r. auto.
    - destruct (push_all_stack done (EngineStack.m_locals (m_stack en))) as (-> & -> & _).
      eauto. }
  destruct Hst as (more & -> & ->).
  unfold vsize in *. rewrite wrap_size_t_small by lia.
  rewrite length_app.
  rewrite !assert_true_bind by (first [apply Z.leb_le; lia | apply Z.ltb_lt; lia]).
  rewrite lookup_app_l by lia. rewrite Hv. reflexivity.
Qed.

Lemma copy_stack_loop_from_locals (dest : ValueDomain) (en : Engine) :
  dest <> Global ->
  0 <= FrameStack.m_frame_start (EngineStack.m_locals (m_stack en)) ->
  vsize (FrameStack.m_stack (EngineStack.m_locals (m_stack en))) < 2 ^ 64 ->
  forall n i done,
    0 <= i ->
    FrameStack.m_frame_start (EngineStack.m_locals (m_stack en)) + i + Z.of_nat n
    <= vsize (FrameStack.m_stack (EngineStack.m_locals (m_stack en))) ->
    copy_stack_loop n Local dest i (pushed dest done en)
    = Ok (pushed dest
            (done ++ take n
               (drop (Z.to_nat (FrameStack.m_frame_start (EngineStack.m_locals (m_stack en)) + i))
                     (FrameStack.m_stack (EngineStack.m_locals (m_stack en))))) en).
Proof.
  intros Hd Hf Hlen. induction n as [|n IH]; intros i done Hi Hn.
  - cbn [copy_stack_loop take]. rewrite app_nil_r. reflexivity.
  - cbn [copy_stack_loop].
    destruct (lookup_lt_is_Some_2
                (FrameStack.m_stack (EngineStack.m_locals (m_stack en)))
                (Z.to_nat (FrameStack.m_frame_start (EngineStack.m_locals (m_stack en)) + i)))
      as [v Hv]; [unfold vsize in *; lia|].
    rewrite (read_local_pushed dest done en i v Hf Hi Hlen Hv). cbn [mbind outcome_bind].
    rewrite push_dest_pushed by exact Hd. cbn [mbind outcome_bind].
    rewrite IH by lia.
    rewrite (drop_S _ _ _ Hv). cbn [take]. rewrite <- app_assoc. cbn [app].
    replace (Z.to_nat (FrameStack.m_frame_start (EngineStack.m_locals (m_stack en))
                       + (i + 1)))
      with (S (Z.to_nat (FrameStack.m_frame_start (EngineStack.m_locals (m_stack en)) + i)))
      by lia.
    reflexivity.
Qed.

(** X21.  [copy_stack<Local, dest>(offset, size)] pushes, in order, the
    [size] entries that the current Locals frame holds from [offset] on,
    onto the stack of [dest], and changes nothing else, provided the
    entries lie inside the stack as it is before the copy. *)
Theorem copy_stack_copies_frame_slice (dest : ValueDomain) (offset size : Z)
    (en : Engine) :
  dest <> Global ->
  0 <= FrameStack.m_frame_start (EngineStack.m_locals (m_stack en)) ->
  0 <= offset ->
  0 <= size ->
  FrameStack.m_frame_start (EngineStack.m_locals (m_stack en)) + offset + size
  <= vsize (FrameStack.m_stack (EngineStack.m_locals (m_stack en))) ->
  vsize (FrameStack.m_stack (EngineStack.m_locals (m_stack en))) <= INT_MAX ->
  copy_stack Local dest offset size en
  = Ok (pushed dest (frame_slice offset size en) en).
Proof.
  intros Hd Hf Ho Hs Hin Hmax. unfold copy_stack, INT_MAX in *.
  rewrite to_int_fits by (unfold INT_MIN, INT_MAX; lia). cbn [mbind outcome_bind].
  replace (offset + size - offset) with size by lia.
  assert (E0 : pushed dest [] en = en).
  { unfold pushed, push_all. destruct en as [ch [l c] ex pen cnt tu]; destruct dest; reflexivity. }
  rewrite <- E0 at 1.
  rewrite (copy_stack_loop_from_locals dest en Hd Hf) by lia. reflexivity.
Qed.

End CopyStack.

(** Copying a two-entry value of the frame into the closure. *)
Lemma copy_stack_copies_frame_slice_witness :
  let en := set_stack
              (EngineStack.mk (FrameStack.mk [1%float; 2%float; 3%float; 4%float] 1 [0])
                              (FrameStack.mk [9%float] 0 []))
              empty_engine in
  copy_stack (H := recording_turtle) Local Capture 1 2 en
  = Ok (set_stack
          (EngineStack.mk (FrameStack.mk [1%float; 2%float; 3%float; 4%float] 1 [0])
                          (FrameStack.mk [9%float; 3%float; 4%float] 0 []))
          empty_engine).
Proof.
  refine (copy_stack_copies_frame_slice (H := recording_turtle) Capture 1 2
            (set_stack
               (EngineStack.mk (FrameStack.mk [1%float; 2%float; 3%float; 4%float] 1 [0])
                               (FrameStack.mk [9%float] 0 []))
               empty_engine) _ _ _ _ _ _);
    try discriminate; unfold vsize, INT_MAX; simpl; lia.
Defined.


(** Side conditions on the sizes of concrete frames. *)
Ltac frame_sizes :=
  cbn [FrameStack.m_stack FrameStack.m_frame_start FrameStack.m_frames];
  unfold vsize, double in *; rewrite ?length_app, ?length_take in *; lia.

Section BuiltinCall.
Context `{External}.

Lemma eval_list_reads (offsets : list Z) :
  forall (vals : list double) (en : Engine),
    Forall2 (fun o v => EngineStack.at_offset (m_stack en) o = Ok v) offsets vals ->
    eval_list (map (access_value Local) offsets) en = Ok (vals, en).
Proof.
  induction offsets as [|o rest IH]; intros vals en Hall.
  - apply Forall2_nil_inv_l in Hall as ->. reflexivity.
  - apply Forall2_cons_inv_l in Hall as (v & vs & Hv & Hrest & ->).
    cbn [map eval_list eval]. rewrite Hv. cbn [mbind outcome_bind].
    rewrite (IH _ _ Hrest). reflexivity.
Qed.

Lemma eval_args_reads (offsets : list Z) (vals : list double) (en : Engine) :
  Forall2 (fun o v => EngineStack.at_offset (m_stack en) o = Ok v) offsets vals ->
  eval_args (map (access_value Local) offsets) en = Ok (vals, en).
Proof.
  intros Hall. unfold eval_args. destruct args_right_to_left.
  - rewrite <- map_rev. rewrite (eval_list_reads _ (rev vals)).
    + cbn [mbind outcome_bind]. rewrite rev_involutive. reflexivity.
    + rewrite !rev_alt. exact (Forall2_reverse _ _ _ Hall).
  - apply eval_list_reads. exact Hall.
Qed.

(** The parameter slots of a frame that starts right below [args]. *)
Lemma parameter_slots (base args : list double) (frames : list Z) (c : FrameStack.t double) :
  vsize (base ++ args) < 2 ^ 64 ->
  Forall2
    (fun o v =>
       EngineStack.at_offset
         (EngineStack.mk (FrameStack.mk (base ++ args) (vsize base) frames) c) o = Ok v)
    (map Z.of_nat (seq 0 (length args))) args.
Proof.
  intros Hlen. apply Forall2_same_length_lookup_2.
  - rewrite length_map, length_seq. reflexivity.
  - intros i o v Ho Hv. apply lookup_lt_Some in Hv as Hi.
    rewrite list_lookup_fmap, lookup_seq_lt in Ho by exact Hi.
    injection Ho as <-. cbn [fmap option_fmap option_map Nat.add] in *.
    unfold EngineStack.at_offset, FrameStack.at_offset.
    cbn [EngineStack.m_locals FrameStack.m_stack FrameStack.m_frame_start].
    unfold vsize in *. rewrite length_app in *.
    rewrite wrap_size_t_small by lia.
    rewrite !assert_true_bind by (first [apply Z.leb_le; lia | apply Z.ltb_lt; lia]).
    replace (Z.to_nat (Z.of_nat (length base) + Z.of_nat i)) with (length base + i)%nat
      by lia.
    rewrite lookup_app_r by lia.
    replace (length base + i - length base)%nat with i by lia.
    rewrite Hv. reflexivity.
Qed.

(** X22.  Calling a builtin command: [exec_call_fn] on the chunk that
    [add_builtin_cmd] builds for a turtle function of [n] value parameters,
    with the [n] argument values on top of the Locals stack, calls the
    turtle function once with these values, in the order they were pushed,
    removes them from the stack, and leaves both stacks otherwise as they
    were; afterwards the pen height is checked. *)
Theorem builtin_call_passes_arguments (fuel index : nat) (fn : TurtleFn)
    (args base : list double) (start : Z) (frames : list Z)
    (captures : FrameStack.t double) (tu' : Turtle) (en : Engine) :
  m_chunks en !! index = Some (builtin_chunk fn (length args)) ->
  m_stack en
  = EngineStack.mk (FrameStack.mk (base ++ args) start frames) captures ->
  0 <= start <= vsize base ->
  0 <= FrameStack.m_frame_start captures <= vsize (FrameStack.m_stack captures) ->
  vsize (base ++ args) < infinite_recursion_limit ->
  vsize (FrameStack.m_stack captures) < infinite_recursion_limit ->
  turtle_call fn args (m_turtle en) = Some tu' ->
  exec_call_fn (exec_statements (S fuel)) index
    (EngineStack.mkSize (Z.of_nat (length args)) 0) en
  = Ok (set_stack (EngineStack.mk (FrameStack.mk base start frames) captures)
          (note_pen_height (set_turtle tu' en))).
Proof.
  intros Hchunk Hstack Hstart Hcap Hl Hc Hcall.
  unfold infinite_recursion_limit, double in *.
  destruct captures as [cs fc cframes].
  cbn [FrameStack.m_stack FrameStack.m_frame_start] in *.
  unfold exec_call_fn, get_chunk.
  apply lookup_lt_Some in Hchunk as Hidx.
  rewrite assert_true_bind by (apply Z.ltb_lt; unfold vsize; lia).
  rewrite Hchunk. cbn [mbind outcome_bind]. rewrite assert_true_bind by reflexivity.
  unfold exec_fn_body, EngineStack.push_frame_args.
  rewrite Hstack. cbn [EngineStack.m_locals EngineStack.m_captures EngineStack.locals
                        EngineStack.captures f_params_size builtin_chunk info fst].
  rewrite (push_frame_args_result (T := float) 0%float (FrameStack.mk (base ++ args) start frames))
    by frame_sizes.
  rewrite (push_frame_args_result (T := float) 0%float (FrameStack.mk cs fc cframes))
    by frame_sizes.
  cbn [mbind outcome_bind FrameStack.m_stack FrameStack.m_frame_start FrameStack.m_frames].
  rewrite !take_ge by frame_sizes.
  rewrite exec_statements_guard_passes
    by (unfold locals_size, captures_size, infinite_recursion_limit;
        cbn [m_stack set_stack EngineStack.m_locals EngineStack.m_captures];
        frame_sizes).
  unfold builtin_chunk.
  cbn [statements info exec_each exec_statement run_statement].
  rewrite <- (map_map Z.of_nat (access_value Local)).
  replace (vsize (base ++ args) - Z.of_nat (length args)) with (vsize base)
    by frame_sizes.
  unfold exec_statement. cbn [run_statement].
  rewrite (eval_args_reads _ args)
    by (cbn [m_stack set_stack]; apply parameter_slots; frame_sizes).
  cbn [mbind outcome_bind m_turtle set_stack]. rewrite Hcall.
  cbn [mbind outcome_bind].
  fold (note_pen_height (set_turtle tu' (set_stack
         (EngineStack.mk
            (FrameStack.mk (base ++ args) (vsize base) (frames ++ [start]))
            (FrameStack.mk cs (vsize cs - 0) (cframes ++ [fc]))) en))).
  assert (Hnote : forall s e, m_stack (note_pen_height (set_turtle tu' (set_stack s e))) = s).
  { intros s e. unfold note_pen_height.
    destruct (negb _); [destruct (_ <? 0)|]; reflexivity. }
  rewrite Hnote.
  unfold EngineStack.pop_frame, FrameStack.pop_frame, FrameStack.get_frame_size.
  cbn [EngineStack.m_locals EngineStack.m_captures FrameStack.m_stack
       FrameStack.m_frame_start FrameStack.m_frames].
  rewrite !bool_decide_eq_false_2
    by (intros C; apply app_eq_nil in C as [_ C]; discriminate).
  rewrite !last_snoc, !removelast_last.
  replace (vsize (base ++ args) - vsize base) with (Z.of_nat (length args))
    by frame_sizes.
  replace (vsize cs - (vsize cs - 0)) with 0 by lia.
  rewrite !wrap_size_t_small by frame_sizes.
  rewrite !to_int_fits by (unfold INT_MIN, INT_MAX; frame_sizes).
  cbn [negb assert mbind outcome_bind].
  rewrite (pop_takes (T := float) 0%float (FrameStack.mk (base ++ args) start frames))
    by frame_sizes.
  rewrite (pop_takes (T := float) 0%float (FrameStack.mk cs fc cframes)) by frame_sizes.
  cbn [mbind outcome_bind FrameStack.m_stack FrameStack.m_frame_start FrameStack.m_frames].
  unfold EngineStack.pop, f_is_closure, f_closure_offset.
  cbn [EngineStack.m_locals EngineStack.m_captures EngineStack.locals EngineStack.captures
       info snd].
  replace (0 <=? -1) with false by reflexivity.
  change (Z.to_nat 0) with 0%nat.
  rewrite Nat2Z.id, length_app, Nat.add_sub, take_app_length, Nat.sub_0_r, firstn_all.
  rewrite !(pop_takes (T := float)) by frame_sizes.
  cbn [mbind outcome_bind FrameStack.m_stack FrameStack.m_frame_start FrameStack.m_frames].
  change (Z.to_nat 0) with 0%nat. rewrite !Nat.sub_0_r, !firstn_all.
  unfold note_pen_height.
  cbn [m_pen_height_became_negative m_turtle set_turtle set_stack].
  destruct (negb (m_pen_height_became_negative en));
    [destruct (get_pen_height tu' <? 0)|]; reflexivity.
Qed.

End BuiltinCall.

(** The call [r 7] on an otherwise empty stack. *)
Lemma builtin_call_passes_arguments_witness :
  let en := set_stack
              (EngineStack.mk (FrameStack.mk [7%float] 0 []) (FrameStack.mk [] 0 []))
              (new_engine for_1_5_10_program []) in
  exec_call_fn (H := recording_turtle) (exec_statements 1) 1 (EngineStack.mkSize 1 0) en
  = Ok (set_stack
          (EngineStack.mk (FrameStack.mk [] 0 []) (FrameStack.mk [] 0 []))
          (set_turtle (H := recording_turtle) [("r"%string, [7%float])]
             (new_engine for_1_5_10_program []))).
Proof.
  refine (builtin_call_passes_arguments (H := recording_turtle) 0 1 "r"%string
            [7%float] [] 0 [] (FrameStack.mk [] 0 [])
            ([("r"%string, [7%float])] : @Turtle recording_turtle)
            (set_stack
               (EngineStack.mk (FrameStack.mk [7%float] 0 []) (FrameStack.mk [] 0 []))
               (new_engine for_1_5_10_program []))
            eq_refl eq_refl _ _ _ _ eq_refl);
    unfold vsize, infinite_recursion_limit; simpl; lia.
Defined.


(** ** Building chunks *)

Section BuilderFacts.
Context `{External}.

Lemma lookup_snoc_length {A} (l : list A) (x : A) (more : list A) :
  (l ++ x :: more) !! length l = Some x.
Proof. apply list_lookup_middle. reflexivity. Qed.

Lemma insert_snoc_length {A} (l : list A) (x y : A) (more : list A) :
  <[length l := y]> (l ++ x :: more) = l ++ y :: more.
Proof.
  rewrite insert_app_r_alt by lia. rewrite Nat.sub_diag. reflexivity.
Qed.

Lemma get_chunk_at_snoc (b : Builder.t) (chunks : list Chunk) (c : Chunk)
    (more : list Chunk) :
  Builder.m_chunks b = chunks ++ c :: more ->
  Builder.get_chunk_at (length chunks) b = Ok c.
Proof.
  intros Hc. unfold Builder.get_chunk_at. rewrite Hc.
  rewrite assert_true_bind
    by (apply Z.ltb_lt; unfold vsize; rewrite length_app; simpl; lia).
  rewrite lookup_snoc_length. reflexivity.
Qed.

(** X24.  The engine calls of [add_builtin_cmd] append exactly one chunk,
    the builtin chunk of the command: a call frame of [nparams] parameter
    slots that is no closure, whose one statement passes the parameter
    slots, in order, to the turtle function.  The chunk's index is
    returned, and the current chunk, the chunk index stack and the stack
    are as before. *)
Theorem add_builtin_cmd_appends_builtin_chunk (fn : TurtleFn) (nparams : nat)
    (b : Builder.t) :
  Builder.m_is_executing b = false ->
  Builder.add_builtin_cmd fn nparams b
  = Ok (length (Builder.m_chunks b),
        Builder.set_chunks (Builder.m_chunks b ++ [builtin_chunk fn nparams]) b).
Proof.
  intros Hex. destruct b as [cur idx val chunks st off ex]. simpl in Hex. subst ex.
  unfold Builder.add_builtin_cmd, Builder.push_builtin_fn_chunk, Builder.push_chunk.
  cbn [Builder.m_is_executing Builder.m_chunks Builder.m_current_chunk
       Builder.m_chunk_index_stack negb assert mbind outcome_bind].
  unfold Builder.get_chunk at 1.
  cbn [Builder.m_is_executing Builder.m_current_chunk negb assert mbind outcome_bind].
  erewrite get_chunk_at_snoc by reflexivity.
  cbn [mbind outcome_bind].
  unfold Builder.setup_turtle_fn, Builder.add_statement, Builder.get_chunk,
    Builder.set_chunk, Builder.set_chunks.
  cbn [Builder.m_is_executing Builder.m_chunks Builder.m_current_chunk
       Builder.m_chunk_index_stack Builder.m_stack Builder.m_parser_value_for_push
       Builder.m_current_closure_start_offset negb assert mbind outcome_bind].
  rewrite insert_snoc_length.
  erewrite get_chunk_at_snoc by reflexivity.
  cbn [mbind outcome_bind Builder.m_is_executing Builder.m_chunks Builder.m_current_chunk
       Builder.m_chunk_index_stack Builder.m_stack Builder.m_parser_value_for_push
       Builder.m_current_closure_start_offset].
  rewrite insert_snoc_length.
  unfold Builder.pop_builtin_fn_chunk, Builder.pop_chunk, Builder.get_chunk.
  cbn [Builder.m_is_executing Builder.m_chunks Builder.m_current_chunk
       Builder.m_chunk_index_stack Builder.m_stack Builder.m_parser_value_for_push
       Builder.m_current_closure_start_offset negb assert mbind outcome_bind].
  erewrite get_chunk_at_snoc by reflexivity.
  cbn [mbind outcome_bind Builder.set_info Builder.set_statements is_call_frame type negb
       Builder.m_is_executing Builder.m_chunks Builder.m_current_chunk
       Builder.m_chunk_index_stack Builder.m_stack Builder.m_parser_value_for_push
       Builder.m_current_closure_start_offset].
  rewrite last_snoc, removelast_last. reflexivity.
Qed.

End BuilderFacts.

(** Registering the command [r] of one parameter in a fresh engine. *)
Lemma add_builtin_cmd_appends_builtin_chunk_witness :
  Builder.add_builtin_cmd (H := recording_turtle) "r"%string 1 Builder.new_builder
  = Ok (0%nat,
        Builder.set_chunks [builtin_chunk (H := recording_turtle) "r"%string 1]
          Builder.new_builder).
Proof.
  exact (add_builtin_cmd_appends_builtin_chunk (H := recording_turtle) "r"%string 1
           Builder.new_builder eq_refl).
Defined.


Section ParameterOffsets.
Context `{External}.

Lemma iter_push (k : nat) (v : double) (stack : list double) (start : Z)
    (frames : list Z) (captures : FrameStack.t double) :
  Nat.iter k (EngineStack.push v)
    (EngineStack.mk (FrameStack.mk stack start frames) captures)
  = EngineStack.mk (FrameStack.mk (stack ++ replicate k v) start frames) captures.
Proof.
  induction k as [|k IH].
  - simpl. rewrite app_nil_r. reflexivity.
  - rewrite Nat.iter_succ, IH. unfold EngineStack.push, FrameStack.push. simpl.
    rewrite <- app_assoc. do 3 f_equal.
    change (replicate k v ++ [v] = replicate (S k) v).
    rewrite replicate_S_end. reflexivity.
Qed.

Lemma get_frame_size_after_params (b0 : Builder.t) (n : Z) :
  0 <= n ->
  vsize (FrameStack.m_stack (EngineStack.m_locals (Builder.m_stack b0))) + n <= INT_MAX ->
  vsize (FrameStack.m_stack (EngineStack.m_captures (Builder.m_stack b0))) <= INT_MAX ->
  EngineStack.get_frame_size (Builder.m_stack (after_params b0 n))
  = Ok (EngineStack.mkSize n 0).
Proof.
  intros Hn Hl Hc. unfold EngineStack.get_frame_size, FrameStack.get_frame_size, INT_MAX in *.
  cbn [after_params Builder.m_stack EngineStack.m_locals EngineStack.m_captures
       FrameStack.m_stack FrameStack.m_frame_start].
  pose proof (vsize_nonneg (FrameStack.m_stack (EngineStack.m_locals (Builder.m_stack b0)))).
  rewrite vsize_app.
  replace (vsize (replicate (Z.to_nat n) (Builder.m_parser_value_for_push b0))) with n
    by (unfold vsize; rewrite length_replicate; lia).
  rewrite Z.sub_diag.
  replace (vsize (FrameStack.m_stack (EngineStack.m_locals (Builder.m_stack b0))) + n
           - vsize (FrameStack.m_stack (EngineStack.m_locals (Builder.m_stack b0))))
    with n by lia.
  rewrite !wrap_size_t_small by lia.
  rewrite !to_int_fits by (unfold INT_MIN, INT_MAX; lia). reflexivity.
Qed.

Lemma push_call_frame_chunk_after_params (b : Builder.t) :
  Builder.m_is_executing b = false ->
  FrameStack.m_frame_start (EngineStack.m_locals (Builder.m_stack b))
  <= vsize (FrameStack.m_stack (EngineStack.m_locals (Builder.m_stack b))) ->
  FrameStack.m_frame_start (EngineStack.m_captures (Builder.m_stack b))
  <= vsize (FrameStack.m_stack (EngineStack.m_captures (Builder.m_stack b))) ->
  Builder.push_call_frame_chunk b = Ok (length (Builder.m_chunks b), after_params b 0).
Proof.
  intros Hex Hl Hc.
  unfold Builder.push_call_frame_chunk, EngineStack.push_frame, FrameStack.push_frame.
  rewrite !assert_true_bind by (apply Z.leb_le; assumption).
  cbn [mbind outcome_bind]. unfold Builder.push_chunk.
  cbn [Builder.set_stack Builder.m_is_executing Builder.m_chunks Builder.m_current_chunk
       Builder.m_chunk_index_stack Builder.m_stack Builder.m_parser_value_for_push
       Builder.m_current_closure_start_offset].
  rewrite Hex. cbn [negb assert mbind outcome_bind].
  unfold after_params. cbn [Z.to_nat replicate]. rewrite app_nil_r. reflexivity.
Qed.

Lemma compile_add_param_after_params (b0 : Builder.t) (n size : Z) :
  0 <= n -> 0 <= size ->
  vsize (FrameStack.m_stack (EngineStack.m_locals (Builder.m_stack b0))) + n + size
  <= INT_MAX ->
  vsize (FrameStack.m_stack (EngineStack.m_captures (Builder.m_stack b0))) <= INT_MAX ->
  Builder.compile_add_param size (after_params b0 n) = Ok (n, after_params b0 (n + size)).
Proof.
  intros Hn Hs Hl Hc. unfold Builder.compile_add_param, Builder.get_chunk.
  cbn [after_params Builder.m_is_executing Builder.m_current_chunk negb assert
       mbind outcome_bind].
  erewrite get_chunk_at_snoc by reflexivity.
  cbn [mbind outcome_bind is_call_frame type assert].
  unfold Builder.push_for_parser.
  fold (after_params b0 n).
  rewrite get_frame_size_after_params by lia.
  cbn [mbind outcome_bind EngineStack.locals].
  replace (size <? 0) with false by (symmetry; apply Z.ltb_ge; lia).
  cbn [after_params Builder.m_stack Builder.m_parser_value_for_push Builder.set_stack
       Builder.m_is_executing Builder.m_chunks Builder.m_current_chunk
       Builder.m_chunk_index_stack Builder.m_current_closure_start_offset
       mbind outcome_bind f_params_size info fst snd].
  rewrite iter_push.
  rewrite to_int_fits
    by (pose proof (vsize_nonneg
                      (FrameStack.m_stack (EngineStack.m_locals (Builder.m_stack b0))));
        unfold INT_MIN, INT_MAX in *; lia).
  cbn [mbind outcome_bind].
  unfold Builder.set_chunk, Builder.set_chunks, Builder.set_info, Builder.set_stack,
    after_params.
  cbn [Builder.m_stack Builder.m_parser_value_for_push
       Builder.m_is_executing Builder.m_chunks Builder.m_current_chunk
       Builder.m_chunk_index_stack Builder.m_current_closure_start_offset
       type info statements snd].
  rewrite insert_snoc_length, <- app_assoc, <- replicate_add.
  replace (Z.to_nat n + Z.to_nat size)%nat with (Z.to_nat (n + size)) by lia.
  reflexivity.
Qed.

Lemma sum_sizes_nonneg (sizes : list Z) :
  Forall (fun size => 0 <= size) sizes -> 0 <= sum_sizes sizes.
Proof.
  induction 1 as [|size rest Hs Hrest IH]; unfold sum_sizes in *; simpl; lia.
Qed.

Lemma add_params_after_params (b0 : Builder.t) (sizes : list Z) :
  Forall (fun size => 0 <= size) sizes ->
  vsize (FrameStack.m_stack (EngineStack.m_captures (Builder.m_stack b0))) <= INT_MAX ->
  forall n,
    0 <= n ->
    vsize (FrameStack.m_stack (EngineStack.m_locals (Builder.m_stack b0))) + n
    + sum_sizes sizes <= INT_MAX ->
    Builder.add_params sizes (after_params b0 n)
    = Ok (prefix_sums n sizes, after_params b0 (n + sum_sizes sizes)).
Proof.
  intros Hall Hc. induction Hall as [|size rest Hs Hrest IH]; intros n Hn Hl.
  - cbn [Builder.add_params prefix_sums sum_sizes fold_right].
    rewrite Z.add_0_r. reflexivity.
  - pose proof (sum_sizes_nonneg rest Hrest) as Hsum.
    change (sum_sizes (size :: rest)) with (size + sum_sizes rest) in *.
    cbn [Builder.add_params prefix_sums].
    rewrite compile_add_param_after_params by lia. cbn [mbind outcome_bind].
    rewrite IH by lia. cbn [mbind outcome_bind].
    rewrite Z.add_assoc. reflexivity.
Qed.

(** X25.  Parameters get consecutive frame offsets: after
    [push_call_frame_chunk], calling [compile_add_param] with the sizes of
    the parameters, in order, returns for each parameter the sum of the
    sizes before it; the new chunk then records the sum of all sizes as its
    [params_size], and the parse-time frame holds that many slots. *)
Theorem parameters_get_consecutive_offsets (b : Builder.t) (sizes : list Z) :
  Builder.m_is_executing b = false ->
  FrameStack.m_frame_start (EngineStack.m_locals (Builder.m_stack b))
  <= vsize (FrameStack.m_stack (EngineStack.m_locals (Builder.m_stack b))) ->
  FrameStack.m_frame_start (EngineStack.m_captures (Builder.m_stack b))
  <= vsize (FrameStack.m_stack (EngineStack.m_captures (Builder.m_stack b))) ->
  Forall (fun size => 0 <= size) sizes ->
  vsize (FrameStack.m_stack (EngineStack.m_locals (Builder.m_stack b))) + sum_sizes sizes
  <= INT_MAX ->
  vsize (FrameStack.m_stack (EngineStack.m_captures (Builder.m_stack b))) <= INT_MAX ->
  exists b1 b2,
    Builder.push_call_frame_chunk b = Ok (length (Builder.m_chunks b), b1)
    /\ Builder.add_params sizes b1 = Ok (prefix_sums 0 sizes, b2)
    /\ Builder.m_chunks b2
       = Builder.m_chunks b
         ++ [{| type := function; info := (sum_sizes sizes, -1); statements := [] |}]
    /\ EngineStack.get_frame_size (Builder.m_stack b2)
       = Ok (EngineStack.mkSize (sum_sizes sizes) 0).
Proof.
  intros Hex Hl Hc Hall Hmax Hcmax.
  pose proof (sum_sizes_nonneg sizes Hall) as Hsum.
  exists (after_params b 0), (after_params b (0 + sum_sizes sizes)).
  split; [apply push_call_frame_chunk_after_params; assumption|].
  split; [apply add_params_after_params; auto; lia|].
  split; [reflexivity|].
  apply get_frame_size_after_params; lia.
Qed.

End ParameterOffsets.

(** [def f(a g() b)]: a value, a lambda and a value parameter. *)
Lemma parameters_get_consecutive_offsets_witness :
  exists b1 b2,
    Builder.push_call_frame_chunk (H := recording_turtle) Builder.new_builder
    = Ok (0%nat, b1)
    /\ Builder.add_params [1; 2; 1] b1 = Ok ([0; 1; 3], b2)
    /\ Builder.m_chunks b2
       = [{| type := function; info := (4, -1); statements := [] |}]
    /\ EngineStack.get_frame_size (Builder.m_stack b2) = Ok (EngineStack.mkSize 4 0).
Proof.
  refine (parameters_get_consecutive_offsets (H := recording_turtle)
            Builder.new_builder [1; 2; 1] eq_refl _ _ _ _ _);
    try (unfold vsize, INT_MAX; simpl; lia).
  repeat constructor; lia.
Defined.


Section ParseTimeStack.
Context `{External}.
Variable exec : list Statement -> Engine -> outcome Engine.
Variable rounds : nat.

Lemma wrap_size_t_succ (x o : Z) :
  wrap_size_t x = o -> o + 1 < 2 ^ 64 -> wrap_size_t (x + 1) = o + 1.
Proof.
  unfold wrap_size_t. intros Hx Ho.
  assert (0 <= o) by (subst o; apply Z.mod_pos_bound; lia).
  rewrite <- Zplus_mod_idemp_l, Hx. apply Z.mod_small. lia.
Qed.

Lemma to_int_inv (z r : Z) : to_int z = Ok r -> r = z /\ INT_MIN <= z <= INT_MAX.
Proof.
  unfold to_int, fits_int. intros Hz.
  destruct (INT_MIN <=? z) eqn:E1; [|discriminate].
  destruct (z <=? INT_MAX) eqn:E2; [|discriminate].
  injection Hz as <-. apply Z.leb_le in E1, E2. auto.
Qed.

(** X26.  The parse-time stack predicts the run-time stack.  When
    [compile_push_value(Local, e)] returns [offset], it has appended one
    statement to the current chunk; and whenever that statement runs in a
    Locals frame of the size the parser had calculated, the value of [e] is
    afterwards found at [offset] of the frame, and the frame has again the
    size the parser calculates. *)
Theorem pushed_value_is_found_at_its_offset (b b' : Builder.t) (e : Expr) (offset : Z)
    (en en1 : Engine) (v : double) :
  Builder.compile_push_value Local e b = Ok (offset, b') ->
  FrameStack.get_frame_size (EngineStack.m_locals (m_stack en)) = Ok offset ->
  0 <= FrameStack.m_frame_start (EngineStack.m_locals (m_stack en))
    <= vsize (FrameStack.m_stack (EngineStack.m_locals (m_stack en))) ->
  vsize (FrameStack.m_stack (EngineStack.m_locals (m_stack en))) < 2 ^ 63 ->
  eval e en = Ok (v, en1) ->
  exists c en2,
    Builder.get_chunk b = Ok c
    /\ Builder.m_chunks b'
       = <[Builder.m_current_chunk b
           := Builder.set_statements (statements c ++ [push_value_stmt Local e]) c]>
           (Builder.m_chunks b)
    /\ run_statement exec rounds (push_value_stmt Local e) en = Ok en2
    /\ EngineStack.at_offset (m_stack en2) offset = Ok v
    /\ FrameStack.get_frame_size (EngineStack.m_locals (m_stack en2))
       = FrameStack.get_frame_size (EngineStack.m_locals (Builder.m_stack b')).
Proof.
  intros Hc Hsize Hwf Hlen He.
  unfold Builder.compile_push_value, Builder.push_for_parser in Hc.
  bind_inv Hc x Hx. destruct x as [o b1]. bind_inv Hc b2 Hadd. injection Hc as <- <-.
  bind_inv Hx sz Hsz. cbn [Z.ltb Z.compare Z.to_nat Pos.to_nat Pos.iter_op] in Hx.
  injection Hx as <- <-.
  unfold Builder.add_statement in Hadd. bind_inv Hadd c Hget. injection Hadd as <-.
  exists c. eexists. split; [exact Hget|]. split; [reflexivity|].
  cbn [run_statement]. rewrite He. cbn [mbind outcome_bind push_dest].
  split; [reflexivity|].
  rewrite (eval_keeps_stack _ _ _ _ He).
  unfold FrameStack.get_frame_size in Hsize. apply to_int_inv in Hsize as [Ho Hfit].
  rewrite wrap_size_t_small in Ho, Hfit by lia.
  unfold EngineStack.get_frame_size in Hsz.
  bind_inv Hsz l Hl. bind_inv Hsz c' Hc'. injection Hsz as <-.
  cbn [EngineStack.locals] in *.
  unfold FrameStack.get_frame_size in Hl. apply to_int_inv in Hl as [Hl Hlfit].
  split.
  - unfold EngineStack.at_offset, FrameStack.at_offset.
    cbn [m_stack set_stack EngineStack.push EngineStack.m_locals FrameStack.push
         FrameStack.m_stack FrameStack.m_frame_start].
    rewrite vsize_app. unfold vsize in *. cbn [length].
    rewrite wrap_size_t_small by lia.
    rewrite !assert_true_bind by (first [apply Z.leb_le; lia | apply Z.ltb_lt; lia]).
    replace (Z.to_nat (FrameStack.m_frame_start (EngineStack.m_locals (m_stack en)) + l))
      with (length (FrameStack.m_stack (EngineStack.m_locals (m_stack en)))) by lia.
    rewrite lookup_snoc_length. reflexivity.
  - unfold FrameStack.get_frame_size.
    cbn [m_stack set_stack EngineStack.push EngineStack.m_locals FrameStack.push
         FrameStack.m_stack FrameStack.m_frame_start Builder.m_stack Builder.set_stack
         Builder.set_chunk Builder.set_chunks Nat.iter nat_rect].
    rewrite !vsize_app. change (vsize [v]) with 1.
    change (vsize [Builder.m_parser_value_for_push b]) with 1.
    f_equal.
    replace (vsize (FrameStack.m_stack (EngineStack.m_locals (m_stack en))) + 1
             - FrameStack.m_frame_start (EngineStack.m_locals (m_stack en)))
      with (l + 1) by lia.
    rewrite wrap_size_t_small by (unfold INT_MAX in *; lia).
    symmetry.
    replace (vsize (FrameStack.m_stack (EngineStack.m_locals (Builder.m_stack b))) + 1
             - FrameStack.m_frame_start (EngineStack.m_locals (Builder.m_stack b)))
      with (vsize (FrameStack.m_stack (EngineStack.m_locals (Builder.m_stack b)))
            - FrameStack.m_frame_start (EngineStack.m_locals (Builder.m_stack b)) + 1)
      by lia.
    apply wrap_size_t_succ; [symmetry; exact Hl | unfold INT_MAX in *; lia].
Qed.

End ParseTimeStack.


(** The first local of a function, initialised with [7]. *)
Lemma pushed_value_is_found_at_its_offset_witness :
  let b := after_params (H := recording_turtle) Builder.new_builder 0 in
  let b' := builder_of (Builder.compile_push_value Local (access_constant 7%float) b) in
  exists c en2,
    Builder.get_chunk b = Ok c
    /\ Builder.m_chunks b'
       = <[Builder.m_current_chunk b
           := Builder.set_statements
                (statements c ++ [push_value_stmt Local (access_constant 7%float)]) c]>
           (Builder.m_chunks b)
    /\ run_statement (exec_statements 1) 1
         (push_value_stmt Local (access_constant 7%float)) empty_engine = Ok en2
    /\ EngineStack.at_offset (m_stack en2) 0 = Ok 7%float
    /\ FrameStack.get_frame_size (EngineStack.m_locals (m_stack en2))
       = FrameStack.get_frame_size (EngineStack.m_locals (Builder.m_stack b')).
Proof.
  refine (pushed_value_is_found_at_its_offset (H := recording_turtle)
            (exec_statements 1) 1
            (after_params (H := recording_turtle) Builder.new_builder 0)
            (builder_of (Builder.compile_push_value Local (access_constant 7%float)
                           (after_params (H := recording_turtle) Builder.new_builder 0)))
            (access_constant 7%float) 0 empty_engine empty_engine 7%float
            eq_refl eq_refl _ _ eq_refl);
    unfold vsize; simpl; lia.
Defined.

Section LocalBlocks.
Context `{External}.

Lemma get_frame_size_pushed (fs : FrameStack.t double) (vals : list double) :
  0 <= FrameStack.m_frame_start fs <= vsize (FrameStack.m_stack fs) ->
  vsize (FrameStack.m_stack fs) + vsize vals <= INT_MAX ->
  FrameStack.get_frame_size (push_all vals fs)
  = Ok (vsize (FrameStack.m_stack fs) - FrameStack.m_frame_start fs + vsize vals).
Proof.
  intros Hwf Hmax. unfold FrameStack.get_frame_size, INT_MAX in *.
  destruct (push_all_stack vals fs) as (-> & -> & _).
  pose proof (vsize_nonneg vals). rewrite vsize_app.
  rewrite wrap_size_t_small by lia.
  rewrite to_int_fits by (unfold INT_MIN, INT_MAX; lia). f_equal. lia.
Qed.

Lemma pop_pushed (fs : FrameStack.t double) (vals : list double) :
  0 <= FrameStack.m_frame_start fs <= vsize (FrameStack.m_stack fs) ->
  vsize (FrameStack.m_stack fs) + vsize vals <= INT_MAX ->
  FrameStack.pop 0%float (vsize vals) (push_all vals fs) = Ok fs.
Proof.
  intros Hwf Hmax. unfold INT_MAX, double in *. pose proof (vsize_nonneg vals).
  destruct (push_all_stack vals fs) as (Hs & Hf & Hfr).
  rewrite (pop_takes (T := float)) by (rewrite ?Hs, ?Hf, ?vsize_app; lia).
  rewrite Hs, Hf, Hfr. destruct fs as [stack start frames]. simpl.
  do 2 f_equal. rewrite length_app. unfold vsize. rewrite Nat2Z.id, Nat.add_sub.
  apply take_app_length.
Qed.

(** X27.  A local block unwinds what was pushed while it was compiled.
    Between [push_local_block_chunk] and [pop_local_block_chunk], let the
    block's statements [stmts] be added, further chunks [more] be appended,
    and the parse-time stacks grow by [locals] and [captures].  Then
    [pop_local_block_chunk] records the sizes of [locals] and [captures] as
    the block's unwind size, which is what [exec_call_local_block] pops
    when the block has run; and it puts the parse-time stack, the current
    chunk and the chunk index stack back as they were before the block. *)
Theorem local_block_unwinds_what_was_pushed (b : Builder.t)
    (locals captures : list double) (stmts : list Statement) (more : list Chunk) :
  Builder.m_is_executing b = false ->
  0 <= FrameStack.m_frame_start (EngineStack.m_locals (Builder.m_stack b))
    <= vsize (FrameStack.m_stack (EngineStack.m_locals (Builder.m_stack b))) ->
  0 <= FrameStack.m_frame_start (EngineStack.m_captures (Builder.m_stack b))
    <= vsize (FrameStack.m_stack (EngineStack.m_captures (Builder.m_stack b))) ->
  vsize (FrameStack.m_stack (EngineStack.m_locals (Builder.m_stack b))) + vsize locals
  <= INT_MAX ->
  vsize (FrameStack.m_stack (EngineStack.m_captures (Builder.m_stack b))) + vsize captures
  <= INT_MAX ->
  exists b1 c,
    Builder.push_local_block_chunk b = Ok (length (Builder.m_chunks b), b1)
    /\ Builder.get_chunk b1 = Ok c
    /\ forall b2,
         Builder.m_is_executing b2 = false ->
         Builder.m_current_chunk b2 = Builder.m_current_chunk b1 ->
         Builder.m_chunk_index_stack b2 = Builder.m_chunk_index_stack b1 ->
         Builder.m_chunks b2
         = Builder.m_chunks b ++ Builder.set_statements stmts c :: more ->
         Builder.m_stack b2
         = EngineStack.mk
             (push_all locals (EngineStack.m_locals (Builder.m_stack b)))
             (push_all captures (EngineStack.m_captures (Builder.m_stack b))) ->
         exists b3,
           Builder.pop_local_block_chunk b2 = Ok b3
           /\ Builder.m_chunks b3
              = Builder.m_chunks b
                ++ {| type := local_block; info := (vsize locals, vsize captures);
                      statements := stmts |} :: more
           /\ Builder.m_stack b3 = Builder.m_stack b
           /\ Builder.m_current_chunk b3 = Builder.m_current_chunk b
           /\ Builder.m_chunk_index_stack b3 = Builder.m_chunk_index_stack b.
Proof.
  intros Hex Hl Hc Hlmax Hcmax.
  pose proof (get_frame_size_pushed _ [] Hl) as Hl0.
  pose proof (get_frame_size_pushed _ [] Hc) as Hc0.
  change (vsize []) with 0 in Hl0, Hc0. rewrite !Z.add_0_r in Hl0, Hc0.
  pose proof (vsize_nonneg locals) as Hln. pose proof (vsize_nonneg captures) as Hcn.
  specialize (Hl0 ltac:(lia)). specialize (Hc0 ltac:(lia)).
  cbn [push_all foldl] in Hl0, Hc0.
  unfold Builder.push_local_block_chunk, Builder.push_chunk.
  rewrite Hex. cbn [negb assert mbind outcome_bind].
  unfold EngineStack.get_frame_size. rewrite Hl0, Hc0.
  cbn [mbind outcome_bind EngineStack.locals EngineStack.captures].
  eexists. eexists. split; [reflexivity|]. split.
  { unfold Builder.get_chunk.
    cbn [Builder.m_is_executing Builder.m_current_chunk negb assert mbind outcome_bind].
    eapply get_chunk_at_snoc. reflexivity. }
  intros b2 Hex2 Hcur Hidx Hchunks Hstack.
  cbn [Builder.m_current_chunk Builder.m_chunk_index_stack] in Hcur, Hidx.
  unfold Builder.pop_local_block_chunk, Builder.pop_chunk, Builder.get_chunk.
  rewrite Hex2, Hcur. cbn [negb assert mbind outcome_bind].
  rewrite (get_chunk_at_snoc b2 _ _ _ Hchunks). cbn [mbind outcome_bind].
  cbn [is_call_frame Builder.set_statements type negb].
  unfold EngineStack.get_frame_size. rewrite Hstack.
  cbn [EngineStack.m_locals EngineStack.m_captures].
  rewrite !get_frame_size_pushed by assumption.
  cbn [mbind outcome_bind].
  unfold Builder.Size_sub, Builder.set_info, Builder.set_statements, b_get_unwind_size.
  cbn [EngineStack.locals EngineStack.captures info type statements fst snd].
  replace (vsize (FrameStack.m_stack (EngineStack.m_locals (Builder.m_stack b)))
           - FrameStack.m_frame_start (EngineStack.m_locals (Builder.m_stack b))
           + vsize locals
           - (vsize (FrameStack.m_stack (EngineStack.m_locals (Builder.m_stack b)))
              - FrameStack.m_frame_start (EngineStack.m_locals (Builder.m_stack b))))
    with (vsize locals) by lia.
  replace (vsize (FrameStack.m_stack (EngineStack.m_captures (Builder.m_stack b)))
           - FrameStack.m_frame_start (EngineStack.m_captures (Builder.m_stack b))
           + vsize captures
           - (vsize (FrameStack.m_stack (EngineStack.m_captures (Builder.m_stack b)))
              - FrameStack.m_frame_start (EngineStack.m_captures (Builder.m_stack b))))
    with (vsize captures) by lia.
  rewrite !to_int_fits by (unfold INT_MIN, INT_MAX in *; lia).
  cbn [mbind outcome_bind EngineStack.locals EngineStack.captures].
  unfold EngineStack.pop. cbn [EngineStack.m_locals EngineStack.m_captures
                                EngineStack.locals EngineStack.captures].
  rewrite !pop_pushed by assumption. cbn [mbind outcome_bind].
  cbn [Builder.set_stack Builder.set_chunk Builder.set_chunks Builder.m_chunk_index_stack
       Builder.m_chunks Builder.m_stack Builder.m_current_chunk].
  rewrite Hidx, last_snoc, removelast_last.
  eexists. split; [reflexivity|].
  cbn [Builder.m_chunks Builder.m_stack Builder.m_current_chunk
       Builder.m_chunk_index_stack].
  rewrite Hchunks, insert_snoc_length.
  repeat split. destruct (Builder.m_stack b). reflexivity.
Qed.

End LocalBlocks.


(** A block inside a function that pushes two locals and holds one
    statement. *)
Lemma local_block_unwinds_what_was_pushed_witness :
  let b := after_params (H := recording_turtle) Builder.new_builder 0 in
  exists b1 c,
    Builder.push_local_block_chunk b = Ok (length (Builder.m_chunks b), b1)
    /\ Builder.get_chunk b1 = Ok c
    /\ forall b2,
         Builder.m_is_executing b2 = false ->
         Builder.m_current_chunk b2 = Builder.m_current_chunk b1 ->
         Builder.m_chunk_index_stack b2 = Builder.m_chunk_index_stack b1 ->
         Builder.m_chunks b2
         = Builder.m_chunks b ++ Builder.set_statements [breakpoint_stmt] c :: [] ->
         Builder.m_stack b2
         = EngineStack.mk
             (push_all [0%float; 0%float] (EngineStack.m_locals (Builder.m_stack b)))
             (push_all ([] : list double) (EngineStack.m_captures (Builder.m_stack b))) ->
         exists b3,
           Builder.pop_local_block_chunk b2 = Ok b3
           /\ Builder.m_chunks b3
              = Builder.m_chunks b
                ++ {| type := local_block; info := (2, 0);
                      statements := [breakpoint_stmt] |} :: []
           /\ Builder.m_stack b3 = Builder.m_stack b
           /\ Builder.m_current_chunk b3 = Builder.m_current_chunk b
           /\ Builder.m_chunk_index_stack b3 = Builder.m_chunk_index_stack b.
Proof.
  refine (local_block_unwinds_what_was_pushed (H := recording_turtle)
            (after_params (H := recording_turtle) Builder.new_builder 0)
            [0%float; 0%float] [] [breakpoint_stmt] [] eq_refl _ _ _ _);
    simpl; unfold vsize, INT_MAX; simpl; lia.
Defined.

(** ** Expression combinators, for arbitrary operands *)

Section CombinatorsTotal.
Context `{External}.

(** X23.  The three expression combinators never produce an invalid node
    and fold exactly the constants: [create_prefix_op_expr] and
    [create_binary_op_expr] fail (their assertion) only for an operator code
    that has no factory, and otherwise return a constant node when every
    operand is a constant and an expression node when some operand is not;
    [create_conditional_expr] always returns an expression node. *)
Theorem combinators_fold_exactly_constants (op : Z) (lhs rhs third : ASTNode) :
  match create_prefix_op_expr op rhs with
  | Ok n => is_constexpr n = is_constexpr rhs
            /\ is_expression n = negb (is_constexpr rhs)
  | Fail f => f = AssertFailed /\ get_prefix_operator_factory op = Fail AssertFailed
  end
  /\ match create_binary_op_expr op lhs rhs with
     | Ok n => is_constexpr n = is_constexpr lhs && is_constexpr rhs
               /\ is_expression n = negb (is_constexpr lhs && is_constexpr rhs)
     | Fail f => f = AssertFailed /\ get_binary_operator_factory op = Fail AssertFailed
     end
  /\ exists e, create_conditional_expr lhs rhs third = Ok (Expression e).
Proof.
  split; [|split].
  - unfold create_prefix_op_expr, get_prefix_operator_factory.
    destruct rhs;
      repeat match goal with
             | |- context [if (op =? ?t) then _ else _] => destruct (op =? t)
             end;
      cbn; auto.
  - unfold create_binary_op_expr, get_binary_operator_factory.
    destruct lhs, rhs;
      repeat match goal with
             | |- context [if (op =? ?t) then _ else _] => destruct (op =? t)
             end;
      cbn; auto.
  - unfold create_conditional_expr, create_conditional.
    destruct lhs, rhs, third; cbn; eauto.
Qed.

End CombinatorsTotal.


(** ** The Pratt loop *)

Section PrattLoop.
Context {State AstNodeType : Type}.
Variable token : State -> Z.
Variable consume : State -> State.
Variable get_postfix_op_info : Z -> OpInfo.t.
Variable valid : AstNodeType -> bool.
Variable parse_prefix_expression : State -> outcome (AstNodeType * State).
Variable parse_postfix_op_expression :
  AstNodeType -> Z -> Z -> State -> outcome (AstNodeType * State).

Lemma consume_postfix_op_binds (outer : Z) (st st1 : State) (info : OpInfo.t) :
  ParserBase.consume_postfix_op token consume get_postfix_op_info outer st = (info, st1) ->
  OpInfo.to_bool info = true ->
  OpInfo.precedence info <> 0 /\ OpInfo.precedence info <= outer.
Proof.
  unfold ParserBase.consume_postfix_op. intros Hc Hb.
  destruct (OpInfo.to_bool (get_postfix_op_info (token st))) eqn:Et;
    [|injection Hc as <- <-; discriminate].
  destruct (OpInfo.postfix_binds_more_tightly (get_postfix_op_info (token st)) outer)
    eqn:Ep; [|injection Hc as <- <-; discriminate].
  injection Hc as <- <-.
  unfold OpInfo.postfix_binds_more_tightly in Ep.
  destruct (Z.eqb_spec (OpInfo.precedence (get_postfix_op_info (token st))) 0);
    [discriminate|].
  destruct (Z.gtb_spec (OpInfo.precedence (get_postfix_op_info (token st))) outer);
    [discriminate|]. split; [assumption | lia].
Qed.

Lemma consume_postfix_op_stops (outer : Z) (st st1 : State) (info : OpInfo.t) :
  ParserBase.consume_postfix_op token consume get_postfix_op_info outer st = (info, st1) ->
  OpInfo.to_bool info = false ->
  st1 = st
  /\ OpInfo.postfix_binds_more_tightly (get_postfix_op_info (token st)) outer = false.
Proof.
  unfold ParserBase.consume_postfix_op. intros Hc Hb.
  destruct (OpInfo.to_bool (get_postfix_op_info (token st))) eqn:Et.
  - destruct (OpInfo.postfix_binds_more_tightly (get_postfix_op_info (token st)) outer)
      eqn:Ep; injection Hc as <- <-; [congruence | auto].
  - injection Hc as <- <-. split; [reflexivity|].
    unfold OpInfo.postfix_binds_more_tightly, OpInfo.to_bool in *.
    apply negb_false_iff in Et. rewrite Et. reflexivity.
Qed.

Lemma only_tighter_binds (outer : Z)
    (hook : AstNodeType -> Z -> Z -> State -> outcome (AstNodeType * State))
    (lhs : AstNodeType) (op precedence : Z) (st : State) :
  precedence <> 0 -> precedence <= outer ->
  only_tighter outer hook lhs op precedence st = hook lhs op precedence st.
Proof.
  intros Hne Hle. unfold only_tighter.
  replace (precedence =? 0) with false by (symmetry; apply Z.eqb_neq; exact Hne).
  replace (precedence <=? outer) with true by (symmetry; apply Z.leb_le; exact Hle).
  reflexivity.
Qed.

Lemma postfix_loop_spec (outer : Z) (fuel : nat) :
  forall expr st,
    ParserBase.postfix_loop token consume get_postfix_op_info
      parse_postfix_op_expression fuel outer expr st
    = ParserBase.postfix_loop token consume get_postfix_op_info
        (only_tighter outer parse_postfix_op_expression) fuel outer expr st
    /\ forall expr' st',
         ParserBase.postfix_loop token consume get_postfix_op_info
           parse_postfix_op_expression fuel outer expr st = Ok (expr', st') ->
         OpInfo.postfix_binds_more_tightly (get_postfix_op_info (token st')) outer = false.
Proof.
  induction fuel as [|fuel IH]; intros expr st; cbn [ParserBase.postfix_loop];
    destruct (ParserBase.consume_postfix_op token consume get_postfix_op_info outer st)
      as [info st1] eqn:Ec;
    destruct (OpInfo.to_bool info) eqn:Eb.
  - split; [reflexivity | discriminate].
  - split; [reflexivity|]. intros expr' st' [= <- <-].
    destruct (consume_postfix_op_stops _ _ _ _ Ec Eb) as [-> Hstop]. exact Hstop.
  - destruct (consume_postfix_op_binds _ _ _ _ Ec Eb) as [Hne Hle].
    rewrite (only_tighter_binds outer parse_postfix_op_expression _ _ _ _ Hne Hle).
    destruct (parse_postfix_op_expression expr (OpInfo.op info) (OpInfo.precedence info) st1)
      as [[expr1 st2]|f]; cbn [mbind outcome_bind].
    + apply IH.
    + split; [reflexivity | discriminate].
  - split; [reflexivity|]. intros expr' st' [= <- <-].
    destruct (consume_postfix_op_stops _ _ _ _ Ec Eb) as [-> Hstop]. exact Hstop.
Qed.

(** X28.  The Pratt loop of [parse_expression(outer_precedence)] hands to
    [parse_postfix_op_expression] only operators whose postfix precedence
    is non-zero and at most [outer_precedence]; and when it returns after a
    valid prefix expression, the current token is not a postfix operator
    that binds more tightly than [outer_precedence], so that the caller
    sees the first operator that belongs to it. *)
Theorem parse_expression_consumes_the_tighter_operators (fuel : nat) (outer : Z)
    (st : State) :
  ParserBase.parse_expression token consume get_postfix_op_info valid
    parse_prefix_expression parse_postfix_op_expression fuel outer st
  = ParserBase.parse_expression token consume get_postfix_op_info valid
      parse_prefix_expression (only_tighter outer parse_postfix_op_expression)
      fuel outer st
  /\ forall expr st1 expr' st',
       parse_prefix_expression st = Ok (expr, st1) ->
       valid expr = true ->
       ParserBase.parse_expression token consume get_postfix_op_info valid
         parse_prefix_expression parse_postfix_op_expression fuel outer st
       = Ok (expr', st') ->
       OpInfo.postfix_binds_more_tightly (get_postfix_op_info (token st')) outer = false.
Proof.
  unfold ParserBase.parse_expression. split.
  - destruct (parse_prefix_expression st) as [[expr st1]|f]; [|reflexivity].
    cbn [mbind outcome_bind]. destruct (valid expr); [|reflexivity].
    apply postfix_loop_spec.
  - intros expr st1 expr' st' Hp Hv. rewrite Hp. cbn [mbind outcome_bind]. rewrite Hv.
    apply postfix_loop_spec.
Qed.

End PrattLoop.

(** With the operator table of the lexer: [1 * 2 + 3], parsed inside the
    right-hand side of a ['*'] (outer precedence 5), stops before ['*'],
    which is left-to-right; at the weakest precedence the whole expression
    is consumed. *)
Lemma parse_expression_consumes_the_tighter_operators_witness :
  let info := TokenMap.get_postfix_op_info (snd (Lexer_registrations TokenMap.empty)) in
  ParserBase.parse_expression toy_token (tail (A := Z)) info toy_valid toy_prefix toy_postfix
    8 5 [1; Tokens.tk_star; 2; Tokens.tk_plus; 3]
  = Ok ([1], [Tokens.tk_star; 2; Tokens.tk_plus; 3])
  /\ ParserBase.parse_expression toy_token (tail (A := Z)) info toy_valid toy_prefix
       toy_postfix 8 OpInfo.weakest_precedence [1; Tokens.tk_star; 2; Tokens.tk_plus; 3]
     = Ok ([1; 2; Tokens.tk_star; 3; Tokens.tk_plus], [])
  /\ OpInfo.postfix_binds_more_tightly (info (toy_token [Tokens.tk_star; 2; Tokens.tk_plus; 3])) 5
     = false.
Proof.
  split; [reflexivity|]. split; [reflexivity|].
  exact (proj2 (parse_expression_consumes_the_tighter_operators
                  toy_token (tail (A := Z))
                  (TokenMap.get_postfix_op_info (snd (Lexer_registrations TokenMap.empty)))
                  toy_valid toy_prefix toy_postfix 8 5
                  [1; Tokens.tk_star; 2; Tokens.tk_plus; 3])
           [1] [Tokens.tk_star; 2; Tokens.tk_plus; 3]
           [1] [Tokens.tk_star; 2; Tokens.tk_plus; 3]
           eq_refl eq_refl eq_refl).
Defined.

(** ** Global names *)

Section GlobalNames.
Context {NamedefType Location : Type}.

(** X29.  [lookup_global_name] looks into the outermost context only: it
    returns a pointer exactly when the outermost context of the stack
    defines the name, whatever the inner contexts define; the pointer is to
    that definition. *)
Theorem lookup_global_name_is_outermost (name : string)
    (st : @LexicalContextStack.t NamedefType Location) :
  match LexicalContextStack.lookup_global_name name st with
  | Some p =>
      exists e d,
        last st = Some e
        /\ LexicalContextStack.context e !! name = Some d
        /\ LexicalContextStack.deref st p = Some d
  | None =>
      forall e, last st = Some e -> LexicalContextStack.context e !! name = None
  end.
Proof.
  unfold LexicalContextStack.lookup_global_name.
  destruct (last st) as [e|] eqn:El; [|discriminate].
  destruct (LexicalContextStack.context e !! name) as [d|] eqn:Ec.
  - exists e, d. split; [reflexivity|]. split; [exact Ec|].
    unfold LexicalContextStack.deref. cbn [LexicalContextStack.ptr_context
                                           LexicalContextStack.ptr_name].
    assert (Hl : st !! (length st - 1)%nat = Some e).
    { rewrite <- El, last_lookup. f_equal. lia. }
    rewrite Hl. exact Ec.
  - intros e' [= <-]. exact Ec.
Qed.

End GlobalNames.


(** ** Closure objects *)

Section ClosureLayout.
Context `{External}.

Lemma iter_push_capture (k : nat) (v : double) (s : EngineStack.t) :
  Nat.iter k (EngineStack.push_capture v) s
  = EngineStack.mk (EngineStack.m_locals s)
      (push_all (replicate k v) (EngineStack.m_captures s)).
Proof.
  induction k as [|k IH].
  - destruct s. reflexivity.
  - rewrite Nat.iter_succ, IH. unfold EngineStack.push_capture.
    cbn [EngineStack.m_locals EngineStack.m_captures].
    rewrite replicate_S_end, push_all_snoc. reflexivity.
Qed.

Lemma push_all_app {T} (a c : list T) (fs : FrameStack.t T) :
  push_all (a ++ c) fs = push_all c (push_all a fs).
Proof. unfold push_all. apply foldl_app. Qed.

Section Filling.
Variable b : Builder.t.
Hypothesis locals_ok :
  0 <= FrameStack.m_frame_start (EngineStack.m_locals (Builder.m_stack b))
    <= vsize (FrameStack.m_stack (EngineStack.m_locals (Builder.m_stack b))).
Hypothesis locals_small :
  vsize (FrameStack.m_stack (EngineStack.m_locals (Builder.m_stack b))) <= INT_MAX.
Hypothesis captures_ok :
  0 <= FrameStack.m_frame_start (EngineStack.m_captures (Builder.m_stack b))
    <= vsize (FrameStack.m_stack (EngineStack.m_captures (Builder.m_stack b))).

Lemma get_frame_size_filling (n : Z) (b' : Builder.t) :
  filling_closure b n b' ->
  0 <= n ->
  vsize (FrameStack.m_stack (EngineStack.m_captures (Builder.m_stack b))) + n <= INT_MAX ->
  EngineStack.get_frame_size (Builder.m_stack b')
  = Ok (EngineStack.mkSize
          (vsize (FrameStack.m_stack (EngineStack.m_locals (Builder.m_stack b)))
           - FrameStack.m_frame_start (EngineStack.m_locals (Builder.m_stack b)))
          (vsize (FrameStack.m_stack (EngineStack.m_captures (Builder.m_stack b)))
           - FrameStack.m_frame_start (EngineStack.m_captures (Builder.m_stack b)) + n)).
Proof.
  intros (_ & _ & _ & _ & Hl & Hc) Hn Hmax. unfold EngineStack.get_frame_size.
  rewrite Hl, Hc.
  pose proof (get_frame_size_pushed _ [] locals_ok) as Hl0.
  change (vsize []) with 0 in Hl0. rewrite !Z.add_0_r in Hl0.
  cbn [push_all foldl] in Hl0. rewrite (Hl0 locals_small). cbn [mbind outcome_bind].
  rewrite get_frame_size_pushed
    by (try exact captures_ok; unfold vsize in *; rewrite length_replicate; lia).
  cbn [mbind outcome_bind]. do 3 f_equal. unfold vsize. rewrite length_replicate. lia.
Qed.

Lemma push_for_parser_filling (n size : Z) (b' : Builder.t) :
  filling_closure b n b' ->
  0 <= n -> 0 <= size ->
  vsize (FrameStack.m_stack (EngineStack.m_captures (Builder.m_stack b))) + n + size
  <= INT_MAX ->
  exists b1,
    Builder.push_for_parser Capture size b' = Ok (n, b1)
    /\ filling_closure b (n + size) b1
    /\ Builder.m_chunks b1 = Builder.m_chunks b'.
Proof.
  intros Hf Hn Hs Hmax. pose proof Hf as (Hex & Hcur & Hval & Hstart & Hl & Hc).
  unfold Builder.push_for_parser, Builder.get_closure_capture_offset.
  rewrite (get_frame_size_filling n b' Hf Hn) by lia.
  cbn [mbind outcome_bind EngineStack.captures]. rewrite Hstart.
  pose proof (vsize_nonneg
                (FrameStack.m_stack (EngineStack.m_captures (Builder.m_stack b)))) as Hc0.
  replace (vsize (FrameStack.m_stack (EngineStack.m_captures (Builder.m_stack b)))
           - FrameStack.m_frame_start (EngineStack.m_captures (Builder.m_stack b)) + n
           - (vsize (FrameStack.m_stack (EngineStack.m_captures (Builder.m_stack b)))
              - FrameStack.m_frame_start (EngineStack.m_captures (Builder.m_stack b))))
    with n by lia.
  rewrite to_int_fits by (unfold INT_MIN, INT_MAX in *; lia).
  cbn [mbind outcome_bind].
  replace (size <? 0) with false by (symmetry; apply Z.ltb_ge; lia).
  eexists. split; [reflexivity|]. split; [|reflexivity].
  unfold filling_closure.
  cbn [Builder.set_stack Builder.m_is_executing Builder.m_current_chunk Builder.m_chunks
       Builder.m_parser_value_for_push Builder.m_current_closure_start_offset
       Builder.m_stack].
  rewrite iter_push_capture. cbn [EngineStack.m_locals EngineStack.m_captures].
  rewrite Hc, Hval, <- push_all_app, <- replicate_add.
  replace (Z.to_nat n + Z.to_nat size)%nat with (Z.to_nat (n + size)) by lia.
  repeat split; auto.
Qed.

Lemma add_statement_filling (n : Z) (stmt : Statement) (b' : Builder.t) :
  filling_closure b n b' ->
  exists b1, Builder.add_statement stmt b' = Ok b1 /\ filling_closure b n b1.
Proof.
  intros (Hex & Hcur & Hval & Hstart & Hl & Hc).
  unfold Builder.add_statement, Builder.get_chunk, Builder.get_chunk_at.
  rewrite Hex. cbn [negb assert mbind outcome_bind].
  rewrite assert_true_bind by (apply Z.ltb_lt; unfold vsize; lia).
  destruct (lookup_lt_is_Some_2 _ _ Hcur) as [c Hc'].
  rewrite Hc'. cbn [mbind outcome_bind].
  eexists. split; [reflexivity|].
  unfold filling_closure, Builder.set_chunk, Builder.set_chunks.
  cbn [Builder.m_is_executing Builder.m_current_chunk Builder.m_chunks
       Builder.m_parser_value_for_push Builder.m_current_closure_start_offset
       Builder.m_stack].
  rewrite length_insert. repeat split; auto.
Qed.

Lemma compile_push_capture_filling (n : Z) (c : CaptureSource) (b' : Builder.t) :
  filling_closure b n b' ->
  0 <= n -> 0 < capture_size c ->
  vsize (FrameStack.m_stack (EngineStack.m_captures (Builder.m_stack b))) + n
  + capture_size c <= INT_MAX ->
  exists b1,
    compile_push_capture c b' = Ok (n, b1) /\ filling_closure b (n + capture_size c) b1.
Proof.
  intros Hf Hn Hs Hmax. destruct c as [fn_index self|source offset size];
    cbn [compile_push_capture capture_size] in *.
  - unfold Builder.compile_push_lambda.
    destruct (push_for_parser_filling n 2 b' Hf Hn ltac:(lia) Hmax) as (b1 & -> & Hf1 & _).
    cbn [mbind outcome_bind].
    destruct (add_statement_filling _ (start_fn_call_stmt Capture self true fn_index) b1 Hf1)
      as (b2 & -> & Hf2).
    cbn [mbind outcome_bind]. eauto.
  - unfold Builder.compile_push_copy.
    rewrite assert_true_bind by (apply Z.ltb_lt; exact Hs).
    destruct (push_for_parser_filling n size b' Hf Hn ltac:(lia) Hmax) as (b1 & -> & Hf1 & _).
    cbn [mbind outcome_bind].
    destruct (add_statement_filling _ (push_copy_stmt Capture source offset size) b1 Hf1)
      as (b2 & -> & Hf2).
    cbn [mbind outcome_bind]. eauto.
Qed.

Lemma push_captures_filling (cs : list CaptureSource) :
  Forall (fun c => 0 < capture_size c) cs ->
  forall n b',
    filling_closure b n b' ->
    0 <= n ->
    vsize (FrameStack.m_stack (EngineStack.m_captures (Builder.m_stack b))) + n
    + sum_sizes (map capture_size cs) <= INT_MAX ->
    exists b2,
      push_captures cs b' = Ok (prefix_sums n (map capture_size cs), b2)
      /\ filling_closure b (n + sum_sizes (map capture_size cs)) b2.
Proof.
  induction 1 as [|c rest Hc Hrest IH]; intros n b' Hf Hn Hmax.
  - exists b'. cbn [push_captures map prefix_sums sum_sizes fold_right].
    rewrite Z.add_0_r. auto.
  - cbn [map] in *. change (sum_sizes (capture_size c :: map capture_size rest))
      with (capture_size c + sum_sizes (map capture_size rest)) in *.
    assert (Hsum : 0 <= sum_sizes (map capture_size rest)).
    { apply sum_sizes_nonneg. apply Forall_map. eapply Forall_impl; [exact Hrest|].
      simpl. intros. lia. }
    cbn [push_captures prefix_sums].
    destruct (compile_push_capture_filling n c b' Hf Hn Hc ltac:(lia)) as (b1 & -> & Hf1).
    cbn [mbind outcome_bind].
    destruct (IH (n + capture_size c) b1 Hf1 ltac:(lia) ltac:(lia)) as (b2 & -> & Hf2).
    cbn [mbind outcome_bind]. exists b2. rewrite Z.add_assoc. auto.
Qed.

End Filling.

(** The offset that [add_capture] finds for the [k]-th capture. *)
Lemma add_capture_loop_at (heap : NameHeap) (cs : list nat) (sizes : list Z) (def : nat) :
  Forall2 (fun c size => value_size_at heap c = Ok size) cs sizes ->
  NoDup cs ->
  forall k offset,
    cs !! k = Some def ->
    0 <= offset ->
    offset + sum_sizes sizes <= INT_MAX ->
    exists o,
      prefix_sums offset sizes !! k = Some o
      /\ add_capture_loop heap cs def offset = Ok (o, true).
Proof.
  induction 1 as [|c size cs sizes Hc Hrest IH]; intros Hnd k offset Hk Ho Hmax;
    [discriminate|].
  apply NoDup_cons in Hnd as [Hnot Hnd].
  assert (Hsum : 0 <= sum_sizes sizes).
  { apply sum_sizes_nonneg. clear -Hrest.
    induction Hrest as [|c size cs sizes Hc Hrest IH]; constructor; [|exact IH].
    apply value_size_positive in Hc. lia. }
  change (sum_sizes (size :: sizes)) with (size + sum_sizes sizes) in Hmax.
  apply value_size_positive in Hc as Hpos.
  destruct k as [|k]; cbn [prefix_sums] in *.
  - injection Hk as ->. exists offset. split; [reflexivity|].
    simpl. rewrite Nat.eqb_refl. reflexivity.
  - cbn [lookup list_lookup] in Hk.
    assert (Hne : def <> c).
    { intros ->. apply Hnot. eapply list_elem_of_lookup_2. exact Hk. }
    rewrite add_capture_loop_step by exact Hne. rewrite Hc. cbn [mbind outcome_bind].
    rewrite to_int_fits by (unfold INT_MIN, INT_MAX in *; lia). cbn [mbind outcome_bind].
    apply (IH Hnd k (offset + size) Hk); lia.
Qed.

(** X30.  The closure object is laid out as the function body addresses
    it.  When [create_closure_object] creates the closure of a function and
    pushes its captures, the [k]-th capture is pushed at the closure offset
    that [add_capture] reports for it, which is the offset the parser
    compiled into the body of the function for that name: the sum of the
    sizes of the captures before it. *)
Theorem closure_layout_matches_capture_offsets (heap : NameHeap) (fndef : nat)
    (f : NameDefinition) (sources : list CaptureSource) (chunk_index : nat)
    (c : Chunk) (b : Builder.t) :
  heap !! fndef = Some f ->
  NoDup (m_captures f) ->
  Forall2 (fun def source => value_size_at heap def = Ok (capture_size source))
    (m_captures f) sources ->
  Builder.m_is_executing b = false ->
  (Builder.m_current_chunk b < length (Builder.m_chunks b))%nat ->
  Builder.m_chunks b !! chunk_index = Some c ->
  is_call_frame c = true ->
  0 <= FrameStack.m_frame_start (EngineStack.m_locals (Builder.m_stack b))
    <= vsize (FrameStack.m_stack (EngineStack.m_locals (Builder.m_stack b))) ->
  vsize (FrameStack.m_stack (EngineStack.m_locals (Builder.m_stack b))) <= INT_MAX ->
  0 <= FrameStack.m_frame_start (EngineStack.m_captures (Builder.m_stack b))
    <= vsize (FrameStack.m_stack (EngineStack.m_captures (Builder.m_stack b))) ->
  vsize (FrameStack.m_stack (EngineStack.m_captures (Builder.m_stack b)))
  + sum_sizes (map capture_size sources) <= INT_MAX ->
  exists offsets b',
    create_closure_object chunk_index sources b = Ok (offsets, b')
    /\ forall k def,
         m_captures f !! k = Some def ->
         exists offset,
           offsets !! k = Some offset
           /\ add_capture fndef def heap = Ok (offset, heap).
Proof.
  intros Hf Hnd Hsizes Hex Hcur Hchunk Hcall Hl Hlmax Hc Hmax.
  assert (Hpos : Forall (fun s => 0 < capture_size s) sources).
  { clear -Hsizes. induction Hsizes as [|d s ds ss Hd Hrest IH]; constructor; [|exact IH].
    apply value_size_positive in Hd. lia. }
  assert (Hsz : Forall2 (fun def size => value_size_at heap def = Ok size)
                  (m_captures f) (map capture_size sources)).
  { apply Forall2_fmap_r. exact Hsizes. }
  pose proof (vsize_nonneg
                (FrameStack.m_stack (EngineStack.m_captures (Builder.m_stack b)))) as Hc0.
  assert (Hoffsets : forall k def,
             m_captures f !! k = Some def ->
             exists offset,
               prefix_sums 0 (map capture_size sources) !! k = Some offset
               /\ add_capture fndef def heap = Ok (offset, heap)).
  { intros k def Hk.
    destruct (add_capture_loop_at heap _ _ def Hsz Hnd k 0 Hk ltac:(lia) ltac:(lia))
      as (o & Ho & Hloop).
    exists o. split; [exact Ho|]. apply captured_is_found.
    destruct (Forall2_lookup_l _ _ _ _ _ Hsz Hk) as (size & _ & Hsize).
    exists f, size. auto. }
  destruct sources as [|s sources].
  - exists [], b. split; [reflexivity|]. intros k def Hk.
    apply Forall2_nil_inv_r in Hsizes. rewrite Hsizes in Hk. discriminate.
  - cbn [create_closure_object]. unfold Builder.create_closure, Builder.get_chunk_at.
    apply lookup_lt_Some in Hchunk as Hidx.
    rewrite assert_true_bind by (apply Z.ltb_lt; unfold vsize; lia).
    rewrite Hchunk. cbn [mbind outcome_bind]. rewrite Hcall. cbn [assert mbind outcome_bind].
    pose proof (get_frame_size_pushed _ [] Hl) as Hl0.
    pose proof (get_frame_size_pushed _ [] Hc) as Hc1.
    change (vsize []) with 0 in Hl0, Hc1. rewrite !Z.add_0_r in Hl0, Hc1.
    cbn [push_all foldl] in Hl0, Hc1.
    assert (Hsum : 0 <= sum_sizes (map capture_size (s :: sources))).
    { apply sum_sizes_nonneg. apply Forall_map. eapply Forall_impl; [exact Hpos|].
      simpl. intros. lia. }
    unfold EngineStack.get_frame_size. rewrite (Hl0 Hlmax), (Hc1 ltac:(lia)).
    cbn [mbind outcome_bind EngineStack.captures].
    match goal with
    | |- context [push_captures _ ?b1] =>
        destruct (push_captures_filling b Hl Hlmax Hc (s :: sources) Hpos 0 b1)
          as (b2 & Hpush & _)
    end.
    + unfold filling_closure.
      cbn [Builder.m_is_executing Builder.m_current_chunk Builder.m_chunks
           Builder.m_parser_value_for_push Builder.m_current_closure_start_offset
           Builder.m_stack Z.to_nat replicate push_all foldl].
      rewrite length_insert. repeat split; auto.
    + lia.
    + lia.
    + rewrite Hpush. eauto.
Qed.

End ClosureLayout.


(** The closure of a function that captures a value and a lambda
    parameter. *)
Lemma closure_layout_matches_capture_offsets_witness :
  exists offsets b',
    create_closure_object (H := recording_turtle) 0
      [FromCopy Local 0 1; FromCopy Local 1 2]
      (after_params (H := recording_turtle) Builder.new_builder 3)
    = Ok (offsets, b')
    /\ forall k def,
         m_captures captured_f !! k = Some def ->
         exists offset,
           offsets !! k = Some offset
           /\ add_capture 0 def captured_heap = Ok (offset, captured_heap).
Proof.
  refine (closure_layout_matches_capture_offsets (H := recording_turtle)
            captured_heap 0 captured_f [FromCopy Local 0 1; FromCopy Local 1 2] 0
            {| type := function; info := (3, -1); statements := [] |}
            (after_params (H := recording_turtle) Builder.new_builder 3)
            eq_refl _ _ eq_refl _ eq_refl eq_refl _ _ _ _).
  - apply NoDup_cons. split; [|apply NoDup_singleton].
    apply not_elem_of_cons. split; [discriminate | apply not_elem_of_nil].
  - repeat constructor.
  - simpl. lia.
  - simpl. unfold vsize. simpl. lia.
  - simpl. unfold vsize, INT_MAX. simpl. lia.
  - simpl. unfold vsize. simpl. lia.
  - simpl. unfold vsize, INT_MAX, sum_sizes. simpl. lia.
Defined.
